(** * Distributed update coordinator and planner cost model

  A shallow embedding of [src/distributed/updates_rpc_server.cpp]
  (the per-transaction buffers of remote updates, the RPC handlers that
  fill them, [Apply] and [ClearTransactionalCache]) and of the cost
  arithmetic exercised by the [QueryCostEstimator] tests.

  Conventions.  The hash maps and the concurrent map of the source are
  [gmap]s, which hold the contents only.  The order in which the source
  iterates the [std::unordered_map] of a buffer is fixed neither by its
  contents nor by the source, and [Apply] observes it: the functions
  that iterate take the iteration order as an argument ([TxApply_in],
  [Apply_in]) and the statements that depend on the order hold for
  every enumeration of the entries.  [TxApply] and [Apply] are the
  instances at the enumeration that [map_to_list] gives.  The storage
  engine behind the graph accessor is not part of the sources; it
  enters as the interface [GraphDbAccessor], and the write-ahead log is
  seen through the calls of [wal().Emplace] that the coordinator itself
  makes. *)

From Stdlib Require Import ZArith NArith String.
From Stdlib Require QArith Lqa.
From stdpp Require Import base option list gmap fin_maps strings.

(** ** Identifiers and addresses *)

Module gid.
(** [gid::Gid]: an opaque 64-bit global identifier. *)
Abbreviation Gid := N (only parsing).
End gid.

Module tx.
(** [tx::transaction_id_t] *)
Abbreviation transaction_id_t := N (only parsing).
End tx.

Module storage.
Abbreviation Label := N (only parsing).
Abbreviation Property := N (only parsing).
Abbreviation EdgeType := N (only parsing).

(** [storage::VertexAddress], [storage::EdgeAddress]: a global address
    is a record id together with the id of the worker that owns it.
    The constructor takes the arguments in the order of the source's
    brace initialisers, [{gid, worker_id}]. *)
Record Address := mkAddress { gid : gid.Gid; worker_id : Z }.
End storage.

(** Modelled from the spec: the property value type
    ([storage/common/property_value.hpp], [query::TypedValue]) is not
    among the sources; the spec only says that properties are arbitrary
    values.  The scalar cases are enough for every function below, which
    only move values around. *)
Inductive PropertyValue :=
| PVNull
| PVBool (b : bool)
| PVInt (i : Z)
| PVString (s : string).

(** ** State deltas *)

Module StateDelta.

(** [database::StateDelta::Type], the tag set of the spec. *)
Inductive Type_ :=
| TRANSACTION_BEGIN
| TRANSACTION_COMMIT
| TRANSACTION_ABORT
| CREATE_VERTEX
| CREATE_EDGE
| SET_PROPERTY_VERTEX
| SET_PROPERTY_EDGE
| ADD_LABEL
| REMOVE_LABEL
| ADD_OUT_EDGE
| ADD_IN_EDGE
| REMOVE_VERTEX
| REMOVE_EDGE
| REMOVE_OUT_EDGE
| REMOVE_IN_EDGE
| BUILD_INDEX.

(** The fields of [database::StateDelta] that the coordinator reads. *)
Record t := mk {
  type : Type_;
  transaction_id : tx.transaction_id_t;
  vertex_id : gid.Gid;
  edge_id : gid.Gid;
  edge_address : storage.Address;
  vertex_from_address : storage.Address;
  vertex_to_address : storage.Address;
  edge_type : storage.EdgeType;
  property : storage.Property;
  value : PropertyValue;
  label : storage.Label;
  check_empty : bool
}.

Definition no_address : storage.Address := storage.mkAddress 0%N 0%Z.

(** Modelled from the spec: the factory functions of
    [durability/state_delta.cpp] are not among the sources.  Each one
    sets the tag, the transaction id and the fields named by its
    arguments at the call sites in [updates_rpc_server.cpp]. *)
Definition AddOutEdge (tx_id : tx.transaction_id_t) (vertex : gid.Gid)
    (vertex_to edge : storage.Address) (et : storage.EdgeType) : t :=
  mk ADD_OUT_EDGE tx_id vertex 0%N edge no_address vertex_to et 0%N PVNull
     0%N false.

Definition AddInEdge (tx_id : tx.transaction_id_t) (vertex : gid.Gid)
    (vertex_from edge : storage.Address) (et : storage.EdgeType) : t :=
  mk ADD_IN_EDGE tx_id vertex 0%N edge vertex_from no_address et 0%N PVNull
     0%N false.

Definition RemoveVertex (tx_id : tx.transaction_id_t) (vertex : gid.Gid)
    (check : bool) : t :=
  mk REMOVE_VERTEX tx_id vertex 0%N no_address no_address no_address 0%N 0%N
     PVNull 0%N check.

Definition RemoveEdge (tx_id : tx.transaction_id_t) (edge : gid.Gid) : t :=
  mk REMOVE_EDGE tx_id 0%N edge no_address no_address no_address 0%N 0%N
     PVNull 0%N false.

Definition RemoveOutEdge (tx_id : tx.transaction_id_t) (vertex : gid.Gid)
    (edge : storage.Address) : t :=
  mk REMOVE_OUT_EDGE tx_id vertex 0%N edge no_address no_address 0%N 0%N
     PVNull 0%N false.

Definition RemoveInEdge (tx_id : tx.transaction_id_t) (vertex : gid.Gid)
    (edge : storage.Address) : t :=
  mk REMOVE_IN_EDGE tx_id vertex 0%N edge no_address no_address 0%N 0%N
     PVNull 0%N false.

(** The deltas that [dba.wal().Emplace] is called on in
    [TransactionUpdates::Apply]. *)
Definition structural (d : t) : bool :=
  match type d with
  | ADD_OUT_EDGE | ADD_IN_EDGE => true
  | _ => false
  end.

(** The tags that [TransactionUpdates::Apply] has a case for other than
    [LOG(FATAL)]. *)
Definition applicable (d : t) : bool :=
  match type d with
  | TRANSACTION_BEGIN | TRANSACTION_COMMIT | TRANSACTION_ABORT
  | CREATE_VERTEX | CREATE_EDGE | BUILD_INDEX => false
  | _ => true
  end.

End StateDelta.

(** ** Results and control flow *)

(** [distributed::UpdateResult] *)
Inductive UpdateResult :=
| DONE
| SERIALIZATION_ERROR
| LOCK_TIMEOUT_ERROR
| UPDATE_DELETED_ERROR
| UNABLE_TO_DELETE_VERTEX_ERROR.

#[global] Instance UpdateResult_eq_dec : EqDecision UpdateResult.
Proof. solve_decision. Defined.

(** [distributed::CreateResult] *)
Record CreateResult := mkCreateResult {
  result : UpdateResult;
  created_gid : gid.Gid
}.

(** The exceptions that the storage engine throws at a writer. *)
Inductive Exception :=
| SerializationError
| RecordDeletedError
| LockTimeoutException.

(** The [catch] clauses at the end of [TransactionUpdates::Apply]. *)
Definition caught (e : Exception) : UpdateResult :=
  match e with
  | SerializationError => SERIALIZATION_ERROR
  | RecordDeletedError => UPDATE_DELETED_ERROR
  | LockTimeoutException => LOCK_TIMEOUT_ERROR
  end.

(** What a call into the storage engine does: it completes with a value
    or throws; either way it leaves a storage state behind. *)
Inductive Attempt (Db A : Type) :=
| Completed (a : A) (db : Db)
| Thrown (e : Exception) (db : Db).
Arguments Completed {Db A} a db.
Arguments Thrown {Db A} e db.

(** What a call into the coordinator does: it returns, it ends the
    process in [LOG(FATAL)], or it lets an exception escape. *)
Inductive Outcome (A : Type) :=
| Returns (a : A)
| Fatal
| Escapes (e : Exception).
Arguments Returns {A} a.
Arguments Fatal {A}.
Arguments Escapes {A} e.

Definition obind {A B} (m : Outcome A) (k : A → Outcome B) : Outcome B :=
  match m with
  | Returns a => k a
  | Fatal => Fatal
  | Escapes e => Escapes e
  end.

Notation "x ←! m ; k" := (obind m (λ x, k))
  (at level 20, m at level 100, k at level 200, only parsing).
Notation "' p ←! m ; k" := (obind m (λ p, k))
  (at level 20, p pattern, m at level 100, k at level 200, only parsing).

(** The state of a loop body that may [return] from the enclosing
    function or abort the process. *)
Inductive Flow (S : Type) :=
| Continue (s : S)
| Return (r : UpdateResult) (s : S)
| Abort.
Arguments Continue {S} s.
Arguments Return {S} r s.
Arguments Abort {S}.

(** ** The storage engine, as seen from the coordinator *)

(** The write-ahead log as the coordinator sees it: the deltas that the
    code of [updates_rpc_server.cpp] itself hands to [wal().Emplace],
    oldest first.  What the member functions of the graph accessor write
    to the log on their own is part of the storage engine and not of
    this list. *)
Definition Wal := list StateDelta.t.

(** The member functions of [GraphDbAccessor], [GraphDb], [Storage] and of
    the record accessors that [updates_rpc_server.cpp] calls.  [Db] is the
    state of the storage engine, [RecordAccessor] the handle type behind
    both [VertexAccessor] and [EdgeAccessor] (the source moves between
    them by [reinterpret_cast]). *)
Class GraphDbAccessor (Db RecordAccessor : Type) := {
  WorkerId : Db → Z;
  LocalizedAddressIfPossible : Db → storage.Address → storage.Address;
  InsertVertex : tx.transaction_id_t → Db → RecordAccessor * Db;
  InsertOnlyEdge : tx.transaction_id_t → storage.Address → storage.Address →
                   storage.EdgeType → Db → RecordAccessor * Db;
  FindVertex : tx.transaction_id_t → gid.Gid → Db → RecordAccessor;
  FindEdge : tx.transaction_id_t → gid.Gid → Db → RecordAccessor;
  accessor_gid : RecordAccessor → gid.Gid;
  Reconstruct : RecordAccessor → Db → RecordAccessor;
  dba_RemoveVertex : tx.transaction_id_t → RecordAccessor → bool → Db →
                     Attempt Db bool;
  dba_RemoveEdge : tx.transaction_id_t → RecordAccessor → Db →
                   Attempt Db unit;
  PropsSet : RecordAccessor → storage.Property → PropertyValue → Db →
             Attempt Db unit;
  add_label : RecordAccessor → storage.Label → Db → Attempt Db unit;
  remove_label : RecordAccessor → storage.Label → Db → Attempt Db unit;
  update : RecordAccessor → Db → Attempt Db unit;
  out_emplace : RecordAccessor → storage.Address → storage.Address →
                storage.EdgeType → Db → Db;
  in_emplace : RecordAccessor → storage.Address → storage.Address →
               storage.EdgeType → Db → Db;
  RemoveOutEdge : RecordAccessor → storage.Address → Db → Attempt Db unit;
  RemoveInEdge : RecordAccessor → storage.Address → Db → Attempt Db unit
}.


(** ** Request payloads

    The members of the RPC request messages, with the fields that the
    handlers read. *)

Module CreateVertexReqData.
Record t := mk {
  tx_id : tx.transaction_id_t;
  labels : list storage.Label;
  properties : gmap storage.Property PropertyValue
}.
End CreateVertexReqData.

Module CreateEdgeReqData.
Record t := mk {
  from : gid.Gid;
  to : storage.Address;
  edge_type : storage.EdgeType;
  tx_id : tx.transaction_id_t
}.
End CreateEdgeReqData.

Module AddInEdgeReqData.
Record t := mk {
  from : storage.Address;
  to : gid.Gid;
  edge_address : storage.Address;
  edge_type : storage.EdgeType;
  tx_id : tx.transaction_id_t
}.
End AddInEdgeReqData.

Module RemoveVertexReqData.
Record t := mk {
  gid : gid.Gid;
  tx_id : tx.transaction_id_t;
  check_empty : bool
}.
End RemoveVertexReqData.

Module RemoveEdgeData.
Record t := mk {
  tx_id : tx.transaction_id_t;
  edge_id : gid.Gid;
  vertex_from_id : gid.Gid;
  vertex_to_address : storage.Address
}.
End RemoveEdgeData.

Module RemoveInEdgeData.
Record t := mk {
  tx_id : tx.transaction_id_t;
  vertex : gid.Gid;
  edge_address : storage.Address
}.
End RemoveInEdgeData.

(** The template parameter of [TransactionUpdates]:
    [std::is_same<TRecordAccessor, VertexAccessor>] decides which id of a
    delta is its record and which lookup [FindAccessor] performs. *)
Inductive RecordKind := OfVertex | OfEdge.

(** [std::unordered_map::emplace] and the concurrent map's [emplace]:
    insert unless the key is taken. *)
Definition map_emplace `{Countable K} {V} (k : K) (v : V) (m : gmap K V)
    : gmap K V :=
  match m !! k with
  | Some _ => m
  | None => <[k := v]> m
  end.

(** ** Nested iteration with early exit

    The shape of the two loops of [TransactionUpdates::Apply]: for every
    record of the map, refresh its accessor, then run the body on every
    queued delta in turn; a body that returns or aborts ends everything. *)
Section Traversal.
Context {RecordAccessor S : Type}.
Variable refresh : RecordAccessor → S → RecordAccessor.
Variable body : RecordAccessor → StateDelta.t → S → Flow S.

Fixpoint for_each_delta (acc : RecordAccessor) (q : list StateDelta.t)
    (s : S) : Flow S :=
  match q with
  | [] => Continue s
  | delta :: q' =>
    match body acc delta s with
    | Continue s' => for_each_delta acc q' s'
    | Return r s' => Return r s'
    | Abort => Abort
    end
  end.

Fixpoint for_each_record
    (kvs : list (gid.Gid * (RecordAccessor * list StateDelta.t)))
    (s : S) : Flow S :=
  match kvs with
  | [] => Continue s
  | kv :: kvs' =>
    match for_each_delta (refresh kv.2.1 s) kv.2.2 s with
    | Continue s' => for_each_record kvs' s'
    | Return r s' => Return r s'
    | Abort => Abort
    end
  end.

End Traversal.

(** ** TransactionUpdates *)

Section Coordinator.
Context {Db RecordAccessor : Type} `{!GraphDbAccessor Db RecordAccessor}.

(** [UpdatesRpcServer::TransactionUpdates<TRecordAccessor>].  The
    accessor [db_accessor_] is bound to one transaction and is
    represented by that transaction's id; [lock_] serialises the member
    functions, each of which is therefore one atomic step here.
    [deltas_] holds the entries of the [std::unordered_map]; the order
    in which the map is iterated is not part of this value, see
    [iteration_order]. *)
Record TransactionUpdates := mkTransactionUpdates {
  db_accessor_ : tx.transaction_id_t;
  deltas_ : gmap gid.Gid (RecordAccessor * list StateDelta.t)
}.

Definition record_of (kind : RecordKind) (delta : StateDelta.t) : gid.Gid :=
  match kind with
  | OfVertex => StateDelta.vertex_id delta
  | OfEdge => StateDelta.edge_id delta
  end.

Definition FindAccessor (kind : RecordKind) (t : tx.transaction_id_t)
    (g : gid.Gid) (db : Db) : RecordAccessor :=
  match kind with
  | OfVertex => FindVertex t g db
  | OfEdge => FindEdge t g db
  end.

Definition Emplace (kind : RecordKind) (delta : StateDelta.t)
    (u : TransactionUpdates) (db : Db) : UpdateResult * TransactionUpdates :=
  let g := record_of kind delta in
  let found :=
    match deltas_ u !! g with
    | Some entry => entry
    | None => (FindAccessor kind (db_accessor_ u) g db, [])
    end in
  (DONE,
   mkTransactionUpdates (db_accessor_ u)
     (<[g := (found.1, found.2 ++ [delta])]> (deltas_ u))).

Fixpoint add_labels (result : RecordAccessor) (labels : list storage.Label)
    (db : Db) : Attempt Db unit :=
  match labels with
  | [] => Completed () db
  | l :: labels' =>
    match add_label result l db with
    | Completed _ db' => add_labels result labels' db'
    | Thrown e db' => Thrown e db'
    end
  end.

Fixpoint set_properties (result : RecordAccessor)
    (kvs : list (storage.Property * PropertyValue)) (db : Db)
    : Attempt Db unit :=
  match kvs with
  | [] => Completed () db
  | kv :: kvs' =>
    match PropsSet result kv.1 kv.2 db with
    | Completed _ db' => set_properties result kvs' db'
    | Thrown e db' => Thrown e db'
    end
  end.

Definition CreateVertex (labels : list storage.Label)
    (properties : gmap storage.Property PropertyValue)
    (u : TransactionUpdates) (db : Db)
    : Outcome (gid.Gid * TransactionUpdates * Db) :=
  let '(result, db1) := InsertVertex (db_accessor_ u) db in
  match add_labels result labels db1 with
  | Thrown e _ => Escapes e
  | Completed _ db2 =>
    match set_properties result (map_to_list properties) db2 with
    | Thrown e _ => Escapes e
    | Completed _ db3 =>
      Returns (accessor_gid result,
               mkTransactionUpdates (db_accessor_ u)
                 (map_emplace (accessor_gid result) (result, [])
                    (deltas_ u)),
               db3)
    end
  end.

Definition TxCreateEdge (from : gid.Gid) (to : storage.Address)
    (edge_type : storage.EdgeType) (u : TransactionUpdates) (db : Db)
    : gid.Gid * TransactionUpdates * Db :=
  let '(edge, db1) :=
    InsertOnlyEdge (db_accessor_ u) (storage.mkAddress from (WorkerId db))
      (LocalizedAddressIfPossible db to) edge_type db in
  (accessor_gid edge,
   mkTransactionUpdates (db_accessor_ u)
     (map_emplace (accessor_gid edge) (edge, []) (deltas_ u)),
   db1).

(** The [try] block of [Apply] around one call into the storage engine. *)
Definition attempt (wal : Wal) (a : Attempt Db unit) : Flow (Db * Wal) :=
  match a with
  | Completed _ db' => Continue (db', wal)
  | Thrown e db' => Return (caught e) (db', wal)
  end.

(** The body of the inner loop of [Apply]: the [switch] on the delta's
    type inside the [try] block. *)
Definition apply_delta (t : tx.transaction_id_t)
    (record_accessor : RecordAccessor) (delta : StateDelta.t)
    (s : Db * Wal) : Flow (Db * Wal) :=
  let '(db, wal) := s in
  match StateDelta.type delta with
  | StateDelta.TRANSACTION_BEGIN
  | StateDelta.TRANSACTION_COMMIT
  | StateDelta.TRANSACTION_ABORT
  | StateDelta.CREATE_VERTEX
  | StateDelta.CREATE_EDGE
  | StateDelta.BUILD_INDEX => Abort
  | StateDelta.REMOVE_VERTEX =>
    match dba_RemoveVertex t record_accessor
            (StateDelta.check_empty delta) db with
    | Completed true db' => Continue (db', wal)
    | Completed false db' => Return UNABLE_TO_DELETE_VERTEX_ERROR (db', wal)
    | Thrown e db' => Return (caught e) (db', wal)
    end
  | StateDelta.SET_PROPERTY_VERTEX
  | StateDelta.SET_PROPERTY_EDGE =>
    attempt wal
      (PropsSet record_accessor (StateDelta.property delta)
         (StateDelta.value delta) db)
  | StateDelta.ADD_LABEL =>
    attempt wal (add_label record_accessor (StateDelta.label delta) db)
  | StateDelta.REMOVE_LABEL =>
    attempt wal (remove_label record_accessor (StateDelta.label delta) db)
  | StateDelta.ADD_OUT_EDGE =>
    match update record_accessor db with
    | Completed _ db' =>
      Continue
        (out_emplace record_accessor
           (LocalizedAddressIfPossible db'
              (StateDelta.vertex_to_address delta))
           (LocalizedAddressIfPossible db' (StateDelta.edge_address delta))
           (StateDelta.edge_type delta) db',
         wal ++ [delta])
    | Thrown e db' => Return (caught e) (db', wal)
    end
  | StateDelta.ADD_IN_EDGE =>
    match update record_accessor db with
    | Completed _ db' =>
      Continue
        (in_emplace record_accessor
           (LocalizedAddressIfPossible db'
              (StateDelta.vertex_from_address delta))
           (LocalizedAddressIfPossible db' (StateDelta.edge_address delta))
           (StateDelta.edge_type delta) db',
         wal ++ [delta])
    | Thrown e db' => Return (caught e) (db', wal)
    end
  | StateDelta.REMOVE_EDGE =>
    attempt wal (dba_RemoveEdge t record_accessor db)
  | StateDelta.REMOVE_OUT_EDGE =>
    attempt wal
      (RemoveOutEdge record_accessor (StateDelta.edge_address delta) db)
  | StateDelta.REMOVE_IN_EDGE =>
    attempt wal
      (RemoveInEdge record_accessor (StateDelta.edge_address delta) db)
  end.

(** [record_accessor.Reconstruct()] at the head of the outer loop. *)
Definition reconstruct (acc : RecordAccessor) (s : Db * Wal)
    : RecordAccessor :=
  Reconstruct acc s.1.

(** The two loops of [Apply] over a given iteration order of [deltas_]. *)
Definition apply_records (t : tx.transaction_id_t)
    (kvs : list (gid.Gid * (RecordAccessor * list StateDelta.t)))
    (s : Db * Wal) : Flow (Db * Wal) :=
  for_each_record reconstruct (apply_delta t) kvs s.

(** The orders in which [for (auto &kv : deltas_)] may meet the entries
    of the buffer.  The iteration order of a [std::unordered_map]
    depends on the history of insertions and on the implementation, so
    every enumeration of the entries counts as one. *)
Definition iteration_order (u : TransactionUpdates)
    (kvs : list (gid.Gid * (RecordAccessor * list StateDelta.t))) : Prop :=
  kvs ≡ₚ map_to_list (deltas_ u).

(** [TransactionUpdates::Apply], with the entries met in the order
    [kvs].  The refreshed accessors are not kept: the only caller
    removes the whole object right after the call. *)
Definition TxApply_in
    (kvs : list (gid.Gid * (RecordAccessor * list StateDelta.t)))
    (u : TransactionUpdates) (s : Db * Wal)
    : Outcome (UpdateResult * (Db * Wal)) :=
  match apply_records (db_accessor_ u) kvs s with
  | Continue s' => Returns (DONE, s')
  | Return r s' => Returns (r, s')
  | Abort => Fatal
  end.

(** [TransactionUpdates::Apply] at one of the iteration orders, the
    enumeration that [map_to_list] gives. *)
Definition TxApply (u : TransactionUpdates) (s : Db * Wal)
    : Outcome (UpdateResult * (Db * Wal)) :=
  TxApply_in (map_to_list (deltas_ u)) u s.

(** ** UpdatesRpcServer *)

(** The server: the storage it fronts, the log of that storage, and the
    two concurrent maps from transaction id to buffered updates. *)
Record UpdatesRpcServer := mkUpdatesRpcServer {
  db_ : Db;
  wal_ : Wal;
  vertex_updates_ : gmap tx.transaction_id_t TransactionUpdates;
  edge_updates_ : gmap tx.transaction_id_t TransactionUpdates
}.

(** [GetUpdates]: the updates of the transaction, created empty when the
    map has none.  Every caller goes on to change the object it gets and
    the changed object is stored back under the same key, which also
    accounts for the insertion done here. *)
Definition GetUpdates
    (updates : gmap tx.transaction_id_t TransactionUpdates)
    (tx_id : tx.transaction_id_t) : TransactionUpdates :=
  match updates !! tx_id with
  | Some u => u
  | None => mkTransactionUpdates tx_id ∅
  end.

Definition updates_of (kind : RecordKind) (s : UpdatesRpcServer)
    : gmap tx.transaction_id_t TransactionUpdates :=
  match kind with
  | OfVertex => vertex_updates_ s
  | OfEdge => edge_updates_ s
  end.

Definition set_updates (kind : RecordKind) (tx_id : tx.transaction_id_t)
    (u : TransactionUpdates) (s : UpdatesRpcServer) : UpdatesRpcServer :=
  match kind with
  | OfVertex =>
    mkUpdatesRpcServer (db_ s) (wal_ s) (<[tx_id := u]> (vertex_updates_ s))
      (edge_updates_ s)
  | OfEdge =>
    mkUpdatesRpcServer (db_ s) (wal_ s) (vertex_updates_ s)
      (<[tx_id := u]> (edge_updates_ s))
  end.

Definition set_db (db : Db) (s : UpdatesRpcServer) : UpdatesRpcServer :=
  mkUpdatesRpcServer db (wal_ s) (vertex_updates_ s) (edge_updates_ s).

Section Buffering.
(** The handlers that test the result of one buffering step before they
    take the next are written over the step itself, so that what they do
    with a result other than [DONE] can be stated. *)
Variable emplace : RecordKind → StateDelta.t → TransactionUpdates → Db →
                   UpdateResult * TransactionUpdates.

(** [GetUpdates(vertex_updates_ | edge_updates_, tx_id).Emplace(delta)] *)
Definition emplace_with (kind : RecordKind) (tx_id : tx.transaction_id_t)
    (delta : StateDelta.t) (s : UpdatesRpcServer)
    : UpdateResult * UpdatesRpcServer :=
  let '(r, u') :=
    emplace kind delta (GetUpdates (updates_of kind s) tx_id) (db_ s) in
  (r, set_updates kind tx_id u' s).

Definition CreateEdge_with (req : CreateEdgeReqData.t)
    (s : UpdatesRpcServer) : CreateResult * UpdatesRpcServer :=
  let '(gid, u', db') :=
    TxCreateEdge (CreateEdgeReqData.from req) (CreateEdgeReqData.to req)
      (CreateEdgeReqData.edge_type req)
      (GetUpdates (edge_updates_ s) (CreateEdgeReqData.tx_id req)) (db_ s) in
  let s1 :=
    set_updates OfEdge (CreateEdgeReqData.tx_id req) u' (set_db db' s) in
  let from_delta :=
    StateDelta.AddOutEdge (CreateEdgeReqData.tx_id req)
      (CreateEdgeReqData.from req) (CreateEdgeReqData.to req)
      (storage.mkAddress gid (WorkerId (db_ s1)))
      (CreateEdgeReqData.edge_type req) in
  let '(result, s2) :=
    emplace_with OfVertex (CreateEdgeReqData.tx_id req) from_delta s1 in
  (mkCreateResult result gid, s2).

Definition CreateEdgeRpc_with (data : CreateEdgeReqData.t)
    (s : UpdatesRpcServer) : CreateResult * UpdatesRpcServer :=
  let '(creation_result, s1) := CreateEdge_with data s in
  if bool_decide (result creation_result = DONE) &&
     (storage.worker_id (CreateEdgeReqData.to data) =? WorkerId (db_ s1))%Z
  then
    let to_delta :=
      StateDelta.AddInEdge (CreateEdgeReqData.tx_id data)
        (storage.gid (CreateEdgeReqData.to data))
        (storage.mkAddress (CreateEdgeReqData.from data) (WorkerId (db_ s1)))
        (storage.mkAddress (created_gid creation_result)
           (WorkerId (db_ s1)))
        (CreateEdgeReqData.edge_type data) in
    let '(r, s2) :=
      emplace_with OfVertex (CreateEdgeReqData.tx_id data) to_delta s1 in
    (mkCreateResult r (created_gid creation_result), s2)
  else (creation_result, s1).

Definition RemoveEdge_with (data : RemoveEdgeData.t) (s : UpdatesRpcServer)
    : UpdateResult * UpdatesRpcServer :=
  let deletion_delta :=
    StateDelta.RemoveEdge (RemoveEdgeData.tx_id data)
      (RemoveEdgeData.edge_id data) in
  let '(result, s1) :=
    emplace_with OfEdge (RemoveEdgeData.tx_id data) deletion_delta s in
  let '(result, s2) :=
    if bool_decide (result = DONE) then
      let remove_out_delta :=
        StateDelta.RemoveOutEdge (RemoveEdgeData.tx_id data)
          (RemoveEdgeData.vertex_from_id data)
          (storage.mkAddress (RemoveEdgeData.edge_id data)
             (WorkerId (db_ s1))) in
      emplace_with OfVertex (RemoveEdgeData.tx_id data) remove_out_delta s1
    else (result, s1) in
  if bool_decide (result = DONE) &&
     (storage.worker_id (RemoveEdgeData.vertex_to_address data)
        =? WorkerId (db_ s2))%Z
  then
    let remove_in_delta :=
      StateDelta.RemoveInEdge (RemoveEdgeData.tx_id data)
        (storage.gid (RemoveEdgeData.vertex_to_address data))
        (storage.mkAddress (RemoveEdgeData.edge_id data)
           (WorkerId (db_ s2))) in
    emplace_with OfVertex (RemoveEdgeData.tx_id data) remove_in_delta s2
  else (result, s2).

End Buffering.

(** [GetUpdates(..., tx_id).Emplace(delta)] with the member function of
    [TransactionUpdates]. *)
Definition emplace_in := emplace_with Emplace.

Definition CreateEdge := CreateEdge_with Emplace.
Definition CreateEdgeRpc := CreateEdgeRpc_with Emplace.
Definition RemoveEdge := RemoveEdge_with Emplace.
Definition RemoveEdgeRpc := RemoveEdge.

(** The handler registered for [UpdateRpc]. *)
Definition UpdateRpc (delta : StateDelta.t) (s : UpdatesRpcServer)
    : Outcome (UpdateResult * UpdatesRpcServer) :=
  match StateDelta.type delta with
  | StateDelta.SET_PROPERTY_VERTEX
  | StateDelta.ADD_LABEL
  | StateDelta.REMOVE_LABEL
  | StateDelta.REMOVE_OUT_EDGE
  | StateDelta.REMOVE_IN_EDGE =>
    Returns (emplace_in OfVertex (StateDelta.transaction_id delta) delta s)
  | StateDelta.SET_PROPERTY_EDGE =>
    Returns (emplace_in OfEdge (StateDelta.transaction_id delta) delta s)
  | _ => Fatal
  end.

(** The handler registered for [CreateVertexRpc]. *)
Definition CreateVertexRpc (req : CreateVertexReqData.t)
    (s : UpdatesRpcServer) : Outcome (CreateResult * UpdatesRpcServer) :=
  '(gid, u', db') ←!
    CreateVertex (CreateVertexReqData.labels req)
      (CreateVertexReqData.properties req)
      (GetUpdates (vertex_updates_ s) (CreateVertexReqData.tx_id req))
      (db_ s);
  Returns (mkCreateResult DONE gid,
           set_updates OfVertex (CreateVertexReqData.tx_id req) u'
             (set_db db' s)).

(** The handler registered for [AddInEdgeRpc]. *)
Definition AddInEdgeRpc (req : AddInEdgeReqData.t) (s : UpdatesRpcServer)
    : UpdateResult * UpdatesRpcServer :=
  let to_delta :=
    StateDelta.AddInEdge (AddInEdgeReqData.tx_id req)
      (AddInEdgeReqData.to req) (AddInEdgeReqData.from req)
      (AddInEdgeReqData.edge_address req) (AddInEdgeReqData.edge_type req) in
  emplace_in OfVertex (AddInEdgeReqData.tx_id req) to_delta s.

(** The handler registered for [RemoveVertexRpc]. *)
Definition RemoveVertexRpc (req : RemoveVertexReqData.t)
    (s : UpdatesRpcServer) : UpdateResult * UpdatesRpcServer :=
  let to_delta :=
    StateDelta.RemoveVertex (RemoveVertexReqData.tx_id req)
      (RemoveVertexReqData.gid req) (RemoveVertexReqData.check_empty req) in
  emplace_in OfVertex (RemoveVertexReqData.tx_id req) to_delta s.

(** The handler registered for [RemoveInEdgeRpc]. *)
Definition RemoveInEdgeRpc (data : RemoveInEdgeData.t)
    (s : UpdatesRpcServer) : UpdateResult * UpdatesRpcServer :=
  emplace_in OfVertex (RemoveInEdgeData.tx_id data)
    (StateDelta.RemoveInEdge (RemoveInEdgeData.tx_id data)
       (RemoveInEdgeData.vertex data) (RemoveInEdgeData.edge_address data))
    s.

(** The lambda [apply] of [UpdatesRpcServer::Apply], on one of the two
    maps; [kvs] is the order in which the buffer found is iterated. *)
Definition apply_collection_in
    (kvs : list (gid.Gid * (RecordAccessor * list StateDelta.t)))
    (tx_id : tx.transaction_id_t)
    (collection : gmap tx.transaction_id_t TransactionUpdates)
    (s : Db * Wal)
    : Outcome (UpdateResult *
               (gmap tx.transaction_id_t TransactionUpdates * (Db * Wal))) :=
  match collection !! tx_id with
  | None => Returns (DONE, (collection, s))
  | Some found =>
    '(result, s') ←! TxApply_in kvs found s;
    Returns (result, (delete tx_id collection, s'))
  end.

(** [UpdatesRpcServer::Apply], also the handler of [UpdateApplyRpc];
    [vertex_order] and [edge_order] are the orders in which the vertex
    updates and the edge updates of the transaction are iterated. *)
Definition Apply_in
    (vertex_order edge_order
       : list (gid.Gid * (RecordAccessor * list StateDelta.t)))
    (tx_id : tx.transaction_id_t) (s : UpdatesRpcServer)
    : Outcome (UpdateResult * UpdatesRpcServer) :=
  '(vertex_result, (vertex_updates', s1)) ←!
    apply_collection_in vertex_order tx_id (vertex_updates_ s)
      (db_ s, wal_ s);
  '(edge_result, (edge_updates', s2)) ←!
    apply_collection_in edge_order tx_id (edge_updates_ s) s1;
  Returns
    (if bool_decide (vertex_result ≠ DONE) then vertex_result
     else if bool_decide (edge_result ≠ DONE) then edge_result
     else DONE,
     mkUpdatesRpcServer s2.1 s2.2 vertex_updates' edge_updates').

(** [kvs] is an iteration order of the buffer that [collection] holds
    for [tx_id]; without such a buffer nothing is iterated. *)
Definition iterates (tx_id : tx.transaction_id_t)
    (collection : gmap tx.transaction_id_t TransactionUpdates)
    (kvs : list (gid.Gid * (RecordAccessor * list StateDelta.t))) : Prop :=
  match collection !! tx_id with
  | Some u => iteration_order u kvs
  | None => True
  end.

(** The enumeration that [map_to_list] gives of that buffer. *)
Definition listed (tx_id : tx.transaction_id_t)
    (collection : gmap tx.transaction_id_t TransactionUpdates)
    : list (gid.Gid * (RecordAccessor * list StateDelta.t)) :=
  match collection !! tx_id with
  | Some u => map_to_list (deltas_ u)
  | None => []
  end.

(** [UpdatesRpcServer::Apply] at one pair of iteration orders. *)
Definition Apply (tx_id : tx.transaction_id_t) (s : UpdatesRpcServer)
    : Outcome (UpdateResult * UpdatesRpcServer) :=
  Apply_in (listed tx_id (vertex_updates_ s)) (listed tx_id (edge_updates_ s))
    tx_id s.

(** One of the two loops of [ClearTransactionalCache]: walk the map and
    remove each visited key that is older than [oldest_active]. *)
Definition clear_older (oldest_active : tx.transaction_id_t)
    (access : gmap tx.transaction_id_t TransactionUpdates)
    : gmap tx.transaction_id_t TransactionUpdates :=
  foldl (λ acc kv, if (kv.1 <? oldest_active)%N then delete kv.1 acc else acc)
        access (map_to_list access).

Definition ClearTransactionalCache (oldest_active : tx.transaction_id_t)
    (s : UpdatesRpcServer) : UpdatesRpcServer :=
  mkUpdatesRpcServer (db_ s) (wal_ s)
    (clear_older oldest_active (vertex_updates_ s))
    (clear_older oldest_active (edge_updates_ s)).

(** ** The server as a state machine *)

(** The requests the server answers, one per registered handler, and the
    cache eviction triggered by the transaction engine. *)
Inductive Request :=
| OnUpdate (delta : StateDelta.t)
| OnUpdateApply (tx_id : tx.transaction_id_t)
| OnCreateVertex (req : CreateVertexReqData.t)
| OnCreateEdge (req : CreateEdgeReqData.t)
| OnAddInEdge (req : AddInEdgeReqData.t)
| OnRemoveVertex (req : RemoveVertexReqData.t)
| OnRemoveEdge (req : RemoveEdgeData.t)
| OnRemoveInEdge (req : RemoveInEdgeData.t)
| OnClearTransactionalCache (oldest_active : tx.transaction_id_t).

(** The state a request leaves, the response dropped. *)
Definition handle (req : Request) (s : UpdatesRpcServer)
    : Outcome UpdatesRpcServer :=
  match req with
  | OnUpdate delta => '(_, s') ←! UpdateRpc delta s; Returns s'
  | OnUpdateApply tx_id => '(_, s') ←! Apply tx_id s; Returns s'
  | OnCreateVertex req => '(_, s') ←! CreateVertexRpc req s; Returns s'
  | OnCreateEdge req => Returns (CreateEdgeRpc req s).2
  | OnAddInEdge req => Returns (AddInEdgeRpc req s).2
  | OnRemoveVertex req => Returns (RemoveVertexRpc req s).2
  | OnRemoveEdge req => Returns (RemoveEdgeRpc req s).2
  | OnRemoveInEdge req => Returns (RemoveInEdgeRpc req s).2
  | OnClearTransactionalCache oldest_active =>
    Returns (ClearTransactionalCache oldest_active s)
  end.

(** The states of a server that started with empty maps: those that the
    requests lead to, an [UpdateApply] iterating the two buffers in any
    of their iteration orders. *)
Inductive reachable : UpdatesRpcServer → Prop :=
| reachable_start db wal : reachable (mkUpdatesRpcServer db wal ∅ ∅)
| reachable_step req s s' :
    reachable s → handle req s = Returns s' → reachable s'
| reachable_apply vertex_order edge_order tx_id s r s' :
    reachable s →
    iterates tx_id (vertex_updates_ s) vertex_order →
    iterates tx_id (edge_updates_ s) edge_order →
    Apply_in vertex_order edge_order tx_id s = Returns (r, s') →
    reachable s'.

(** ** Vocabulary of the statements *)

(** The deltas queued for one record, oldest first. *)
Definition queue_of (u : TransactionUpdates) (g : gid.Gid)
    : list StateDelta.t :=
  match deltas_ u !! g with
  | Some entry => entry.2
  | None => []
  end.

(** The deltas of all queues, in the order in which the two loops of
    [Apply] come to them when the records are met in the order [kvs]. *)
Definition visit_order
    (kvs : list (gid.Gid * (RecordAccessor * list StateDelta.t)))
    : list StateDelta.t :=
  flat_map (λ kv, kv.2.2) kvs.

(** The buffered deltas, queue after queue at the enumeration that
    [map_to_list] gives. *)
Definition application_order (u : TransactionUpdates) : list StateDelta.t :=
  visit_order (map_to_list (deltas_ u)).


(** Every queued delta sits in the queue of its own record. *)
Definition filed_by_record (kind : RecordKind) (u : TransactionUpdates)
    : bool :=
  forallb
    (λ kv, forallb (λ d, (record_of kind d =? kv.1)%N) kv.2.2)
    (map_to_list (deltas_ u)).

(** No queued delta has a type that [Apply] answers with [LOG(FATAL)]. *)
Definition all_applicable (u : TransactionUpdates) : bool :=
  forallb (λ kv, forallb StateDelta.applicable kv.2.2)
    (map_to_list (deltas_ u)).

Definition applicable_for (tx_id : tx.transaction_id_t)
    (s : UpdatesRpcServer) : bool :=
  from_option all_applicable true (vertex_updates_ s !! tx_id) &&
  from_option all_applicable true (edge_updates_ s !! tx_id).

(** The updates stored for [tx_id], if any, belong to an accessor of that
    transaction, as [GetUpdates] constructs them. *)
Definition bound_to (tx_id : tx.transaction_id_t)
    (updates : gmap tx.transaction_id_t TransactionUpdates) : bool :=
  from_option (λ u, (db_accessor_ u =? tx_id)%N) true (updates !! tx_id).

(** The entry of a transaction, when there is one, is bound to that
    transaction and holds applicable deltas only. *)
Definition well_kept
    (updates : gmap tx.transaction_id_t TransactionUpdates)
    : Prop :=
  ∀ t u, updates !! t = Some u →
         db_accessor_ u = t ∧ all_applicable u = true.

Definition kept (s : UpdatesRpcServer) : Prop :=
  well_kept (vertex_updates_ s) ∧ well_kept (edge_updates_ s).

(** The map that the [Update] handler files a delta of the given type
    in, if it accepts the type at all. *)
Definition routed_to (ty : StateDelta.Type_) : option RecordKind :=
  match ty with
  | StateDelta.SET_PROPERTY_VERTEX
  | StateDelta.ADD_LABEL
  | StateDelta.REMOVE_LABEL
  | StateDelta.REMOVE_OUT_EDGE
  | StateDelta.REMOVE_IN_EDGE => Some OfVertex
  | StateDelta.SET_PROPERTY_EDGE => Some OfEdge
  | _ => None
  end.

(** The call into the storage engine that [Apply] makes for [delta]
    throws [e] and leaves [db']. *)
Inductive throws (t : tx.transaction_id_t) (acc : RecordAccessor)
    (delta : StateDelta.t) (db : Db) (e : Exception) (db' : Db) : Prop :=
| throws_RemoveVertex :
    StateDelta.type delta = StateDelta.REMOVE_VERTEX →
    dba_RemoveVertex t acc (StateDelta.check_empty delta) db = Thrown e db' →
    throws t acc delta db e db'
| throws_PropsSet :
    StateDelta.type delta = StateDelta.SET_PROPERTY_VERTEX ∨
    StateDelta.type delta = StateDelta.SET_PROPERTY_EDGE →
    PropsSet acc (StateDelta.property delta) (StateDelta.value delta) db
      = Thrown e db' →
    throws t acc delta db e db'
| throws_add_label :
    StateDelta.type delta = StateDelta.ADD_LABEL →
    add_label acc (StateDelta.label delta) db = Thrown e db' →
    throws t acc delta db e db'
| throws_remove_label :
    StateDelta.type delta = StateDelta.REMOVE_LABEL →
    remove_label acc (StateDelta.label delta) db = Thrown e db' →
    throws t acc delta db e db'
| throws_update :
    StateDelta.type delta = StateDelta.ADD_OUT_EDGE ∨
    StateDelta.type delta = StateDelta.ADD_IN_EDGE →
    update acc db = Thrown e db' →
    throws t acc delta db e db'
| throws_RemoveEdge :
    StateDelta.type delta = StateDelta.REMOVE_EDGE →
    dba_RemoveEdge t acc db = Thrown e db' →
    throws t acc delta db e db'
| throws_RemoveOutEdge :
    StateDelta.type delta = StateDelta.REMOVE_OUT_EDGE →
    RemoveOutEdge acc (StateDelta.edge_address delta) db = Thrown e db' →
    throws t acc delta db e db'
| throws_RemoveInEdge :
    StateDelta.type delta = StateDelta.REMOVE_IN_EDGE →
    RemoveInEdge acc (StateDelta.edge_address delta) db = Thrown e db' →
    throws t acc delta db e db'.

(** The call into the storage engine that [Apply] makes for [delta]
    completes and leaves [db']. *)
Inductive completes (t : tx.transaction_id_t) (acc : RecordAccessor)
    (delta : StateDelta.t) (db : Db) (db' : Db) : Prop :=
| completes_RemoveVertex :
    StateDelta.type delta = StateDelta.REMOVE_VERTEX →
    dba_RemoveVertex t acc (StateDelta.check_empty delta) db
      = Completed true db' →
    completes t acc delta db db'
| completes_PropsSet :
    StateDelta.type delta = StateDelta.SET_PROPERTY_VERTEX ∨
    StateDelta.type delta = StateDelta.SET_PROPERTY_EDGE →
    PropsSet acc (StateDelta.property delta) (StateDelta.value delta) db
      = Completed () db' →
    completes t acc delta db db'
| completes_add_label :
    StateDelta.type delta = StateDelta.ADD_LABEL →
    add_label acc (StateDelta.label delta) db = Completed () db' →
    completes t acc delta db db'
| completes_remove_label :
    StateDelta.type delta = StateDelta.REMOVE_LABEL →
    remove_label acc (StateDelta.label delta) db = Completed () db' →
    completes t acc delta db db'
| completes_AddOutEdge db1 :
    StateDelta.type delta = StateDelta.ADD_OUT_EDGE →
    update acc db = Completed () db1 →
    db' = out_emplace acc
            (LocalizedAddressIfPossible db1
               (StateDelta.vertex_to_address delta))
            (LocalizedAddressIfPossible db1 (StateDelta.edge_address delta))
            (StateDelta.edge_type delta) db1 →
    completes t acc delta db db'
| completes_AddInEdge db1 :
    StateDelta.type delta = StateDelta.ADD_IN_EDGE →
    update acc db = Completed () db1 →
    db' = in_emplace acc
            (LocalizedAddressIfPossible db1
               (StateDelta.vertex_from_address delta))
            (LocalizedAddressIfPossible db1 (StateDelta.edge_address delta))
            (StateDelta.edge_type delta) db1 →
    completes t acc delta db db'
| completes_RemoveEdge :
    StateDelta.type delta = StateDelta.REMOVE_EDGE →
    dba_RemoveEdge t acc db = Completed () db' →
    completes t acc delta db db'
| completes_RemoveOutEdge :
    StateDelta.type delta = StateDelta.REMOVE_OUT_EDGE →
    RemoveOutEdge acc (StateDelta.edge_address delta) db
      = Completed () db' →
    completes t acc delta db db'
| completes_RemoveInEdge :
    StateDelta.type delta = StateDelta.REMOVE_IN_EDGE →
    RemoveInEdge acc (StateDelta.edge_address delta) db
      = Completed () db' →
    completes t acc delta db db'.

(** ** Applying the deltas in turn, in the words of the specification *)

(** The queue [q] of one record is applied through the accessor [acc],
    oldest delta first, from the state [s]: the deltas [applied] were
    applied to completion, in this order, and [out] is how the run
    ended, with [Continue] when the whole queue was applied and
    otherwise with what the first delta that did not complete gave. *)
Inductive queue_applied (t : tx.transaction_id_t) (acc : RecordAccessor)
    : list StateDelta.t → Db * Wal → list StateDelta.t →
      Flow (Db * Wal) → Prop :=
| queue_applied_all s : queue_applied t acc [] s [] (Continue s)
| queue_applied_next delta q s s1 applied out :
    apply_delta t acc delta s = Continue s1 →
    queue_applied t acc q s1 applied out →
    queue_applied t acc (delta :: q) s (delta :: applied) out
| queue_applied_stop delta q s out :
    apply_delta t acc delta s = out →
    (∀ s1, out ≠ Continue s1) →
    queue_applied t acc (delta :: q) s [] out.

(** The records [kvs] are taken one after the other: the accessor of a
    record is reconstructed in the state in which the record's turn
    comes and its whole queue is applied before the next record's.  The
    first delta that does not complete ends the run. *)
Inductive records_applied (t : tx.transaction_id_t)
    : list (gid.Gid * (RecordAccessor * list StateDelta.t)) → Db * Wal →
      list StateDelta.t → Flow (Db * Wal) → Prop :=
| records_applied_all s : records_applied t [] s [] (Continue s)
| records_applied_next kv kvs s s1 applied1 applied2 out :
    queue_applied t (Reconstruct kv.2.1 s.1) kv.2.2 s applied1
      (Continue s1) →
    records_applied t kvs s1 applied2 out →
    records_applied t (kv :: kvs) s (applied1 ++ applied2) out
| records_applied_stop kv kvs s applied out :
    queue_applied t (Reconstruct kv.2.1 s.1) kv.2.2 s applied out →
    (∀ s1, out ≠ Continue s1) →
    records_applied t (kv :: kvs) s applied out.

(** What the caller is told of a run: [DONE] when every delta was
    applied, the result of the delta that stopped the run otherwise;
    [LOG(FATAL)] ends the process. *)
Definition reported (out : Flow (Db * Wal))
    : Outcome (UpdateResult * (Db * Wal)) :=
  match out with
  | Continue s' => Returns (DONE, s')
  | Return r s' => Returns (r, s')
  | Abort => Fatal
  end.

(** What the lambda [apply] of [UpdatesRpcServer::Apply] returns for one
    of the two maps, the buffer iterated in the order [kvs]: [DONE] when
    the transaction has nothing buffered there or every buffered delta
    was applied to completion, otherwise the result of the first delta
    that was not. *)
Definition phase_result (tx_id : tx.transaction_id_t)
    (collection : gmap tx.transaction_id_t TransactionUpdates)
    (kvs : list (gid.Gid * (RecordAccessor * list StateDelta.t)))
    (s : Db * Wal) (r : UpdateResult) (s' : Db * Wal) : Prop :=
  match collection !! tx_id with
  | None => r = DONE ∧ s' = s
  | Some u =>
    (r = DONE ∧
     records_applied (db_accessor_ u) kvs s (visit_order kvs)
       (Continue s')) ∨
    (r ≠ DONE ∧
     ∃ applied delta rest,
       visit_order kvs = applied ++ delta :: rest ∧
       records_applied (db_accessor_ u) kvs s applied (Return r s'))
  end.

(** The first result of a list that is not [DONE], if any. *)
Fixpoint first_not_done (rs : list UpdateResult) : UpdateResult :=
  match rs with
  | [] => DONE
  | DONE :: rs' => first_not_done rs'
  | r :: _ => r
  end.

End Coordinator.

(** ** What the statements assume of the storage engine *)

(** Modelled from the spec: the payload of a vertex (its labels, its
    properties, whether it has incident edges) and the write ownership of
    a record, as sections 3 and 4.2 of the spec describe them.  The
    storage engine itself is not among the sources. *)
Class GraphDbView (Db RecordAccessor : Type) := {
  labels_of : Db → RecordAccessor → gset storage.Label;
  properties_of : Db → RecordAccessor → gmap storage.Property PropertyValue;
  has_edges : Db → RecordAccessor → bool;
  written_by : tx.transaction_id_t → Db → RecordAccessor → Prop
}.

(** Modelled from the spec: what the operations of the absent storage
    engine do to that payload.  A vertex is inserted empty and owned by
    the inserting transaction; the owner adds labels and sets properties
    without conflict; removal with [check_empty] refuses a vertex that
    still has edges. *)
Class GraphDbLaws (Db RecordAccessor : Type)
    `{!GraphDbAccessor Db RecordAccessor, !GraphDbView Db RecordAccessor}
    : Prop := {
  InsertVertex_spec t db :
    written_by t (InsertVertex t db).2 (InsertVertex t db).1 ∧
    labels_of (InsertVertex t db).2 (InsertVertex t db).1 = ∅ ∧
    properties_of (InsertVertex t db).2 (InsertVertex t db).1 = ∅;
  add_label_spec t db acc l :
    written_by t db acc →
    ∃ db', add_label acc l db = Completed () db' ∧
           written_by t db' acc ∧
           labels_of db' acc = {[l]} ∪ labels_of db acc ∧
           properties_of db' acc = properties_of db acc;
  PropsSet_spec t db acc p v :
    written_by t db acc →
    ∃ db', PropsSet acc p v db = Completed () db' ∧
           written_by t db' acc ∧
           labels_of db' acc = labels_of db acc ∧
           properties_of db' acc = <[p := v]> (properties_of db acc);
  RemoveVertex_spec t db acc :
    has_edges db acc = true →
    ∃ db', dba_RemoveVertex t acc true db = Completed false db'
}.

(** ** A reference storage engine *)

(** Modelled from the spec: the storage engine (sections 3 and 4.2) is not
    among the sources.  This is the smallest engine with the behaviour the
    coordinator can observe: records keyed by [Gid] that carry the vertex
    payload of the spec, one writer per record, and the three ways in
    which a write is refused.  The statements about the coordinator hold
    for every engine; this one serves to run them on concrete inputs. *)
Module Reference.

#[global] Instance Address_eq_dec : EqDecision storage.Address.
Proof. solve_decision. Defined.

(** Modelled from the spec: where a record stands with respect to
    writers (4.2, [Update]):
    nobody writes it, a transaction holds its lock, a committed writer
    superseded the visible version, or the record is deleted. *)
Inductive Standing :=
| Unclaimed
| HeldBy (t : tx.transaction_id_t)
| Superseded
| Deleted.

Definition EdgeEntry : Type :=
  storage.Address * storage.Address * storage.EdgeType.

Record Payload := mkPayload {
  labels : gset storage.Label;
  properties : gmap storage.Property PropertyValue;
  out_ : list EdgeEntry;
  in_ : list EdgeEntry;
  standing : Standing
}.

Record Db := mkDb {
  worker : Z;
  next_gid : gid.Gid;
  records : gmap gid.Gid Payload
}.

Record Accessor := mkAccessor {
  a_gid : gid.Gid;
  a_tx : tx.transaction_id_t
}.

Definition blank_payload (t : tx.transaction_id_t) : Payload :=
  mkPayload ∅ ∅ [] [] (HeldBy t).

Definition claim (t : tx.transaction_id_t) (r : Payload) : Payload :=
  mkPayload (labels r) (properties r) (out_ r) (in_ r) (HeldBy t).

Definition put (g : gid.Gid) (r : Payload) (db : Db) : Db :=
  mkDb (worker db) (next_gid db) (<[g := r]> (records db)).

(** Modelled from the spec: 4.2, [Update].  A lock held by another
    transaction gives [LockTimeout], a superseded version
    [SerializationError], a deleted record [RecordDeleted]; otherwise the
    writer takes the record and changes its payload. *)
Definition write (acc : Accessor) (f : Payload → Payload) (db : Db)
    : Attempt Db unit :=
  match records db !! a_gid acc with
  | None => Thrown RecordDeletedError db
  | Some r =>
    match standing r with
    | Unclaimed => Completed () (put (a_gid acc) (claim (a_tx acc) (f r)) db)
    | HeldBy t' =>
      if (t' =? a_tx acc)%N
      then Completed () (put (a_gid acc) (claim (a_tx acc) (f r)) db)
      else Thrown LockTimeoutException db
    | Superseded => Thrown SerializationError db
    | Deleted => Thrown RecordDeletedError db
    end
  end.

Definition insert_record (t : tx.transaction_id_t) (db : Db)
    : Accessor * Db :=
  (mkAccessor (next_gid db) t,
   mkDb (worker db) (next_gid db + 1)%N
     (<[next_gid db := blank_payload t]> (records db))).

Definition with_labels (f : gset storage.Label → gset storage.Label)
    (r : Payload) : Payload :=
  mkPayload (f (labels r)) (properties r) (out_ r) (in_ r) (standing r).

Definition with_properties
    (f : gmap storage.Property PropertyValue →
         gmap storage.Property PropertyValue)
    (r : Payload) : Payload :=
  mkPayload (labels r) (f (properties r)) (out_ r) (in_ r) (standing r).

Definition with_out (f : list EdgeEntry → list EdgeEntry) (r : Payload)
    : Payload :=
  mkPayload (labels r) (properties r) (f (out_ r)) (in_ r) (standing r).

Definition with_in (f : list EdgeEntry → list EdgeEntry) (r : Payload)
    : Payload :=
  mkPayload (labels r) (properties r) (out_ r) (f (in_ r)) (standing r).

Definition expire (r : Payload) : Payload :=
  mkPayload (labels r) (properties r) (out_ r) (in_ r) Deleted.

Definition amend (acc : Accessor) (f : Payload → Payload) (db : Db) : Db :=
  match records db !! a_gid acc with
  | None => db
  | Some r => put (a_gid acc) (f r) db
  end.

Definition degree (db : Db) (acc : Accessor) : nat :=
  match records db !! a_gid acc with
  | None => 0
  | Some r => length (out_ r) + length (in_ r)
  end.

(** Modelled from the spec: 4.7 and 7.  Removal with [check_empty]
    refuses a vertex that still has edges; otherwise it is a write that
    leaves a tombstone. *)
Definition remove_vertex (acc : Accessor) (check : bool) (db : Db)
    : Attempt Db bool :=
  if check && negb (degree db acc =? 0) then Completed false db
  else
    match write acc id db with
    | Completed _ db' => Completed true (amend acc expire db')
    | Thrown e db' => Thrown e db'
    end.

Definition remove_edge (acc : Accessor) (db : Db) : Attempt Db unit :=
  match write acc id db with
  | Completed _ db' => Completed () (amend acc expire db')
  | Thrown e db' => Thrown e db'
  end.

Definition other_edge (edge : storage.Address) (entry : EdgeEntry) : bool :=
  negb (bool_decide (entry.1.2 = edge)).

#[global] Instance accessor : GraphDbAccessor Db Accessor := {|
  WorkerId := worker;
  LocalizedAddressIfPossible := λ _ a, a;
  InsertVertex := insert_record;
  InsertOnlyEdge := λ t _ _ _, insert_record t;
  FindVertex := λ t g _, mkAccessor g t;
  FindEdge := λ t g _, mkAccessor g t;
  accessor_gid := a_gid;
  Reconstruct := λ acc _, acc;
  dba_RemoveVertex := λ _, remove_vertex;
  dba_RemoveEdge := λ _, remove_edge;
  PropsSet := λ acc p v, write acc (with_properties (insert p v));
  add_label := λ acc l, write acc (with_labels (union {[l]}));
  remove_label := λ acc l, write acc (with_labels (λ ls, ls ∖ {[l]}));
  update := λ acc, write acc id;
  out_emplace := λ acc a b ty,
    amend acc (with_out (λ es, es ++ [(a, b, ty)]));
  in_emplace := λ acc a b ty,
    amend acc (with_in (λ es, es ++ [(a, b, ty)]));
  RemoveOutEdge := λ acc e,
    write acc (with_out (List.filter (other_edge e)));
  RemoveInEdge := λ acc e,
    write acc (with_in (List.filter (other_edge e)))
|}.

#[global] Instance view : GraphDbView Db Accessor := {|
  labels_of := λ db acc,
    match records db !! a_gid acc with Some r => labels r | None => ∅ end;
  properties_of := λ db acc,
    match records db !! a_gid acc with Some r => properties r | None => ∅ end;
  has_edges := λ db acc, negb (degree db acc =? 0);
  written_by := λ t db acc,
    a_tx acc = t ∧
    ∃ r, records db !! a_gid acc = Some r ∧ standing r = HeldBy t
|}.

(** Worker 1 with three vertices: vertex 10 carries one outgoing edge,
    vertex 11 is locked by transaction 2, vertex 12 was superseded by a
    committed writer. *)
Definition sample_db : Db :=
  mkDb 1%Z 100%N
    (<[10%N := mkPayload ∅ ∅
                 [(storage.mkAddress 11%N 1%Z, storage.mkAddress 50%N 1%Z,
                   3%N)]
                 [] Unclaimed]>
     (<[11%N := mkPayload ∅ ∅ [] [] (HeldBy 2%N)]>
      (<[12%N := mkPayload ∅ ∅ [] [] Superseded]> ∅))).

Definition empty_server (db : Db) : @UpdatesRpcServer Db Accessor :=
  mkUpdatesRpcServer db [] ∅ ∅.

End Reference.

(** ** Sample requests for the reference engine *)
Module Scenario.
Import Reference.

(** Transaction 5 asks worker 1 to remove vertex 10, which still has an
    edge, only if it is empty. *)
Definition removal_pending : @UpdatesRpcServer Db Accessor :=
  (RemoveVertexRpc (RemoveVertexReqData.mk 10%N 5%N true)
     (empty_server sample_db)).2.

(** Three property updates arrive for vertices 10, 11 and 10 again. *)
Definition set_property (vertex : gid.Gid) (i : Z) : StateDelta.t :=
  StateDelta.mk StateDelta.SET_PROPERTY_VERTEX 5%N vertex 0%N
    StateDelta.no_address StateDelta.no_address StateDelta.no_address 0%N
    4%N (PVInt i) 0%N false.


Definition fresh_updates : @TransactionUpdates Accessor :=
  mkTransactionUpdates 5%N ∅.

Definition local_edge : CreateEdgeReqData.t :=
  CreateEdgeReqData.mk 10%N (storage.mkAddress 11%N 1%Z) 3%N 5%N.

Definition labelled_vertex : CreateVertexReqData.t :=
  CreateVertexReqData.mk 5%N [7%N; 8%N] {[3%N := PVInt 1]}.

Definition edge_removal : RemoveEdgeData.t :=
  RemoveEdgeData.mk 5%N 50%N 10%N (storage.mkAddress 11%N 1%Z).



End Scenario.

(** ** The planner's cost arithmetic *)

(** Modelled from the spec: [query/plan/cost_estimator.hpp] is not among
    the sources, only its tests are.  Section 4.4 of the spec gives the
    rule (each operator contributes a cost and a cardinality multiplier,
    the visitor walks from the leaves up, the constants are strictly
    positive and the cardinality multiplier of a filter is below one) and
    the tests fix the order of the two updates per operator.  Costs are
    rationals here; the source computes in [double]. *)
Module CostEstimator.
Import QArith.
Local Open Scope Q_scope.

Module CostParam.
Record t := mk {
  kScanAll : Q;
  kScanAllByLabel : Q;
  kExpand : Q;
  kExpandVariable : Q;
  kExpandBreadthFirst : Q;
  kFilter : Q;
  kExpandUniquenessFilter : Q;
  kUnwind : Q
}.
End CostParam.

Module CardParam.
Record t := mk {
  kExpand : Q;
  kExpandVariable : Q;
  kExpandBreadthFirst : Q;
  kFilter : Q;
  kExpandUniquenessFilter : Q
}.
End CardParam.

Module MiscParam.
Record t := mk {
  kUnwindNoLiteral : Q
}.
End MiscParam.

Record Params := mkParams {
  cost_param : CostParam.t;
  card_param : CardParam.t;
  misc_param : MiscParam.t
}.

(** Modelled from the spec: the conditions of section 4.4 on the
    constants. *)
Definition admissible (p : Params) : Prop :=
  0 < CostParam.kScanAll (cost_param p) ∧
  0 < CostParam.kScanAllByLabel (cost_param p) ∧
  0 < CostParam.kExpand (cost_param p) ∧
  0 < CostParam.kExpandVariable (cost_param p) ∧
  0 < CostParam.kExpandBreadthFirst (cost_param p) ∧
  0 < CostParam.kFilter (cost_param p) ∧
  0 < CostParam.kExpandUniquenessFilter (cost_param p) ∧
  0 < CostParam.kUnwind (cost_param p) ∧
  0 < CardParam.kExpand (card_param p) ∧
  0 < CardParam.kExpandVariable (card_param p) ∧
  0 < CardParam.kExpandBreadthFirst (card_param p) ∧
  0 < CardParam.kFilter (card_param p) ∧
  CardParam.kFilter (card_param p) < 1 ∧
  0 < CardParam.kExpandUniquenessFilter (card_param p) ∧
  0 < MiscParam.kUnwindNoLiteral (misc_param p).

(** Modelled from the spec: the operators of a pipeline above [Once]
    (the table of section 4.4).  A scan carries the count the index
    statistics report for it, an [Unwind] the size of its list literal if
    it has one. *)
Inductive LogicalOperator :=
| ScanAll (vertices : N)
| ScanAllByLabel (vertices : N)
| Expand
| ExpandVariable
| ExpandBreadthFirst
| Filter
| ExpandUniquenessFilter
| Unwind (literal_size : option N).

(** Modelled from the spec: the estimator's two counters; [Once] leaves
    them at 0 and 1 (the tests expect cost 0 of [Once] and the bare
    constant of a first filter). *)
Record Estimate := mkEstimate {
  cost : Q;
  cardinality : Q
}.

Definition Once : Estimate := mkEstimate 0 1.

Definition IncrementCost (param : Q) (e : Estimate) : Estimate :=
  mkEstimate (cost e + cardinality e * param) (cardinality e).

Definition MultiplyCardinality (factor : Q) (e : Estimate) : Estimate :=
  mkEstimate (cost e) (cardinality e * factor).

Definition count (n : N) : Q := inject_Z (Z.of_N n).

(** Modelled from the spec: one visit.  Scans and expansions scale the
    cardinality and then charge for the rows they emit; filters and
    [Unwind] charge for the rows they receive and then scale the
    cardinality (the tests' [TEST_OP]). *)
Definition PostVisit (p : Params) (op : LogicalOperator) (e : Estimate)
    : Estimate :=
  match op with
  | ScanAll n =>
    IncrementCost (CostParam.kScanAll (cost_param p))
      (MultiplyCardinality (count n) e)
  | ScanAllByLabel n =>
    IncrementCost (CostParam.kScanAllByLabel (cost_param p))
      (MultiplyCardinality (count n) e)
  | Expand =>
    IncrementCost (CostParam.kExpand (cost_param p))
      (MultiplyCardinality (CardParam.kExpand (card_param p)) e)
  | ExpandVariable =>
    IncrementCost (CostParam.kExpandVariable (cost_param p))
      (MultiplyCardinality (CardParam.kExpandVariable (card_param p)) e)
  | ExpandBreadthFirst =>
    IncrementCost (CostParam.kExpandBreadthFirst (cost_param p))
      (MultiplyCardinality (CardParam.kExpandBreadthFirst (card_param p)) e)
  | Filter =>
    MultiplyCardinality (CardParam.kFilter (card_param p))
      (IncrementCost (CostParam.kFilter (cost_param p)) e)
  | ExpandUniquenessFilter =>
    MultiplyCardinality (CardParam.kExpandUniquenessFilter (card_param p))
      (IncrementCost (CostParam.kExpandUniquenessFilter (cost_param p)) e)
  | Unwind (Some k) =>
    MultiplyCardinality (count k)
      (IncrementCost (CostParam.kUnwind (cost_param p)) e)
  | Unwind None =>
    MultiplyCardinality (MiscParam.kUnwindNoLiteral (misc_param p))
      (IncrementCost (CostParam.kUnwind (cost_param p)) e)
  end.

(** Modelled from the spec: the visitor over a pipeline, leaf first,
    started at [e]. *)
Definition visit (p : Params) (plan : list LogicalOperator) (e : Estimate)
    : Estimate :=
  fold_left (λ e' op, PostVisit p op e') plan e.

(** The estimate of the pipeline that has [plan] above [Once]. *)
Definition estimate (p : Params) (plan : list LogicalOperator) : Estimate :=
  visit p plan Once.

(** Constants that meet the spec's conditions. *)
Definition sample_params : Params :=
  mkParams
    (CostParam.mk 1 (11 # 10) 2 3 5 (3 # 2) (3 # 2) (13 # 10))
    (CardParam.mk 3 (95 # 10) 25 (1 # 4) (95 # 100))
    (MiscParam.mk 10).

End CostEstimator.

(** ** What the handlers keep in the buffers *)
Section CoordinatorInvariants.
Context {Db RecordAccessor : Type} `{!GraphDbAccessor Db RecordAccessor}.

(** The delta types that the handlers file in the vertex updates and in
    the edge updates. *)
Definition buffered_type (kind : RecordKind) (ty : StateDelta.Type_) : bool :=
  match kind, ty with
  | OfVertex, (StateDelta.SET_PROPERTY_VERTEX | StateDelta.ADD_LABEL
               | StateDelta.REMOVE_LABEL | StateDelta.ADD_OUT_EDGE
               | StateDelta.ADD_IN_EDGE | StateDelta.REMOVE_VERTEX
               | StateDelta.REMOVE_OUT_EDGE | StateDelta.REMOVE_IN_EDGE) =>
    true
  | OfEdge, (StateDelta.SET_PROPERTY_EDGE | StateDelta.REMOVE_EDGE) => true
  | _, _ => false
  end.

(** A delta queued for record [g] in the updates of transaction [tx_id]
    is a delta of that transaction, for that record, of a type meant for
    that kind of record. *)
Definition in_place (kind : RecordKind) (tx_id : tx.transaction_id_t)
    (g : gid.Gid) (delta : StateDelta.t) : Prop :=
  StateDelta.transaction_id delta = tx_id ∧
  record_of kind delta = g ∧
  buffered_type kind (StateDelta.type delta) = true.

Definition orderly (kind : RecordKind)
    (updates : gmap tx.transaction_id_t (@TransactionUpdates RecordAccessor))
    : Prop :=
  ∀ t u g delta,
    updates !! t = Some u → delta ∈ queue_of u g → in_place kind t g delta.

Definition tidy (s : @UpdatesRpcServer Db RecordAccessor) : Prop :=
  orderly OfVertex (vertex_updates_ s) ∧ orderly OfEdge (edge_updates_ s).

(** Whether a request is an [UpdateApply]. *)
Definition is_apply (req : Request) : bool :=
  match req with
  | OnUpdateApply _ => true
  | _ => false
  end.

(** Whether a request reaches the storage engine: [UpdateApply] and the
    two creations do, the buffering requests and the eviction do not. *)
Definition reaches_storage (req : Request) : bool :=
  match req with
  | OnUpdateApply _ | OnCreateVertex _ | OnCreateEdge _ => true
  | _ => false
  end.

(** What a handler that buffers the single delta [delta] for the vertex
    [g] leaves: [DONE], the delta at the back of that vertex's queue in
    the transaction's vertex updates, and everything else as it was. *)
Definition buffers_one (tx_id : tx.transaction_id_t) (g : gid.Gid)
    (delta : StateDelta.t) (s : @UpdatesRpcServer Db RecordAccessor)
    (answer : UpdateResult * @UpdatesRpcServer Db RecordAccessor) : Prop :=
  answer.1 = DONE ∧
  queue_of (GetUpdates (vertex_updates_ answer.2) tx_id) g
    = queue_of (GetUpdates (vertex_updates_ s) tx_id) g ++ [delta] ∧
  (∀ g', g' ≠ g →
     queue_of (GetUpdates (vertex_updates_ answer.2) tx_id) g'
     = queue_of (GetUpdates (vertex_updates_ s) tx_id) g') ∧
  (∀ t, t ≠ tx_id →
     vertex_updates_ answer.2 !! t = vertex_updates_ s !! t) ∧
  edge_updates_ answer.2 = edge_updates_ s ∧
  db_ answer.2 = db_ s ∧
  wal_ answer.2 = wal_ s.

End CoordinatorInvariants.

(** ** The RPC system's registry of servers *)

(** [communication::rpc::System] and the part of [Server] it touches, from
    the second half of [updates_rpc_server.cpp].  A server is an object
    at an address; the registry maps service names to addresses, and
    each server owns a queue of tasks.  Every member function runs under
    [mutex_] and is one step here. *)
Module rpc.

(** What [AddTask] puts on a queue: the socket, the message id and the
    message, by identity. *)
Record Task := mkTask {
  socket : N;
  message_id : N;
  message : N
}.

(** A reference to a [Server]: where it lives and what
    [service_name()] returns. *)
Record Server := mkServer {
  address : N;
  service_name : string
}.

Record System := mkSystem {
  services_ : gmap string N;
  queue_ : gmap N (list Task)
}.

(** The tasks that [queue_.Emplace] was called with on the queue of the
    server at [server], in the order of the calls. *)
Definition emplaced (server : N) (sys : System) : list Task :=
  match queue_ sys !! server with
  | Some tasks => tasks
  | None => []
  end.

(** [queue_.Emplace] on the server at [server]. *)
Definition enqueue (server : N) (task : Task) (sys : System) : System :=
  mkSystem (services_ sys)
    (<[server := emplaced server sys ++ [task]]> (queue_ sys)).

Definition AddTask (socket : N) (service : string) (message_id : N)
    (message : N) (sys : System) : System :=
  match services_ sys !! service with
  | None => sys
  | Some it => enqueue it (mkTask socket message_id message) sys
  end.

(** One call of [AddTask], as the network layer makes them. *)
Record Call := mkCall {
  call_socket : N;
  call_service : string;
  call_message_id : N;
  call_message : N
}.

Definition task_of (call : Call) : Task :=
  mkTask (call_socket call) (call_message_id call) (call_message call).

Definition AddTasks (calls : list Call) (sys : System) : System :=
  foldl (λ sys call,
           AddTask (call_socket call) (call_service call)
             (call_message_id call) (call_message call) sys)
    sys calls.

(** The calls among [calls] whose service name the registry of [sys]
    resolves to the server at [server]. *)
Definition addressed_to (server : N) (sys : System) (calls : list Call)
    : list Call :=
  filter (λ call, services_ sys !! call_service call = Some server) calls.

(** [Add]: the [CHECK] ends the process when the name is taken. *)
Definition Add (server : Server) (sys : System) : Outcome System :=
  match services_ sys !! service_name server with
  | Some _ => Fatal
  | None =>
    Returns (mkSystem (<[service_name server := address server]>
                         (services_ sys))
               (queue_ sys))
  end.

(** [Remove]: the [CHECK] ends the process when the name is unknown. *)
Definition Remove (server : Server) (sys : System) : Outcome System :=
  match services_ sys !! service_name server with
  | None => Fatal
  | Some _ =>
    Returns (mkSystem (delete (service_name server) (services_ sys))
               (queue_ sys))
  end.

End rpc.

(** ** FakeDbAccessor *)

(** [query::plan::FakeDbAccessor] of [tests/unit/query_plan_checker.hpp]:
    the stand-in for the database that the planner tests feed with index
    statistics and names. *)
Module FakeDbAccessor.

Definition IndexEntry : Type := storage.Label * storage.Property * Z.

Record t := mk {
  labels_ : gmap string storage.Label;
  edge_types_ : gmap string storage.EdgeType;
  properties_ : gmap string storage.Property;
  label_index_ : gmap storage.Label Z;
  label_property_index_ : list IndexEntry
}.

(** A freshly constructed accessor. *)
Definition fresh : t := mk ∅ ∅ ∅ ∅ [].

Definition is_index (label : storage.Label) (property : storage.Property)
    (index : IndexEntry) : bool :=
  (index.1.1 =? label)%N && (index.1.2 =? property)%N.

(** [VerticesCount(label)] *)
Definition VerticesCount (label : storage.Label) (d : t) : Z :=
  match label_index_ d !! label with
  | Some found => found
  | None => 0%Z
  end.

(** The loop of [VerticesCount(label, property)]. *)
Fixpoint count_of (label : storage.Label) (property : storage.Property)
    (indices : list IndexEntry) : Z :=
  match indices with
  | [] => 0%Z
  | index :: rest =>
    if is_index label property index then index.2
    else count_of label property rest
  end.

Definition VerticesCountProperty (label : storage.Label)
    (property : storage.Property) (d : t) : Z :=
  count_of label property (label_property_index_ d).

(** The loop of [LabelPropertyIndexExists]. *)
Fixpoint has_index (label : storage.Label) (property : storage.Property)
    (indices : list IndexEntry) : bool :=
  match indices with
  | [] => false
  | index :: rest =>
    if is_index label property index then true
    else has_index label property rest
  end.

Definition LabelPropertyIndexExists (label : storage.Label)
    (property : storage.Property) (d : t) : bool :=
  has_index label property (label_property_index_ d).

(** [SetIndexCount(label, count)] *)
Definition SetIndexCount (label : storage.Label) (count : Z) (d : t) : t :=
  mk (labels_ d) (edge_types_ d) (properties_ d)
     (<[label := count]> (label_index_ d)) (label_property_index_ d).

(** The loop of [SetIndexCount(label, property, count)] and the
    [emplace_back] after it. *)
Fixpoint set_count (label : storage.Label) (property : storage.Property)
    (count : Z) (indices : list IndexEntry) : list IndexEntry :=
  match indices with
  | [] => [(label, property, count)]
  | index :: rest =>
    if is_index label property index then (index.1.1, index.1.2, count) :: rest
    else index :: set_count label property count rest
  end.

Definition SetIndexCountProperty (label : storage.Label)
    (property : storage.Property) (count : Z) (d : t) : t :=
  mk (labels_ d) (edge_types_ d) (properties_ d) (label_index_ d)
     (set_count label property count (label_property_index_ d)).

(** The body shared by [Label], [EdgeType] and [Property]: the id the
    name already has, or the current size of the map as its new id. *)
Definition intern (name : string) (ids : gmap string N)
    : N * gmap string N :=
  match ids !! name with
  | Some found => (found, ids)
  | None => (N.of_nat (size ids), <[name := N.of_nat (size ids)]> ids)
  end.

Definition Label (name : string) (d : t) : storage.Label * t :=
  ((intern name (labels_ d)).1,
   mk (intern name (labels_ d)).2 (edge_types_ d) (properties_ d)
      (label_index_ d) (label_property_index_ d)).

Definition EdgeType (name : string) (d : t) : storage.EdgeType * t :=
  ((intern name (edge_types_ d)).1,
   mk (labels_ d) (intern name (edge_types_ d)).2 (properties_ d)
      (label_index_ d) (label_property_index_ d)).

Definition Property (name : string) (d : t) : storage.Property * t :=
  ((intern name (properties_ d)).1,
   mk (labels_ d) (edge_types_ d) (intern name (properties_ d)).2
      (label_index_ d) (label_property_index_ d)).

(** The loop of [PropertyName]; [None] stands for its [LOG(FATAL)]. *)
Fixpoint name_of (property : storage.Property)
    (kvs : list (string * storage.Property)) : option string :=
  match kvs with
  | [] => None
  | kv :: rest =>
    if (kv.2 =? property)%N then Some kv.1 else name_of property rest
  end.

Definition PropertyName (property : storage.Property) (d : t)
    : option string :=
  name_of property (map_to_list (properties_ d)).

(** The ids of a name table are below its size and no two names share
    one: what the three interning functions keep. *)
Definition interned (ids : gmap string N) : Prop :=
  (∀ name id, ids !! name = Some id → (id < N.of_nat (size ids))%N) ∧
  (∀ name1 name2 id,
     ids !! name1 = Some id → ids !! name2 = Some id → name1 = name2).

Definition consistent (d : t) : Prop :=
  interned (labels_ d) ∧ interned (edge_types_ d) ∧ interned (properties_ d).

(** The keys of the label-property index. *)
Definition index_keys (indices : list IndexEntry)
    : list (storage.Label * storage.Property) :=
  indices.*1.

End FakeDbAccessor.

(** [NamesToProperties] and [NamesToLabels] of [query/context.hpp].  The
    accessor class is not among the sources; its member functions
    [Property] and [Label], which turn a name into an id and may record
    the name in the accessor, are parameters. *)
Section NamesToIds.
Context {Dba : Type}.
Variable Property : string → Dba → storage.Property * Dba.
Variable Label : string → Dba → storage.Label * Dba.

(** What the callers rely on in [Property] and [Label]: the accessor
    holds a table of names, seen through [table]; a call leaves the name
    in the table with the id it returned, and no call changes the id of
    a name that is in the table. *)
Definition registers (table : Dba → gmap string N)
    (id_of : string → Dba → N * Dba) : Prop :=
  (∀ name dba, table (id_of name dba).2 !! name = Some (id_of name dba).1) ∧
  (∀ name dba name' id,
     table dba !! name' = Some id →
     table (id_of name dba).2 !! name' = Some id).

Fixpoint NamesToProperties (property_names : list string) (dba : Dba)
    : list storage.Property * Dba :=
  match property_names with
  | [] => ([], dba)
  | name :: rest =>
    let '(property, dba1) := Property name dba in
    let '(properties, dba2) := NamesToProperties rest dba1 in
    (property :: properties, dba2)
  end.

Fixpoint NamesToLabels (label_names : list string) (dba : Dba)
    : list storage.Label * Dba :=
  match label_names with
  | [] => ([], dba)
  | name :: rest =>
    let '(label, dba1) := Label name dba in
    let '(labels, dba2) := NamesToLabels rest dba1 in
    (label :: labels, dba2)
  end.

End NamesToIds.

(** ** Xorshift128plus *)

(** [utils/random/xorshift128plus.hpp].  A [uint64_t] is an integer in
    [0, 2^64); multiplication, addition and left shift wrap around. *)
Module Xorshift128plus.
Local Open Scope Z_scope.

Definition wrap (x : Z) : Z := x mod 2 ^ 64.

Definition is_uint64 (x : Z) : Prop := 0 ≤ x < 2 ^ 64.

(** The member [s], two words. *)
Record t := mk { s_0 : Z; s_1 : Z }.

Definition well_formed (g : t) : Prop := is_uint64 (s_0 g) ∧ is_uint64 (s_1 g).

(** [avalance]: the MurmurHash3 finalizer. *)
Definition avalance (s : Z) : Z :=
  let s := Z.lxor s (Z.shiftr s 33) in
  let s := wrap (s * 0xff51afd7ed558ccd) in
  let s := Z.lxor s (Z.shiftr s 33) in
  let s := wrap (s * 0xc4ceb9fe1a85ec53) in
  Z.lxor s (Z.shiftr s 33).

(** The constructor, given the two numbers drawn from the Mersenne
    twister. *)
Definition seeded (draw0 draw1 : Z) : t := mk (avalance draw0) (avalance draw1).

(** [operator()]: the number returned and the state left. *)
Definition next (g : t) : Z * t :=
  let s1 := s_0 g in
  let s0 := s_1 g in
  let s1 := Z.lxor s1 (wrap (Z.shiftl s1 23)) in
  let s_1' :=
    Z.lxor (Z.lxor (Z.lxor s1 s0) (Z.shiftr s1 17)) (Z.shiftr s0 26) in
  (wrap (s_1' + s0), mk s0 s_1').

(** The state after [n] calls of [operator()]. *)
Fixpoint advance (n : nat) (g : t) : t :=
  match n with
  | O => g
  | S n' => advance n' (next g).2
  end.

(** The numbers returned by the first [n] calls of [operator()]. *)
Fixpoint draw (n : nat) (g : t) : list Z :=
  match n with
  | O => []
  | S n' => (next g).1 :: draw n' (next g).2
  end.

Definition stuck : t := mk 0 0.

End Xorshift128plus.

(** * Theorems *)

(** ** One delta *)
Section CoordinatorFacts.
Context {Db RecordAccessor : Type} `{!GraphDbAccessor Db RecordAccessor}.
Implicit Types (u : @TransactionUpdates RecordAccessor).
Implicit Types (s : @UpdatesRpcServer Db RecordAccessor).
Implicit Types (delta : StateDelta.t) (acc : RecordAccessor).
Implicit Types
  (updates : gmap tx.transaction_id_t (@TransactionUpdates RecordAccessor)).

Ltac by_type delta :=
  unfold apply_delta, attempt, StateDelta.applicable, StateDelta.structural;
  destruct (StateDelta.type delta) eqn:?.

Ltac split_calls :=
  repeat match goal with
  | |- context [match ?c with Completed _ _ => _ | Thrown _ _ => _ end] =>
    destruct c as [[] ?|? ?] eqn:?
  end.

Lemma attempt_not_DONE wal (a : Attempt Db unit) st' :
  attempt wal a ≠ Return DONE st'.
Proof. destruct a as [?|e ?]; simpl; [done|]. by destruct e. Qed.

(** A delta that makes [Apply] return does so with an error. *)
Lemma apply_delta_Return_not_DONE t acc delta st r st' :
  apply_delta t acc delta st = Return r st' → r ≠ DONE.
Proof.
  destruct st as [db wal]. intros H ->. revert H.
  by_type delta; try done; try apply attempt_not_DONE; split_calls;
    try done; intros [= ? ?]; by destruct e.
Qed.

(** [LOG(FATAL)] is reached for the six inapplicable tags only. *)
Lemma apply_delta_Abort t acc delta st :
  apply_delta t acc delta st = Abort ↔ StateDelta.applicable delta = false.
Proof.
  destruct st as [db wal].
  by_type delta; split_calls; try done;
    repeat match goal with
    | |- context [match ?c with Completed _ _ => _ | Thrown _ _ => _ end] =>
      destruct c as [? ?|? ?]
    end; done.
Qed.

(** What one application does to the log. *)
Lemma apply_delta_wal_Continue t acc delta db wal st' :
  apply_delta t acc delta (db, wal) = Continue st' →
  st'.2 = if StateDelta.structural delta then wal ++ [delta] else wal.
Proof.
  by_type delta; split_calls; try done; by intros [= <-].
Qed.

Lemma apply_delta_wal_Return t acc delta db wal r st' :
  apply_delta t acc delta (db, wal) = Return r st' → st'.2 = wal.
Proof.
  by_type delta; split_calls; try done; by intros [= <- <-].
Qed.

(** The exceptions of the storage engine become results. *)
Lemma apply_delta_throws t acc delta db wal e db' :
  throws t acc delta db e db' →
  apply_delta t acc delta (db, wal) = Return (caught e) (db', wal).
Proof.
  unfold apply_delta, attempt.
  intros [Ht Hc|[Ht|Ht] Hc|Ht Hc|Ht Hc|[Ht|Ht] Hc|Ht Hc|Ht Hc|Ht Hc];
    rewrite Ht, Hc; done.
Qed.

Lemma apply_delta_unable t acc delta db wal db' :
  StateDelta.type delta = StateDelta.REMOVE_VERTEX →
  dba_RemoveVertex t acc (StateDelta.check_empty delta) db
    = Completed false db' →
  apply_delta t acc delta (db, wal)
  = Return UNABLE_TO_DELETE_VERTEX_ERROR (db', wal).
Proof. unfold apply_delta. by intros -> ->. Qed.

(** Conversely, an error result has one of these two origins. *)
Lemma apply_delta_Return_inv t acc delta db wal r st' :
  apply_delta t acc delta (db, wal) = Return r st' →
  (∃ e db', throws t acc delta db e db' ∧ r = caught e ∧ st' = (db', wal)) ∨
  (r = UNABLE_TO_DELETE_VERTEX_ERROR ∧
   StateDelta.type delta = StateDelta.REMOVE_VERTEX ∧
   ∃ db', dba_RemoveVertex t acc (StateDelta.check_empty delta) db
          = Completed false db' ∧ st' = (db', wal)).
Proof.
  by_type delta; try done; split_calls; try done; intros [= <- <-];
    first
      [ right; by eauto
      | left; eexists _, _; split; [|done];
        first [ by eapply throws_RemoveVertex
              | eapply throws_PropsSet; by eauto
              | by eapply throws_add_label
              | by eapply throws_remove_label
              | eapply throws_update; by eauto
              | by eapply throws_RemoveEdge
              | by eapply throws_RemoveOutEdge
              | by eapply throws_RemoveInEdge ] ].
Qed.

#[local] Arguments apply_delta : simpl never.

(** ** The runs of the specification and the two loops *)

Lemma apply_delta_completes t acc delta db wal db' :
  completes t acc delta db db' →
  apply_delta t acc delta (db, wal)
  = Continue (db', wal ++ if StateDelta.structural delta then [delta] else []).
Proof.
  unfold apply_delta, attempt, StateDelta.structural.
  intros [Ht Hc|[Ht|Ht] Hc|Ht Hc|Ht Hc|db1 Ht Hc ->|db1 Ht Hc ->
          |Ht Hc|Ht Hc|Ht Hc];
    rewrite Ht, Hc; by rewrite ?app_nil_r.
Qed.

Lemma queue_applied_run t acc q st :
  ∃ applied,
    queue_applied t acc q st applied (for_each_delta (apply_delta t) acc q st).
Proof.
  revert st. induction q as [|d q IH]; intros st; cbn [for_each_delta].
  - eexists. constructor.
  - destruct (apply_delta t acc d st) as [st1|r st1|] eqn:Hd.
    + destruct (IH st1) as [applied Hrun]. exists (d :: applied).
      by eapply queue_applied_next.
    + exists []. by apply queue_applied_stop.
    + exists []. by apply queue_applied_stop.
Qed.

Lemma queue_applied_fun t acc q st applied out :
  queue_applied t acc q st applied out →
  for_each_delta (apply_delta t) acc q st = out.
Proof.
  induction 1 as [st|d q st st1 applied out Hd _ IH|d q st out Hd Hstop];
    cbn [for_each_delta].
  - done.
  - by rewrite Hd.
  - rewrite Hd. destruct out as [st1| |]; [by destruct (Hstop st1)|done..].
Qed.

Lemma records_applied_run t kvs st :
  ∃ applied, records_applied t kvs st applied (apply_records t kvs st).
Proof.
  unfold apply_records. revert st.
  induction kvs as [|kv kvs IH]; intros st; cbn [for_each_record].
  - eexists. constructor.
  - destruct (queue_applied_run t (reconstruct kv.2.1 st) kv.2.2 st)
      as [applied1 Hq]. unfold reconstruct in Hq at 1.
    destruct (for_each_delta _ _ _ st) as [st1|r st1|] eqn:Hd.
    + destruct (IH st1) as [applied2 Hrun]. exists (applied1 ++ applied2).
      by eapply records_applied_next.
    + exists applied1. by apply records_applied_stop.
    + exists applied1. by apply records_applied_stop.
Qed.

Lemma records_applied_fun t kvs st applied out :
  records_applied t kvs st applied out → apply_records t kvs st = out.
Proof.
  unfold apply_records.
  induction 1 as [st|kv kvs st st1 applied1 applied2 out Hq _ IH
                  |kv kvs st applied out Hq Hstop];
    cbn [for_each_record].
  - done.
  - apply queue_applied_fun in Hq. unfold reconstruct at 1. by rewrite Hq.
  - apply queue_applied_fun in Hq. unfold reconstruct at 1. rewrite Hq.
    destruct out as [st1| |]; [by destruct (Hstop st1)|done..].
Qed.

(** A run applies the deltas in the order of the loops and leaves none
    out before it ends. *)
Lemma queue_applied_prefix t acc q st applied out :
  queue_applied t acc q st applied out →
  match out with
  | Continue _ => applied = q
  | _ => ∃ delta rest, q = applied ++ delta :: rest
  end.
Proof.
  induction 1 as [st|d q st st1 applied out Hd _ IH|d q st out Hd Hstop].
  - done.
  - destruct out as [st2| |]; [by rewrite IH|..];
      destruct IH as (delta & rest & ->); by exists delta, rest.
  - destruct out as [st1| |]; [by destruct (Hstop st1)|..];
      by exists d, q.
Qed.

Lemma records_applied_prefix t kvs st applied out :
  records_applied t kvs st applied out →
  match out with
  | Continue _ => applied = visit_order kvs
  | _ => ∃ delta rest, visit_order kvs = applied ++ delta :: rest
  end.
Proof.
  unfold visit_order.
  induction 1 as [st|kv kvs st st1 applied1 applied2 out Hq _ IH
                  |kv kvs st applied out Hq Hstop]; cbn [flat_map].
  - done.
  - apply queue_applied_prefix in Hq as ->.
    destruct out as [st2| |]; [by rewrite IH|..];
      destruct IH as (delta & rest & ->); exists delta, rest;
      by rewrite app_assoc.
  - apply queue_applied_prefix in Hq.
    destruct out as [st1| |]; [by destruct (Hstop st1)|..];
      destruct Hq as (delta & rest & ->);
      exists delta, (rest ++ flat_map (λ kv0, kv0.2.2) kvs);
      by rewrite <-app_assoc.
Qed.

(** What a run hands to the log: the structural deltas among those it
    applied to completion. *)
Lemma queue_applied_wal t acc q st applied out :
  queue_applied t acc q st applied out →
  match out with
  | Continue st' | Return _ st' =>
    st'.2 = st.2 ++ List.filter StateDelta.structural applied
  | Abort => True
  end.
Proof.
  induction 1 as [st|d q st st1 applied out Hd _ IH|d q st out Hd Hstop].
  - simpl. by rewrite app_nil_r.
  - destruct st as [db wal]. apply apply_delta_wal_Continue in Hd.
    cbn [snd List.filter] in *.
    destruct out as [st2|r st2|]; [| |done]; rewrite IH, Hd;
      destruct (StateDelta.structural d); by rewrite <-?app_assoc.
  - destruct st as [db wal].
    destruct out as [st1|r st1|]; [by destruct (Hstop st1)| |done].
    apply apply_delta_wal_Return in Hd as ->. simpl. by rewrite app_nil_r.
Qed.

Lemma records_applied_wal t kvs st applied out :
  records_applied t kvs st applied out →
  match out with
  | Continue st' | Return _ st' =>
    st'.2 = st.2 ++ List.filter StateDelta.structural applied
  | Abort => True
  end.
Proof.
  induction 1 as [st|kv kvs st st1 applied1 applied2 out Hq _ IH
                  |kv kvs st applied out Hq Hstop].
  - simpl. by rewrite app_nil_r.
  - apply queue_applied_wal in Hq. cbn beta iota in Hq.
    destruct out as [st2|r st2|]; [| |done];
      by rewrite IH, Hq, List.filter_app, app_assoc.
  - by apply queue_applied_wal in Hq.
Qed.

Lemma queue_applied_not_DONE t acc q st applied r st' :
  queue_applied t acc q st applied (Return r st') → r ≠ DONE.
Proof.
  intros Hrun. remember (Return r st') as out eqn:Hout.
  induction Hrun as [st|d q st st1 applied out Hd _ IH|d q st out Hd Hstop].
  - done.
  - by apply IH.
  - subst out. by eapply apply_delta_Return_not_DONE.
Qed.

Lemma records_applied_not_DONE t kvs st applied r st' :
  records_applied t kvs st applied (Return r st') → r ≠ DONE.
Proof.
  intros Hrun. remember (Return r st') as out eqn:Hout.
  induction Hrun as [st|kv kvs st st1 applied1 applied2 out Hq _ IH
                     |kv kvs st applied out Hq Hstop].
  - done.
  - by apply IH.
  - subst out. by eapply queue_applied_not_DONE.
Qed.

(** A run ends in [LOG(FATAL)] only at a delta of an inapplicable type. *)
Lemma queue_applied_Abort t acc q st applied :
  queue_applied t acc q st applied Abort →
  ∃ delta, delta ∈ q ∧ StateDelta.applicable delta = false.
Proof.
  intros Hrun. remember Abort as out eqn:Hout.
  induction Hrun as [st|d q st st1 applied out Hd _ IH|d q st out Hd Hstop].
  - done.
  - destruct (IH Hout) as (delta & ? & ?). exists delta.
    split; [by right|done].
  - subst out. apply apply_delta_Abort in Hd. exists d.
    split; [by left|done].
Qed.

Lemma records_applied_Abort t kvs st applied :
  records_applied t kvs st applied Abort →
  ∃ kv delta, kv ∈ kvs ∧ delta ∈ kv.2.2 ∧
              StateDelta.applicable delta = false.
Proof.
  intros Hrun. remember Abort as out eqn:Hout.
  induction Hrun as [st|kv kvs st st1 applied1 applied2 out Hq _ IH
                     |kv kvs st applied out Hq Hstop].
  - done.
  - destruct (IH Hout) as (kv' & delta & ? & ? & ?). exists kv', delta.
    split; [by right|done].
  - subst out. apply queue_applied_Abort in Hq as (delta & ? & ?).
    exists kv, delta. split; [by left|done].
Qed.

(** ** TransactionUpdates::Apply *)

Lemma TxApply_in_reported kvs u st :
  TxApply_in kvs u st = reported (apply_records (db_accessor_ u) kvs st).
Proof. done. Qed.

Lemma iteration_order_applicable u kvs :
  all_applicable u = true → iteration_order u kvs →
  ∀ kv delta, kv ∈ kvs → delta ∈ kv.2.2 →
              StateDelta.applicable delta = true.
Proof.
  unfold all_applicable, iteration_order. intros Hok Hperm kv delta Hkv Hd.
  rewrite forallb_forall in Hok. rewrite Hperm in Hkv.
  apply list_elem_of_In, Hok in Hkv. rewrite forallb_forall in Hkv.
  by apply list_elem_of_In, Hkv in Hd.
Qed.

Lemma TxApply_in_total kvs u st :
  all_applicable u = true → iteration_order u kvs →
  ∃ r st', TxApply_in kvs u st = Returns (r, st').
Proof.
  intros Hok Hperm. rewrite TxApply_in_reported.
  destruct (records_applied_run (db_accessor_ u) kvs st) as [applied Hrun].
  destruct (apply_records _ kvs st) as [st1|r1 st1|]; [simpl; eauto..|].
  apply records_applied_Abort in Hrun as (kv & delta & Hkv & Hd & Hno).
  by rewrite (iteration_order_applicable u kvs Hok Hperm kv delta) in Hno.
Qed.

Lemma iteration_order_listed u : iteration_order u (map_to_list (deltas_ u)).
Proof. unfold iteration_order. reflexivity. Qed.

(** The answer of [Apply] and the run behind it. *)
Lemma TxApply_in_Returns kvs u st r st' :
  TxApply_in kvs u st = Returns (r, st') →
  ∃ applied,
    records_applied (db_accessor_ u) kvs st applied
      (if bool_decide (r = DONE) then Continue st' else Return r st') ∧
    (∃ rest, visit_order kvs = applied ++ rest ∧ (r = DONE → rest = [])) ∧
    st'.2 = st.2 ++ List.filter StateDelta.structural applied.
Proof.
  rewrite TxApply_in_reported.
  destruct (records_applied_run (db_accessor_ u) kvs st) as [applied Hrun].
  pose proof (records_applied_prefix _ _ _ _ _ Hrun) as Hprefix.
  pose proof (records_applied_wal _ _ _ _ _ Hrun) as Hwal.
  destruct (apply_records _ kvs st) as [st1|r1 st1|] eqn:Hout; [| |done];
    intros [= <- <-]; exists applied.
  - rewrite bool_decide_eq_true_2 by done. split_and!; [done| |done].
    exists []. by rewrite app_nil_r.
  - pose proof (records_applied_not_DONE _ _ _ _ _ _ Hrun) as Hr.
    rewrite bool_decide_eq_false_2 by done. split_and!; [done| |done].
    destruct Hprefix as (delta & rest & ->). by exists (delta :: rest).
Qed.

(** ** UpdatesRpcServer::Apply *)

Lemma iterates_listed tx_id updates : iterates tx_id updates (listed tx_id updates).
Proof.
  unfold iterates, listed.
  destruct (updates !! tx_id); [apply iteration_order_listed|done].
Qed.

Lemma apply_collection_in_Returns kvs tx_id updates st :
  from_option all_applicable true (updates !! tx_id) = true →
  iterates tx_id updates kvs →
  ∃ r st',
    apply_collection_in kvs tx_id updates st
      = Returns (r, (delete tx_id updates, st')) ∧
    phase_result tx_id updates kvs st r st'.
Proof.
  unfold apply_collection_in, phase_result, iterates.
  destruct (updates !! tx_id) as [u|] eqn:Hu; simpl.
  - intros Hok Hperm.
    destruct (TxApply_in_total kvs u st Hok Hperm) as (r & st' & Hr).
    rewrite Hr. simpl. exists r, st'. split; [done|].
    rewrite TxApply_in_reported in Hr.
    destruct (records_applied_run (db_accessor_ u) kvs st)
      as [applied Hrun].
    pose proof (records_applied_prefix _ _ _ _ _ Hrun) as Hprefix.
    destruct (apply_records _ kvs st) as [st1|r1 st1|] eqn:Hout; [| |done];
      injection Hr as <- <-.
    + left. by subst applied.
    + right. split; [by eapply records_applied_not_DONE|].
      destruct Hprefix as (delta & rest & Hprefix). by exists applied, delta, rest.
  - intros _ _. exists DONE, st. by rewrite delete_id.
Qed.

Lemma apply_collection_in_inv kvs tx_id updates st r updates' st' :
  apply_collection_in kvs tx_id updates st = Returns (r, (updates', st')) →
  updates' = delete tx_id updates ∧
  (updates !! tx_id = None → r = DONE ∧ st' = st).
Proof.
  unfold apply_collection_in.
  destruct (updates !! tx_id) as [u|] eqn:Hu.
  - destruct (TxApply_in kvs u st) as [[r0 st0]| |]; simpl; [|done..].
    intros [= <- <- <-]. done.
  - intros [= <- <- <-]. by rewrite delete_id.
Qed.

Lemma first_not_done_pair (vertex_result edge_result : UpdateResult) :
  (if bool_decide (vertex_result ≠ DONE) then vertex_result
   else if bool_decide (edge_result ≠ DONE) then edge_result else DONE)
  = first_not_done [vertex_result; edge_result].
Proof. by destruct vertex_result, edge_result. Qed.

Lemma Apply_in_phases vertex_order edge_order tx_id s :
  applicable_for tx_id s = true →
  iterates tx_id (vertex_updates_ s) vertex_order →
  iterates tx_id (edge_updates_ s) edge_order →
  ∃ vertex_result edge_result st1 st2,
    phase_result tx_id (vertex_updates_ s) vertex_order (db_ s, wal_ s)
      vertex_result st1 ∧
    phase_result tx_id (edge_updates_ s) edge_order st1 edge_result st2 ∧
    Apply_in vertex_order edge_order tx_id s
    = Returns (first_not_done [vertex_result; edge_result],
               mkUpdatesRpcServer st2.1 st2.2
                 (delete tx_id (vertex_updates_ s))
                 (delete tx_id (edge_updates_ s))).
Proof.
  unfold applicable_for, Apply_in. intros [Hv He]%andb_prop Hvo Heo.
  destruct (apply_collection_in_Returns vertex_order tx_id (vertex_updates_ s)
              (db_ s, wal_ s) Hv Hvo) as (vr & s1 & -> & Hpv).
  destruct (apply_collection_in_Returns edge_order tx_id (edge_updates_ s)
              s1 He Heo) as (er & s2 & Her & Hpe).
  simpl. rewrite Her. simpl. rewrite first_not_done_pair. eauto 10.
Qed.

Lemma Apply_phases tx_id s :
  applicable_for tx_id s = true →
  ∃ vertex_result edge_result st1 st2,
    phase_result tx_id (vertex_updates_ s) (listed tx_id (vertex_updates_ s))
      (db_ s, wal_ s) vertex_result st1 ∧
    phase_result tx_id (edge_updates_ s) (listed tx_id (edge_updates_ s))
      st1 edge_result st2 ∧
    Apply tx_id s
    = Returns (first_not_done [vertex_result; edge_result],
               mkUpdatesRpcServer st2.1 st2.2
                 (delete tx_id (vertex_updates_ s))
                 (delete tx_id (edge_updates_ s))).
Proof.
  intros Hok. apply Apply_in_phases; [done|apply iterates_listed..].
Qed.

Lemma Apply_in_nothing_buffered vertex_order edge_order tx_id s :
  vertex_updates_ s !! tx_id = None →
  edge_updates_ s !! tx_id = None →
  Apply_in vertex_order edge_order tx_id s = Returns (DONE, s).
Proof.
  unfold Apply_in, apply_collection_in. intros -> ->. simpl. by destruct s.
Qed.

Lemma Apply_nothing_buffered tx_id s :
  vertex_updates_ s !! tx_id = None →
  edge_updates_ s !! tx_id = None →
  Apply tx_id s = Returns (DONE, s).
Proof. apply Apply_in_nothing_buffered. Qed.

Lemma Apply_in_updates vertex_order edge_order tx_id s r s' :
  Apply_in vertex_order edge_order tx_id s = Returns (r, s') →
  vertex_updates_ s' = delete tx_id (vertex_updates_ s) ∧
  edge_updates_ s' = delete tx_id (edge_updates_ s).
Proof.
  unfold Apply_in.
  destruct (apply_collection_in vertex_order tx_id (vertex_updates_ s) _)
    as [[vr [vu st1]]| |] eqn:Hv; [|done..].
  apply apply_collection_in_inv in Hv as [-> _]. cbn [obind].
  destruct (apply_collection_in edge_order tx_id (edge_updates_ s) _)
    as [[er [eu st2]]| |] eqn:He; [|done..].
  apply apply_collection_in_inv in He as [-> _]. cbn [obind].
  by intros [= <- <-].
Qed.

(** ** ClearTransactionalCache *)

Lemma clear_older_walk oldest_active
    (kvs : list (tx.transaction_id_t * @TransactionUpdates RecordAccessor))
    (m : gmap tx.transaction_id_t (@TransactionUpdates RecordAccessor)) t :
  foldl (λ m' kv, if (kv.1 <? oldest_active)%N then delete kv.1 m' else m')
        m kvs !! t
  = if (t <? oldest_active)%N && bool_decide (t ∈ kvs.*1) then None
    else m !! t.
Proof.
  revert m. induction kvs as [|[k v] kvs IH]; intros m.
  - simpl. by rewrite andb_false_r.
  - rewrite fmap_cons. cbn [foldl fst]. rewrite IH.
    destruct (decide (t = k)) as [->|Hne].
    + rewrite (bool_decide_eq_true_2 (k ∈ k :: kvs.*1)) by left.
      destruct (k <? oldest_active)%N eqn:Hk; simpl.
      * rewrite lookup_delete_eq. by destruct (bool_decide _).
      * done.
    + assert (bool_decide (t ∈ k :: kvs.*1) = bool_decide (t ∈ kvs.*1)) as ->.
      { apply bool_decide_ext. rewrite elem_of_cons. intuition congruence. }
      destruct (_ && _); [done|].
      destruct (k <? oldest_active)%N; [|done]. by rewrite lookup_delete_ne.
Qed.

Lemma clear_older_lookup oldest_active
    (m : gmap tx.transaction_id_t (@TransactionUpdates RecordAccessor)) t :
  clear_older oldest_active m !! t
  = if (t <? oldest_active)%N then None else m !! t.
Proof.
  unfold clear_older. rewrite clear_older_walk.
  destruct (t <? oldest_active)%N; [|done]. simpl.
  case_bool_decide as Hin; [done|].
  destruct (m !! t) as [u|] eqn:Hu; [|done].
  exfalso. apply Hin. apply list_elem_of_fmap. exists (t, u).
  split; [done|]. by apply elem_of_map_to_list.
Qed.

(** ** Emplace *)

Lemma Emplace_DONE kind delta u db : (Emplace kind delta u db).1 = DONE.
Proof. done. Qed.

Lemma Emplace_db_accessor kind delta u db :
  db_accessor_ (Emplace kind delta u db).2 = db_accessor_ u.
Proof. done. Qed.

Lemma Emplace_lookup_ne kind delta u db g :
  g ≠ record_of kind delta →
  deltas_ (Emplace kind delta u db).2 !! g = deltas_ u !! g.
Proof. intros Hne. unfold Emplace. simpl. by rewrite lookup_insert_ne. Qed.

Lemma queue_of_Emplace kind delta u db g :
  queue_of (Emplace kind delta u db).2 g
  = queue_of u g ++
    if bool_decide (g = record_of kind delta) then [delta] else [].
Proof.
  unfold queue_of, Emplace. simpl. case_bool_decide as Hg.
  - subst g. rewrite lookup_insert_eq. simpl.
    by destruct (deltas_ u !! record_of kind delta).
  - rewrite lookup_insert_ne by done. by rewrite app_nil_r.
Qed.


(** The queues of a map hold what [filed_by_record] says. *)
Lemma filed_by_record_spec kind u :
  filed_by_record kind u = true ↔
  ∀ g, Forall (λ d, record_of kind d = g) (queue_of u g).
Proof.
  unfold filed_by_record, queue_of. rewrite forallb_forall. split.
  - intros H g. destruct (deltas_ u !! g) as [entry|] eqn:Hg; [|done].
    apply elem_of_map_to_list, list_elem_of_In, H in Hg.
    rewrite forallb_forall in Hg. apply Forall_forall.
    intros d Hd%list_elem_of_In. by apply Hg, N.eqb_eq in Hd.
  - intros H [g entry] Hin%list_elem_of_In%elem_of_map_to_list.
    specialize (H g). rewrite Hin in H. simpl.
    apply forallb_forall. intros d Hd%list_elem_of_In.
    apply N.eqb_eq. by eapply Forall_forall in H.
Qed.


(** ** The order of application *)









(** ** The buffering handlers *)

Lemma GetUpdates_set_updates kind tx_id u s :
  GetUpdates (updates_of kind (set_updates kind tx_id u s)) tx_id = u.
Proof.
  unfold GetUpdates. destruct kind; simpl; by rewrite lookup_insert_eq.
Qed.

Lemma updates_of_set_updates_ne kind tx_id u s t :
  t ≠ tx_id →
  updates_of kind (set_updates kind tx_id u s) !! t = updates_of kind s !! t.
Proof. intros. destruct kind; simpl; by rewrite lookup_insert_ne. Qed.

Lemma emplace_in_eq kind tx_id delta s :
  emplace_in kind tx_id delta s
  = (DONE,
     set_updates kind tx_id
       (Emplace kind delta (GetUpdates (updates_of kind s) tx_id) (db_ s)).2
       s).
Proof. done. Qed.

Lemma queue_of_emplace_in kind tx_id delta s g :
  queue_of (GetUpdates (updates_of kind (emplace_in kind tx_id delta s).2)
              tx_id) g
  = queue_of (GetUpdates (updates_of kind s) tx_id) g ++
    if bool_decide (g = record_of kind delta) then [delta] else [].
Proof.
  rewrite emplace_in_eq. cbn [snd].
  by rewrite GetUpdates_set_updates, queue_of_Emplace.
Qed.

Lemma map_emplace_queue (g g' : gid.Gid) (acc : RecordAccessor)
    (m : gmap gid.Gid (RecordAccessor * list StateDelta.t)) :
  from_option snd [] (map_emplace g (acc, []) m !! g')
  = from_option snd [] (m !! g').
Proof.
  unfold map_emplace. destruct (m !! g) as [entry|] eqn:Hg; [done|].
  destruct (decide (g = g')) as [<-|Hne].
  - by rewrite lookup_insert_eq, Hg.
  - by rewrite lookup_insert_ne.
Qed.

Lemma GetUpdates_bound tx_id
    (updates : gmap tx.transaction_id_t (@TransactionUpdates RecordAccessor)) :
  bound_to tx_id updates = true →
  db_accessor_ (GetUpdates updates tx_id) = tx_id.
Proof.
  unfold bound_to, GetUpdates. destruct (updates !! tx_id); simpl; [|done].
  by intros ?%N.eqb_eq.
Qed.

(** What one buffering step leaves behind. *)
Lemma emplace_in_vertex tx_id delta s r s' :
  emplace_in OfVertex tx_id delta s = (r, s') →
  r = DONE ∧ db_ s' = db_ s ∧ wal_ s' = wal_ s ∧
  edge_updates_ s' = edge_updates_ s ∧
  (∀ t, t ≠ tx_id → vertex_updates_ s' !! t = vertex_updates_ s !! t) ∧
  (∀ g, queue_of (GetUpdates (vertex_updates_ s') tx_id) g
        = queue_of (GetUpdates (vertex_updates_ s) tx_id) g ++
          if bool_decide (g = StateDelta.vertex_id delta) then [delta]
          else []).
Proof.
  rewrite emplace_in_eq. intros [= <- <-]. repeat split.
  - intros t Ht. by apply (updates_of_set_updates_ne OfVertex).
  - intros g. apply (queue_of_emplace_in OfVertex).
Qed.

Lemma emplace_in_edge tx_id delta s r s' :
  emplace_in OfEdge tx_id delta s = (r, s') →
  r = DONE ∧ db_ s' = db_ s ∧ wal_ s' = wal_ s ∧
  vertex_updates_ s' = vertex_updates_ s ∧
  (∀ t, t ≠ tx_id → edge_updates_ s' !! t = edge_updates_ s !! t) ∧
  (∀ g, queue_of (GetUpdates (edge_updates_ s') tx_id) g
        = queue_of (GetUpdates (edge_updates_ s) tx_id) g ++
          if bool_decide (g = StateDelta.edge_id delta) then [delta]
          else []).
Proof.
  rewrite emplace_in_eq. intros [= <- <-]. repeat split.
  - intros t Ht. by apply (updates_of_set_updates_ne OfEdge).
  - intros g. apply (queue_of_emplace_in OfEdge).
Qed.

Lemma emplace_with_db emplace kind tx_id delta s :
  db_ (emplace_with emplace kind tx_id delta s).2 = db_ s.
Proof.
  unfold emplace_with. destruct (emplace _ _ _ _) as [r u'].
  by destruct kind.
Qed.

Lemma Zeqb_bool_decide (x y : Z) : (x =? y)%Z = bool_decide (x = y).
Proof.
  case_bool_decide; [by apply Z.eqb_eq|by apply Z.eqb_neq].
Qed.

(** C4.  A [CreateEdge] request handled at worker [W]: the edge is
    inserted in the local storage and registered, with an empty queue, in
    the transaction's edge updates; the result is [DONE] with the edge's
    gid; an [ADD_OUT_EDGE] delta joins the queue of the from-vertex; an
    [ADD_IN_EDGE] delta joins the queue of the to-vertex exactly when the
    worker id of [to] is [W]; nothing else is buffered, the log and the
    other transactions are untouched.  Whatever the buffering step
    returns, the [ADD_IN_EDGE] step is taken only after a [DONE]. *)
Theorem CreateEdgeRpc_buffers (data : CreateEdgeReqData.t) s :
  let tx_id := CreateEdgeReqData.tx_id data in
  let from := CreateEdgeReqData.from data in
  let to := CreateEdgeReqData.to data in
  let edge_type := CreateEdgeReqData.edge_type data in
  let inserted :=
    InsertOnlyEdge tx_id (storage.mkAddress from (WorkerId (db_ s)))
      (LocalizedAddressIfPossible (db_ s) to) edge_type (db_ s) in
  let gid := accessor_gid inserted.1 in
  let W := WorkerId inserted.2 in
  let is_local := bool_decide (storage.worker_id to = W) in
  let out_delta :=
    StateDelta.AddOutEdge tx_id from to (storage.mkAddress gid W) edge_type in
  let in_delta :=
    StateDelta.AddInEdge tx_id (storage.gid to) (storage.mkAddress from W)
      (storage.mkAddress gid W) edge_type in
  let s' := (CreateEdgeRpc data s).2 in
  bound_to tx_id (edge_updates_ s) = true →
  (CreateEdgeRpc data s).1 = mkCreateResult DONE gid ∧
  db_ s' = inserted.2 ∧
  wal_ s' = wal_ s ∧
  deltas_ (GetUpdates (edge_updates_ s') tx_id)
    = map_emplace gid (inserted.1, [])
        (deltas_ (GetUpdates (edge_updates_ s) tx_id)) ∧
  (∀ g, queue_of (GetUpdates (vertex_updates_ s') tx_id) g
        = queue_of (GetUpdates (vertex_updates_ s) tx_id) g ++
          (if bool_decide (g = from) then [out_delta] else []) ++
          (if is_local && bool_decide (g = storage.gid to)
           then [in_delta] else [])) ∧
  (∀ t, t ≠ tx_id →
        vertex_updates_ s' !! t = vertex_updates_ s !! t ∧
        edge_updates_ s' !! t = edge_updates_ s !! t) ∧
  (∀ emplace,
     result (CreateEdge_with emplace data s).1 ≠ DONE ∨ is_local = false →
     CreateEdgeRpc_with emplace data s = CreateEdge_with emplace data s).
Proof.
  intros tx_id from to edge_type inserted gid W is_local out_delta in_delta.
  intros s' Hbound. subst s'.
  unfold CreateEdgeRpc, CreateEdgeRpc_with, CreateEdge_with, TxCreateEdge.
  fold tx_id from to edge_type.
  rewrite (GetUpdates_bound _ _ Hbound). fold inserted.
  destruct inserted as [edge db1] eqn:Hins. cbn [fst snd] in *.
  change (emplace_with Emplace) with emplace_in.
  cbn [db_ set_updates set_db]. fold gid W out_delta.
  match goal with
  | |- context [emplace_in OfVertex tx_id out_delta ?s0] =>
    destruct (emplace_in OfVertex tx_id out_delta s0) as [r1 s1] eqn:H1;
    apply emplace_in_vertex in H1
      as (-> & Hdb1 & Hwal1 & Hedge1 & Hother1 & Hqueue1)
  end.
  cbn [db_ wal_ vertex_updates_ edge_updates_ result created_gid fst snd]
    in *.
  rewrite Hdb1, bool_decide_eq_true_2 by done. fold W gid in_delta.
  rewrite Zeqb_bool_decide. fold is_local. cbn [andb].
  assert (∀ g, (if is_local && bool_decide (g = storage.gid to)
                then [in_delta] else [])
               = if is_local
                 then if bool_decide (g = StateDelta.vertex_id in_delta)
                      then [in_delta] else []
                 else []) as Hin.
  { intros g. by destruct is_local. }
  assert (deltas_ (GetUpdates (edge_updates_ s1) tx_id)
          = map_emplace gid (edge, [])
              (deltas_ (GetUpdates (edge_updates_ s) tx_id))) as Hreg.
  { rewrite Hedge1. unfold GetUpdates at 1. by rewrite lookup_insert_eq. }
  assert (∀ t, t ≠ tx_id → edge_updates_ s1 !! t = edge_updates_ s !! t)
    as Hedge_other.
  { intros t Ht. rewrite Hedge1. by rewrite lookup_insert_ne. }
  split_and!; try (intros g; rewrite Hin); try (intros t Ht; split).
  1-7: destruct is_local;
    [ destruct (emplace_in OfVertex _ _ s1) as [r2 s2] eqn:H2;
      apply emplace_in_vertex in H2
        as (-> & Hdb2 & Hwal2 & Hedge2 & Hother2 & Hqueue2);
      cbn [fst snd result created_gid]
    | cbn [fst snd] ].
  all: try done; try congruence.
  - by rewrite Hwal2.
  - by rewrite Hqueue2, Hqueue1, <-app_assoc.
  - by rewrite Hqueue1, app_nil_r.
  - rewrite Hother2 by done. by apply Hother1.
  - by apply Hother1.
  - rewrite Hedge2. by apply Hedge_other.
  - by apply Hedge_other.
  - intros emplace Hskip.
    destruct (emplace_with emplace _ _ _ _) as [r s2] eqn:Hstep.
    apply (f_equal (λ p, db_ p.2)) in Hstep.
    rewrite emplace_with_db in Hstep. cbn in Hstep. rewrite <-Hstep.
    cbn [result created_gid fst] in *. fold W. rewrite Zeqb_bool_decide.
    fold is_local. destruct Hskip as [Hr| ->].
    + by rewrite bool_decide_eq_false_2.
    + by rewrite andb_false_r.
Qed.

(** C5.  A [RemoveEdge] request handled at worker [W]: a [REMOVE_EDGE]
    delta joins the queue of the edge in the transaction's edge updates,
    then a [REMOVE_OUT_EDGE] delta the queue of the from-vertex, then a
    [REMOVE_IN_EDGE] delta the queue of the to-vertex exactly when the
    worker id of the to-vertex is [W]; the call returns [DONE] and touches
    neither the storage, the log nor other transactions.  Whatever the
    buffering step returns, the handler stops at its first result other
    than [DONE] and returns that result. *)
Theorem RemoveEdge_buffers (data : RemoveEdgeData.t) s :
  let tx_id := RemoveEdgeData.tx_id data in
  let edge_id := RemoveEdgeData.edge_id data in
  let from := RemoveEdgeData.vertex_from_id data in
  let to := RemoveEdgeData.vertex_to_address data in
  let W := WorkerId (db_ s) in
  let is_local := bool_decide (storage.worker_id to = W) in
  let removal := StateDelta.RemoveEdge tx_id edge_id in
  let out_removal :=
    StateDelta.RemoveOutEdge tx_id from (storage.mkAddress edge_id W) in
  let in_removal :=
    StateDelta.RemoveInEdge tx_id (storage.gid to)
      (storage.mkAddress edge_id W) in
  let s' := (RemoveEdge data s).2 in
  (RemoveEdge data s).1 = DONE ∧
  db_ s' = db_ s ∧
  wal_ s' = wal_ s ∧
  (∀ g, queue_of (GetUpdates (edge_updates_ s') tx_id) g
        = queue_of (GetUpdates (edge_updates_ s) tx_id) g ++
          (if bool_decide (g = edge_id) then [removal] else [])) ∧
  (∀ g, queue_of (GetUpdates (vertex_updates_ s') tx_id) g
        = queue_of (GetUpdates (vertex_updates_ s) tx_id) g ++
          (if bool_decide (g = from) then [out_removal] else []) ++
          (if is_local && bool_decide (g = storage.gid to)
           then [in_removal] else [])) ∧
  (∀ t, t ≠ tx_id →
        vertex_updates_ s' !! t = vertex_updates_ s !! t ∧
        edge_updates_ s' !! t = edge_updates_ s !! t) ∧
  (∀ emplace,
     let step1 := emplace_with emplace OfEdge tx_id removal s in
     let step2 := emplace_with emplace OfVertex tx_id out_removal step1.2 in
     let step3 := emplace_with emplace OfVertex tx_id in_removal step2.2 in
     RemoveEdge_with emplace data s
     = if bool_decide (step1.1 ≠ DONE) then step1
       else if bool_decide (step2.1 ≠ DONE) then step2
       else if is_local then step3 else step2).
Proof.
  intros tx_id edge_id from to W is_local removal out_removal in_removal s'.
  assert (∀ g, (if is_local && bool_decide (g = storage.gid to)
                then [in_removal] else [])
               = if is_local
                 then if bool_decide (g = StateDelta.vertex_id in_removal)
                      then [in_removal] else []
                 else []) as Hin.
  { intros g. by destruct is_local. }
  assert (∀ emplace,
     let step1 := emplace_with emplace OfEdge tx_id removal s in
     let step2 := emplace_with emplace OfVertex tx_id out_removal step1.2 in
     let step3 := emplace_with emplace OfVertex tx_id in_removal step2.2 in
     RemoveEdge_with emplace data s
     = if bool_decide (step1.1 ≠ DONE) then step1
       else if bool_decide (step2.1 ≠ DONE) then step2
       else if is_local then step3 else step2) as Hflow.
  { intros emplace step1 step2 step3. unfold RemoveEdge_with.
    fold tx_id edge_id from to removal.
    pose proof (emplace_with_db emplace OfEdge tx_id removal s) as Hdb1.
    pose proof (emplace_with_db emplace OfVertex tx_id out_removal step1.2)
      as Hdb2.
    fold step1 in Hdb1 |- *. fold step2 in Hdb2.
    destruct step1 as [r1 s1] eqn:Hs1. cbn [fst snd] in *.
    rewrite Hdb1. fold W out_removal.
    destruct (decide (r1 = DONE)) as [->|Hr1].
    - rewrite (bool_decide_eq_true_2 (DONE = DONE)) by done.
      rewrite (bool_decide_eq_false_2 (DONE ≠ DONE)) by auto.
      fold step2. destruct step2 as [r2 s2] eqn:Hs2. cbn [fst snd] in *.
      rewrite Hdb2, Hdb1. fold W in_removal. rewrite Zeqb_bool_decide.
      fold is_local.
      destruct (decide (r2 = DONE)) as [->|Hr2].
      + rewrite (bool_decide_eq_true_2 (DONE = DONE)) by done.
        rewrite (bool_decide_eq_false_2 (DONE ≠ DONE)) by auto.
        by destruct is_local.
      + rewrite (bool_decide_eq_false_2 (r2 = DONE)) by done.
        by rewrite (bool_decide_eq_true_2 (r2 ≠ DONE)).
    - rewrite (bool_decide_eq_false_2 (r1 = DONE)) by done.
      rewrite (bool_decide_eq_true_2 (r1 ≠ DONE)) by done.
      by rewrite (bool_decide_eq_false_2 (r1 = DONE)). }
  subst s'. unfold RemoveEdge. rewrite (Hflow Emplace).
  change (emplace_with Emplace) with emplace_in.
  destruct (emplace_in OfEdge tx_id removal s) as [r1 s1] eqn:H1.
  apply emplace_in_edge in H1
    as (-> & Hdb1 & Hwal1 & Hvertex1 & Hother1 & Hqueue1).
  cbn [fst snd].
  destruct (emplace_in OfVertex tx_id out_removal s1) as [r2 s2] eqn:H2.
  apply emplace_in_vertex in H2
    as (-> & Hdb2 & Hwal2 & Hedge2 & Hother2 & Hqueue2).
  cbn [fst snd]. rewrite !bool_decide_eq_false_2 by auto.
  split_and!; try (intros g; rewrite ?Hin); try (intros t Ht; split);
    try exact Hflow.
  all: destruct is_local;
    [ destruct (emplace_in OfVertex tx_id in_removal s2) as [r3 s3] eqn:H3;
      apply emplace_in_vertex in H3
        as (-> & Hdb3 & Hwal3 & Hedge3 & Hother3 & Hqueue3);
      cbn [fst snd]
    | cbn [fst snd] ].
  all: try done; try congruence.
  - by rewrite Hedge3, Hedge2, Hqueue1.
  - by rewrite Hedge2, Hqueue1.
  - by rewrite Hqueue3, Hqueue2, Hvertex1, <-app_assoc.
  - by rewrite Hqueue2, Hvertex1, app_nil_r.
  - intros Ht. split.
    + by rewrite Hother3, Hother2, Hvertex1.
    + by rewrite Hedge3, Hedge2, Hother1.
  - intros Ht. split.
    + by rewrite Hother2, Hvertex1.
    + by rewrite Hedge2, Hother1.
Qed.


(** C3.  [Emplace] appends the delta to the queue of its record, leaves
    every other queue alone and returns [DONE] whatever the state of the
    storage; the [Update] handler either ends in [LOG(FATAL)] (a delta
    type it does not accept) or files the delta in the vertex or edge
    updates of its transaction and returns [DONE] without touching
    storage or log.  A conflict is not seen at that point: when applying
    the delta makes [Apply] return an error [r], emplacing it into an
    empty buffer still returns [DONE] and the following [Apply] returns
    [r]. *)
Theorem Emplace_defers_errors kind delta u db :
  (Emplace kind delta u db).1 = DONE ∧
  queue_of (Emplace kind delta u db).2 (record_of kind delta)
    = queue_of u (record_of kind delta) ++ [delta] ∧
  (∀ g, g ≠ record_of kind delta →
        deltas_ (Emplace kind delta u db).2 !! g = deltas_ u !! g) ∧
  (∀ s,
     match routed_to (StateDelta.type delta) with
     | None => UpdateRpc delta s = Fatal
     | Some to =>
       ∃ s', UpdateRpc delta s = Returns (DONE, s') ∧
             db_ s' = db_ s ∧ wal_ s' = wal_ s ∧
             ∀ g, queue_of (GetUpdates (updates_of to s')
                              (StateDelta.transaction_id delta)) g
                  = queue_of (GetUpdates (updates_of to s)
                                (StateDelta.transaction_id delta)) g ++
                    if bool_decide (g = record_of to delta) then [delta]
                    else []
     end) ∧
  (∀ wal r st',
     deltas_ u = ∅ →
     apply_delta (db_accessor_ u)
       (Reconstruct
          (FindAccessor kind (db_accessor_ u) (record_of kind delta) db) db)
       delta (db, wal) = Return r st' →
     r ≠ DONE ∧
     TxApply (Emplace kind delta u db).2 (db, wal) = Returns (r, st')).
Proof.
  split_and!.
  - done.
  - rewrite queue_of_Emplace. by rewrite bool_decide_eq_true_2.
  - intros g Hg. by apply Emplace_lookup_ne.
  - intros s. unfold UpdateRpc, routed_to.
    destruct (StateDelta.type delta); try done;
      eexists; (split; [by rewrite emplace_in_eq|]);
      (split_and!; [by destruct s..|]); intros g;
      match goal with
      | |- context [updates_of ?k] => apply (queue_of_emplace_in k)
      end.
  - intros wal r st' Hempty Hr. split.
    { by eapply apply_delta_Return_not_DONE. }
    unfold TxApply, TxApply_in, Emplace, apply_records.
    cbn [snd deltas_ db_accessor_].
    rewrite Hempty, lookup_empty. cbn [fst snd].
    rewrite insert_empty, map_to_list_singleton.
    cbn [for_each_record for_each_delta fst snd app].
    unfold reconstruct at 1. cbn [fst]. by rewrite Hr.
Qed.


(** C9.  [ClearTransactionalCache] removes from both maps the entries
    whose transaction id is below [oldest_active] and no other: every
    other entry is found afterwards exactly as it was, and storage and
    log are untouched. *)
Theorem ClearTransactionalCache_removes_older oldest_active s :
  let s' := ClearTransactionalCache oldest_active s in
  (∀ t, vertex_updates_ s' !! t
        = if (t <? oldest_active)%N then None else vertex_updates_ s !! t) ∧
  (∀ t, edge_updates_ s' !! t
        = if (t <? oldest_active)%N then None else edge_updates_ s !! t) ∧
  db_ s' = db_ s ∧
  wal_ s' = wal_ s.
Proof.
  simpl. split_and!; try done; intros t; apply clear_older_lookup.
Qed.

(** C10.  [Apply] drops the transaction's entries from both maps whatever
    result it returns, an [Apply] with nothing buffered returns [DONE]
    and changes nothing, and so does a second [Apply] for the same
    transaction. *)
Theorem Apply_forgets_transaction tx_id s :
  applicable_for tx_id s = true →
  ∃ r s',
    Apply tx_id s = Returns (r, s') ∧
    vertex_updates_ s' = delete tx_id (vertex_updates_ s) ∧
    edge_updates_ s' = delete tx_id (edge_updates_ s) ∧
    vertex_updates_ s' !! tx_id = None ∧
    edge_updates_ s' !! tx_id = None ∧
    Apply tx_id s' = Returns (DONE, s') ∧
    (vertex_updates_ s !! tx_id = None →
     edge_updates_ s !! tx_id = None →
     r = DONE ∧ s' = s).
Proof.
  intros (vr & er & st1 & st2 & _ & _ & Happly)%Apply_phases.
  eexists _, _. split; [exact Happly|]. cbn.
  split_and!; try done; try apply lookup_delete_eq.
  - apply Apply_nothing_buffered; apply lookup_delete_eq.
  - intros Hv He. pose proof (Apply_nothing_buffered _ _ Hv He) as Hnone.
    rewrite Hnone in Happly. by injection Happly as <- <-.
Qed.

(** ** Statements that rest on the storage engine's contract *)
Section StorageContract.
Context `{!GraphDbView Db RecordAccessor, !GraphDbLaws Db RecordAccessor}.

Lemma add_labels_owned t acc labels db :
  written_by t db acc →
  ∃ db', add_labels acc labels db = Completed () db' ∧
         written_by t db' acc ∧
         labels_of db' acc = list_to_set labels ∪ labels_of db acc ∧
         properties_of db' acc = properties_of db acc.
Proof.
  revert db. induction labels as [|l labels IH]; intros db Hown; simpl.
  - exists db. split_and!; try done. by rewrite (left_id_L ∅ (∪)).
  - destruct (add_label_spec t db acc l Hown) as (db1 & -> & Hown1 & Hl & Hp).
    destruct (IH db1 Hown1) as (db' & -> & Hown' & Hl' & Hp').
    exists db'. split_and!; try done; [|congruence].
    rewrite Hl', Hl, (assoc_L (∪)). f_equal. apply (comm_L (∪)).
Qed.

Lemma foldl_insert_NoDup (kvs : list (storage.Property * PropertyValue))
    (m : gmap storage.Property PropertyValue) :
  NoDup kvs.*1 →
  foldl (λ m' kv, <[kv.1 := kv.2]> m') m kvs = list_to_map kvs ∪ m.
Proof.
  revert m. induction kvs as [|[k v] kvs IH]; intros m Hnd.
  - simpl. by rewrite (left_id_L ∅ (∪)).
  - rewrite fmap_cons in Hnd. apply NoDup_cons in Hnd as [Hk Hnd].
    cbn [foldl fst snd list_to_map foldr uncurry]. rewrite IH by done.
    rewrite <-insert_union_l. rewrite insert_union_r; [done|].
    by apply not_elem_of_list_to_map_1.
Qed.

Lemma set_properties_owned t acc kvs db :
  written_by t db acc →
  ∃ db', set_properties acc kvs db = Completed () db' ∧
         written_by t db' acc ∧
         labels_of db' acc = labels_of db acc ∧
         properties_of db' acc
         = foldl (λ m' kv, <[kv.1 := kv.2]> m') (properties_of db acc) kvs.
Proof.
  revert db. induction kvs as [|[k v] kvs IH]; intros db Hown; simpl.
  - by exists db.
  - destruct (PropsSet_spec t db acc k v Hown)
      as (db1 & -> & Hown1 & Hl & Hp).
    destruct (IH db1 Hown1) as (db' & -> & Hown' & Hl' & Hp').
    exists db'. split_and!; try done; congruence.
Qed.

(** C1.  [Apply] runs the vertex updates of the transaction and then,
    from the state they left and whatever they returned, its edge
    updates, each buffer in whichever order its records are met.  Each
    of the two runs applies the deltas in turn, stops at the first delta
    whose application does not complete and yields that delta's result,
    or [DONE] when every delta was applied; the call returns the first
    of the two results that is not [DONE], or [DONE].  [Apply] is the
    call at the two enumerations that [map_to_list] gives.  Applying a
    delta is the storage call of its type: when the call completes the run
    goes on from the state it left, when it throws the delta yields the
    result of the matching [catch] clause, and a [REMOVE_VERTEX] delta
    with [check_empty] set yields [UNABLE_TO_DELETE_VERTEX_ERROR] on a
    vertex that still has edges.  A delta gives no other result: one
    that is not [DONE] comes from a thrown exception or from a
    [RemoveVertex] that refused. *)
Theorem Apply_returns_first_error tx_id s vertex_order edge_order :
  applicable_for tx_id s = true →
  iterates tx_id (vertex_updates_ s) vertex_order →
  iterates tx_id (edge_updates_ s) edge_order →
  (∃ vertex_result edge_result st1 st2,
     phase_result tx_id (vertex_updates_ s) vertex_order (db_ s, wal_ s)
       vertex_result st1 ∧
     phase_result tx_id (edge_updates_ s) edge_order st1 edge_result st2 ∧
     Apply_in vertex_order edge_order tx_id s
     = Returns (first_not_done [vertex_result; edge_result],
                mkUpdatesRpcServer st2.1 st2.2
                  (delete tx_id (vertex_updates_ s))
                  (delete tx_id (edge_updates_ s)))) ∧
  Apply tx_id s
  = Apply_in (listed tx_id (vertex_updates_ s))
      (listed tx_id (edge_updates_ s)) tx_id s ∧
  (caught SerializationError = SERIALIZATION_ERROR ∧
   caught RecordDeletedError = UPDATE_DELETED_ERROR ∧
   caught LockTimeoutException = LOCK_TIMEOUT_ERROR) ∧
  (∀ t acc delta db wal db',
     completes t acc delta db db' →
     ∃ wal', apply_delta t acc delta (db, wal) = Continue (db', wal')) ∧
  (∀ t acc delta db wal e db',
     throws t acc delta db e db' →
     apply_delta t acc delta (db, wal) = Return (caught e) (db', wal)) ∧
  (∀ t acc delta db wal,
     StateDelta.type delta = StateDelta.REMOVE_VERTEX →
     StateDelta.check_empty delta = true →
     has_edges db acc = true →
     ∃ db', apply_delta t acc delta (db, wal)
            = Return UNABLE_TO_DELETE_VERTEX_ERROR (db', wal)) ∧
  (∀ t acc delta db wal r st',
     apply_delta t acc delta (db, wal) = Return r st' →
     (∃ e db', throws t acc delta db e db' ∧ r = caught e ∧
               st' = (db', wal)) ∨
     (r = UNABLE_TO_DELETE_VERTEX_ERROR ∧
      StateDelta.type delta = StateDelta.REMOVE_VERTEX ∧
      ∃ db', dba_RemoveVertex t acc (StateDelta.check_empty delta) db
             = Completed false db' ∧ st' = (db', wal))).
Proof.
  intros Hok Hvo Heo. split_and!; try done.
  - by apply Apply_in_phases.
  - intros t acc delta db wal db' Hc. eexists.
    by apply apply_delta_completes.
  - intros. by apply apply_delta_throws.
  - intros t acc delta db wal Hty Hcheck Hedges.
    destruct (RemoveVertex_spec t db acc Hedges) as [db' Hrm].
    exists db'. apply apply_delta_unable; [done|]. by rewrite Hcheck.
  - intros t acc delta db wal r st'. apply apply_delta_Return_inv.
Qed.

(** C6, as the code has it.  A [CreateVertex] request inserts a vertex
    through the transaction's accessor, gives it exactly the labels and
    properties of the request and returns [DONE] with its gid.  No
    delta is buffered: every queue of the transaction's vertex updates
    is what it was.  The buffer only gains an entry for the new gid, the
    vertex's accessor with an empty queue, unless it has an entry for
    that gid already, which then stays as it is. *)
Theorem CreateVertexRpc_inserts (req : CreateVertexReqData.t) s :
  let tx_id := CreateVertexReqData.tx_id req in
  let vertex := (InsertVertex tx_id (db_ s)).1 in
  bound_to tx_id (vertex_updates_ s) = true →
  ∃ s',
    CreateVertexRpc req s
      = Returns (mkCreateResult DONE (accessor_gid vertex), s') ∧
    labels_of (db_ s') vertex = list_to_set (CreateVertexReqData.labels req) ∧
    properties_of (db_ s') vertex = CreateVertexReqData.properties req ∧
    wal_ s' = wal_ s ∧
    edge_updates_ s' = edge_updates_ s ∧
    (∀ t, t ≠ tx_id → vertex_updates_ s' !! t = vertex_updates_ s !! t) ∧
    deltas_ (GetUpdates (vertex_updates_ s') tx_id)
      = map_emplace (accessor_gid vertex) (vertex, [])
          (deltas_ (GetUpdates (vertex_updates_ s) tx_id)) ∧
    (∀ g, queue_of (GetUpdates (vertex_updates_ s') tx_id) g
          = queue_of (GetUpdates (vertex_updates_ s) tx_id) g).
Proof.
  intros tx_id vertex Hbound. unfold CreateVertexRpc, CreateVertex.
  fold tx_id. rewrite (GetUpdates_bound _ _ Hbound).
  destruct (InsertVertex_spec tx_id (db_ s)) as (Hown & Hl & Hp).
  subst vertex.
  destruct (InsertVertex tx_id (db_ s)) as [vertex db1]. cbn [fst snd] in *.
  destruct (add_labels_owned tx_id vertex (CreateVertexReqData.labels req)
              db1 Hown) as (db2 & -> & Hown2 & Hl2 & Hp2).
  destruct (set_properties_owned tx_id vertex
              (map_to_list (CreateVertexReqData.properties req)) db2 Hown2)
    as (db3 & -> & Hown3 & Hl3 & Hp3).
  cbn [obind]. eexists. split; [done|]. cbn.
  split_and!; try done.
  - rewrite Hl3, Hl2, Hl. by rewrite (right_id_L ∅ (∪)).
  - rewrite Hp3, Hp2, Hp.
    rewrite foldl_insert_NoDup by apply NoDup_fst_map_to_list.
    by rewrite list_to_map_to_list, (right_id_L ∅ (∪)).
  - intros t Ht. by rewrite lookup_insert_ne.
  - unfold GetUpdates at 1. by rewrite lookup_insert_eq.
  - intros g. unfold GetUpdates at 1. rewrite lookup_insert_eq.
    unfold queue_of. cbn [deltas_].
    apply (map_emplace_queue (accessor_gid vertex) g vertex).
Qed.

End StorageContract.

(** ** What every reachable state satisfies *)

#[local] Arguments Emplace : simpl never.
#[local] Arguments emplace_in : simpl never.
#[local] Arguments emplace_with : simpl never.

Lemma all_applicable_spec u :
  all_applicable u = true ↔
  ∀ g, Forall (λ d, StateDelta.applicable d = true) (queue_of u g).
Proof.
  unfold all_applicable, queue_of. rewrite forallb_forall. split.
  - intros H g. destruct (deltas_ u !! g) as [entry|] eqn:Hg; [|done].
    apply elem_of_map_to_list, list_elem_of_In, H in Hg.
    rewrite forallb_forall in Hg. apply Forall_forall.
    intros d Hd%list_elem_of_In. by apply Hg.
  - intros H [g entry] Hin%list_elem_of_In%elem_of_map_to_list.
    specialize (H g). rewrite Hin in H. simpl.
    apply forallb_forall. intros d Hd%list_elem_of_In.
    by eapply Forall_forall in H.
Qed.

Lemma well_kept_GetUpdates updates t :
  well_kept updates →
  db_accessor_ (GetUpdates updates t) = t ∧
  all_applicable (GetUpdates updates t) = true.
Proof.
  intros Hk. unfold GetUpdates.
  destruct (updates !! t) as [u|] eqn:Hu; [by apply Hk|].
  split; [done|]. unfold all_applicable. cbn. by rewrite map_to_list_empty.
Qed.

Lemma well_kept_insert updates t u :
  well_kept updates → db_accessor_ u = t → all_applicable u = true →
  well_kept (<[t := u]> updates).
Proof.
  intros Hk Ht Hu t' u'. destruct (decide (t = t')) as [<-|Hne].
  - rewrite lookup_insert_eq. by intros [= <-].
  - rewrite lookup_insert_ne by done. apply Hk.
Qed.

Lemma well_kept_delete updates t :
  well_kept updates → well_kept (delete t updates).
Proof.
  intros Hk t' u' Hl. apply lookup_delete_Some in Hl as [_ Hl]. by apply Hk.
Qed.

Lemma well_kept_clear_older oldest_active updates :
  well_kept updates → well_kept (clear_older oldest_active updates).
Proof.
  intros Hk t u. rewrite clear_older_lookup.
  destruct (t <? oldest_active)%N; [done|]. apply Hk.
Qed.

Lemma Emplace_applicable kind delta u db :
  StateDelta.applicable delta = true →
  all_applicable u = true →
  all_applicable (Emplace kind delta u db).2 = true.
Proof.
  rewrite !all_applicable_spec. intros Hd Hu g.
  rewrite queue_of_Emplace. apply Forall_app. split; [done|].
  case_bool_decide; [|done]. by apply Forall_singleton.
Qed.

Lemma register_applicable t (acc : RecordAccessor) g u :
  all_applicable u = true →
  all_applicable
    (mkTransactionUpdates t (map_emplace g (acc, []) (deltas_ u))) = true.
Proof.
  rewrite !all_applicable_spec. intros Hu g'. specialize (Hu g').
  change (Forall (λ d, StateDelta.applicable d = true)
            (from_option snd [] (map_emplace g (acc, []) (deltas_ u) !! g'))).
  by rewrite map_emplace_queue.
Qed.

Lemma kept_emplace_in kind tx_id delta s :
  StateDelta.applicable delta = true →
  kept s → kept (emplace_in kind tx_id delta s).2.
Proof.
  intros Hd [Hv He]. rewrite emplace_in_eq. cbn [snd].
  destruct kind; split;
    cbn [set_updates updates_of vertex_updates_ edge_updates_];
    try done; apply well_kept_insert; try done.
  - apply (well_kept_GetUpdates _ tx_id Hv).
  - apply Emplace_applicable; [done|]. apply (well_kept_GetUpdates _ _ Hv).
  - apply (well_kept_GetUpdates _ tx_id He).
  - apply Emplace_applicable; [done|]. apply (well_kept_GetUpdates _ _ He).
Qed.

Lemma kept_after_emplace_in kind tx_id delta s r s' :
  StateDelta.applicable delta = true →
  kept s → emplace_in kind tx_id delta s = (r, s') → kept s'.
Proof.
  intros Hd Hk Heq. change s' with (r, s').2. rewrite <-Heq.
  by apply kept_emplace_in.
Qed.

Lemma kept_CreateEdge req s : kept s → kept (CreateEdge req s).2.
Proof.
  intros [Hv He]. unfold CreateEdge, CreateEdge_with, TxCreateEdge.
  destruct (InsertOnlyEdge _ _ _ _ _) as [edge db1].
  change (emplace_with Emplace) with emplace_in.
  destruct (emplace_in _ _ _ _) as [r s2] eqn:Hs2. cbn [snd].
  eapply kept_after_emplace_in; [| |exact Hs2]; [done|].
  split; [done|]. cbn [set_updates set_db edge_updates_].
  destruct (well_kept_GetUpdates _ (CreateEdgeReqData.tx_id req) He).
  apply well_kept_insert; [done..|]. by apply register_applicable.
Qed.

Lemma kept_Apply_in vertex_order edge_order tx_id s r s' :
  kept s → Apply_in vertex_order edge_order tx_id s = Returns (r, s') →
  kept s'.
Proof.
  intros [Hv He] [Hv' He']%Apply_in_updates. unfold kept.
  rewrite Hv', He'. split; by apply well_kept_delete.
Qed.

Lemma kept_handle req s s' : kept s → handle req s = Returns s' → kept s'.
Proof.
  intros Hk. destruct req as [delta|tx_id|req|req|req|req|req|req|oldest];
    cbn [handle].
  - unfold UpdateRpc.
    destruct (StateDelta.type delta) eqn:Hty; try done; cbn [obind];
      destruct (emplace_in _ _ _ _) as [r s1] eqn:Hs1; intros [= <-];
      (eapply kept_after_emplace_in; [| |exact Hs1]; [|done]);
      unfold StateDelta.applicable; by rewrite Hty.
  - destruct (Apply tx_id s) as [[r s1]| |] eqn:Happly; cbn [obind];
      [|done..].
    intros [= <-]. by eapply kept_Apply_in.
  - unfold CreateVertexRpc.
    destruct (CreateVertex _ _ _ _) as [[[g u'] db']| |] eqn:Hc; [|done..].
    cbn [obind]. intros [= <-]. destruct Hk as [Hv He]. split; [|done].
    cbn [set_updates set_db vertex_updates_].
    unfold CreateVertex in Hc.
    destruct (InsertVertex _ _) as [vertex db1].
    destruct (add_labels _ _ _) as [[] db2|]; [|done].
    destruct (set_properties _ _ _) as [[] db3|]; [|done].
    injection Hc as <- <- <-.
    destruct (well_kept_GetUpdates _ (CreateVertexReqData.tx_id req) Hv).
    apply well_kept_insert; [done..|]. by apply register_applicable.
  - intros Heq. assert (s' = (CreateEdgeRpc req s).2) as -> by congruence.
    clear Heq. apply (kept_CreateEdge req) in Hk.
    unfold CreateEdgeRpc, CreateEdgeRpc_with.
    unfold CreateEdge in Hk.
    destruct (CreateEdge_with Emplace req s) as [cr s1]. cbn [snd] in *.
    destruct (_ && _); [|done].
    change (emplace_with Emplace) with emplace_in.
    destruct (emplace_in _ _ _ s1) as [r s2] eqn:Hs2. cbn [snd].
    by eapply kept_after_emplace_in; [| |exact Hs2].
  - intros Heq. assert (s' = (AddInEdgeRpc req s).2) as -> by congruence.
    by apply kept_emplace_in.
  - intros Heq. assert (s' = (RemoveVertexRpc req s).2) as -> by congruence.
    by apply kept_emplace_in.
  - intros Heq. assert (s' = (RemoveEdgeRpc req s).2) as -> by congruence.
    clear Heq. unfold RemoveEdgeRpc, RemoveEdge, RemoveEdge_with.
    change (emplace_with Emplace) with emplace_in.
    destruct (emplace_in OfEdge _ _ s) as [r1 s1] eqn:Hs1.
    assert (kept s1) as Hk1.
    { by eapply kept_after_emplace_in; [| |exact Hs1]. }
    destruct (bool_decide (r1 = DONE)).
    + destruct (emplace_in OfVertex _ _ s1) as [r2 s2] eqn:Hs2.
      assert (kept s2) as Hk2.
      { by eapply kept_after_emplace_in; [| |exact Hs2]. }
      destruct (_ && _); [|done]. by apply kept_emplace_in.
    + destruct (_ && _); [|done]. by apply kept_emplace_in.
  - intros Heq. assert (s' = (RemoveInEdgeRpc req s).2) as -> by congruence.
    by apply kept_emplace_in.
  - intros [= <-]. destruct Hk. split; by apply well_kept_clear_older.
Qed.

Lemma reachable_kept s : reachable s → kept s.
Proof.
  induction 1 as [db wal|req s s' _ IH Hstep
                  |vertex_order edge_order tx_id s r s' _ IH _ _ Hstep].
  - split; intros t u; cbn; by rewrite lookup_empty.
  - by eapply kept_handle.
  - by eapply kept_Apply_in.
Qed.

(** In a reachable state the side conditions of the statements about
    [Apply] and the creation handlers hold for every transaction. *)
Lemma reachable_conditions s tx_id :
  reachable s →
  applicable_for tx_id s = true ∧
  bound_to tx_id (vertex_updates_ s) = true ∧
  bound_to tx_id (edge_updates_ s) = true.
Proof.
  intros [Hv He]%reachable_kept. unfold applicable_for, bound_to.
  specialize (Hv tx_id). specialize (He tx_id).
  destruct (vertex_updates_ s !! tx_id) as [vu|];
    destruct (edge_updates_ s !! tx_id) as [eu|]; cbn;
    repeat match goal with
    | H : ∀ u, Some ?x = Some u → _ |- _ =>
      destruct (H _ eq_refl) as [-> ->]; clear H
    end; rewrite ?N.eqb_refl; done.
Qed.

End CoordinatorFacts.

(** ** The reference storage engine honours the contract *)
Module ReferenceFacts.
Import Reference.

Lemma write_own t acc f db r :
  a_tx acc = t →
  records db !! a_gid acc = Some r →
  standing r = HeldBy t →
  write acc f db = Completed () (put (a_gid acc) (claim t (f r)) db).
Proof.
  intros <- Hr Hs. unfold write. by rewrite Hr, Hs, N.eqb_refl.
Qed.

#[global] Instance laws : GraphDbLaws Db Accessor.
Proof.
  split.
  - intros t db. cbn. rewrite lookup_insert_eq. split_and!; [done| |done..].
    by exists (blank_payload t).
  - intros t db acc l (Htx & r & Hr & Hs). cbn.
    rewrite (write_own t acc _ db r) by done.
    eexists. split; [done|]. cbn. rewrite !lookup_insert_eq, Hr.
    split_and!; try done. by eexists.
  - intros t db acc p v (Htx & r & Hr & Hs). cbn.
    rewrite (write_own t acc _ db r) by done.
    eexists. split; [done|]. cbn. rewrite !lookup_insert_eq, Hr.
    split_and!; try done. by eexists.
  - intros t db acc Hedges. cbn in *. unfold remove_vertex.
    rewrite Hedges. by exists db.
Qed.

End ReferenceFacts.

(** ** The statements on concrete inputs *)
Module ScenarioFacts.
Import Reference ReferenceFacts Scenario.

Example removal_pending_result :
  match Apply 5%N removal_pending with
  | Returns (r, _) => r = UNABLE_TO_DELETE_VERTEX_ERROR
  | _ => False
  end.
Proof. vm_compute. reflexivity. Qed.

Lemma Apply_returns_first_error_witness :
  applicable_for 5%N removal_pending = true ∧
  iterates 5%N (vertex_updates_ removal_pending)
    (listed 5%N (vertex_updates_ removal_pending)) ∧
  iterates 5%N (edge_updates_ removal_pending)
    (listed 5%N (edge_updates_ removal_pending)) ∧
  ∃ vertex_result edge_result st1 st2,
    phase_result 5%N (vertex_updates_ removal_pending)
      (listed 5%N (vertex_updates_ removal_pending))
      (db_ removal_pending, wal_ removal_pending) vertex_result st1 ∧
    phase_result 5%N (edge_updates_ removal_pending)
      (listed 5%N (edge_updates_ removal_pending)) st1 edge_result st2 ∧
    Apply_in (listed 5%N (vertex_updates_ removal_pending))
      (listed 5%N (edge_updates_ removal_pending)) 5%N removal_pending
    = Returns (first_not_done [vertex_result; edge_result],
               mkUpdatesRpcServer st2.1 st2.2
                 (delete 5%N (vertex_updates_ removal_pending))
                 (delete 5%N (edge_updates_ removal_pending))).
Proof.
  split_and!; [vm_compute; reflexivity|apply iterates_listed..|].
  apply (Apply_returns_first_error 5%N removal_pending
           (listed 5%N (vertex_updates_ removal_pending))
           (listed 5%N (edge_updates_ removal_pending)));
    [vm_compute; reflexivity|apply iterates_listed..].
Defined.


Lemma CreateEdgeRpc_buffers_witness :
  bound_to 5%N (edge_updates_ (empty_server sample_db)) = true ∧
  (CreateEdgeRpc local_edge (empty_server sample_db)).1
  = mkCreateResult DONE 100%N.
Proof.
  split; [vm_compute; reflexivity|].
  destruct (CreateEdgeRpc_buffers local_edge (empty_server sample_db))
    as (Hcreated & _); [vm_compute; reflexivity|].
  exact Hcreated.
Defined.

Lemma CreateVertexRpc_inserts_witness :
  bound_to 5%N (vertex_updates_ (empty_server sample_db)) = true ∧
  ∃ s', CreateVertexRpc labelled_vertex (empty_server sample_db)
        = Returns (mkCreateResult DONE 100%N, s').
Proof.
  split; [vm_compute; reflexivity|].
  destruct (CreateVertexRpc_inserts labelled_vertex (empty_server sample_db))
    as (s' & Hs' & _); [vm_compute; reflexivity|].
  exists s'. exact Hs'.
Defined.

Lemma Apply_forgets_transaction_witness :
  applicable_for 5%N removal_pending = true ∧
  ∃ r s', Apply 5%N removal_pending = Returns (r, s') ∧
          Apply 5%N s' = Returns (DONE, s').
Proof.
  split; [vm_compute; reflexivity|].
  destruct (Apply_forgets_transaction 5%N removal_pending)
    as (r & s' & H1 & _ & _ & _ & _ & H2 & _); [vm_compute; reflexivity|].
  exists r, s'. split; [exact H1|exact H2].
Defined.

(** Vertex 11 is locked by transaction 2: transaction 5 buffers a
    property update for it without hearing of the conflict, and hears of
    it at [Apply]. *)
Lemma Emplace_defers_errors_witness :
  (Emplace OfVertex (set_property 11%N 2) fresh_updates sample_db).1 = DONE ∧
  TxApply (Emplace OfVertex (set_property 11%N 2) fresh_updates sample_db).2
    (sample_db, [])
  = Returns (LOCK_TIMEOUT_ERROR, (sample_db, [])).
Proof.
  destruct (Emplace_defers_errors OfVertex (set_property 11%N 2)
              fresh_updates sample_db) as (Hdone & _ & _ & _ & Hlater).
  split; [exact Hdone|].
  apply (Hlater [] LOCK_TIMEOUT_ERROR (sample_db, [])); reflexivity.
Defined.

Lemma RemoveEdge_buffers_witness :
  (RemoveEdge edge_removal (empty_server sample_db)).1 = DONE ∧
  queue_of
    (GetUpdates
       (vertex_updates_ (RemoveEdge edge_removal (empty_server sample_db)).2)
       5%N) 11%N
  = [StateDelta.RemoveInEdge 5%N 11%N (storage.mkAddress 50%N 1%Z)].
Proof.
  destruct (RemoveEdge_buffers edge_removal (empty_server sample_db))
    as (Hdone & _ & _ & _ & Hqueue & _).
  split; [exact Hdone|]. exact (Hqueue 11%N).
Defined.



(** C6 as the spec words it asks for a buffered delta that stands for
    the new vertex.  There is none: after the request the transaction has
    no delta queued at all. *)
Lemma CreateVertexRpc_buffers_no_delta :
  ¬ ∃ r s' d,
      CreateVertexRpc labelled_vertex (empty_server sample_db)
        = Returns (r, s') ∧
      d ∈ application_order (GetUpdates (vertex_updates_ s') 5%N).
Proof.
  intros (r & s' & d & Hrun & Hd).
  vm_compute in Hrun. injection Hrun as <- <-.
  vm_compute in Hd. inversion Hd.
Qed.

End ScenarioFacts.

(** ** The cost arithmetic *)
Module CostEstimatorFacts.
Import QArith Lqa.
Import CostEstimator.
Local Open Scope Q_scope.

Lemma visit_app p plan1 plan2 e :
  visit p (plan1 ++ plan2) e = visit p plan2 (visit p plan1 e).
Proof. apply fold_left_app. Qed.

(** What an operator charges and by how much it scales the cardinality,
    read off its visit from [Once]. *)
Lemma PostVisit_linear p op e :
  cost (PostVisit p op e)
    == cost e + cardinality e * cost (PostVisit p op Once) ∧
  cardinality (PostVisit p op e)
    == cardinality e * cardinality (PostVisit p op Once).
Proof.
  destruct op as [n|n| | | | | |[k|]]; cbn; split; ring.
Qed.

Lemma visit_linear p plan e :
  cost (visit p plan e)
    == cost e + cardinality e * cost (estimate p plan) ∧
  cardinality (visit p plan e)
    == cardinality e * cardinality (estimate p plan).
Proof.
  unfold estimate. revert e.
  induction plan as [|op plan IH]; intros e.
  - cbn. split; ring.
  - change (visit p (op :: plan) e) with (visit p plan (PostVisit p op e)).
    change (visit p (op :: plan) Once)
      with (visit p plan (PostVisit p op Once)).
    destruct (IH (PostVisit p op e)) as [Hc Hk].
    destruct (IH (PostVisit p op Once)) as [Hc1 Hk1].
    destruct (PostVisit_linear p op e) as [Hoc Hok].
    rewrite Hc, Hk, Hc1, Hk1, Hoc, Hok. split; ring.
Qed.

Lemma count_nonneg n : 0 <= count n.
Proof.
  unfold count. change 0 with (inject_Z 0). rewrite <-Zle_Qle. lia.
Qed.

Lemma cardinality_nonneg p plan :
  admissible p → 0 <= cardinality (estimate p plan).
Proof.
  intros Hp. unfold estimate.
  assert (∀ e, 0 <= cardinality e → 0 <= cardinality (visit p plan e)) as H.
  { induction plan as [|op plan IH]; intros e He; [done|].
    change (visit p (op :: plan) e) with (visit p plan (PostVisit p op e)).
    apply IH. unfold admissible in Hp.
    destruct op as [n|n| | | | | |[k|]]; cbn;
      try (pose proof (count_nonneg n));
      try (pose proof (count_nonneg k));
      apply Qmult_le_0_compat; try done; apply Qlt_le_weak; tauto. }
  apply H. cbn. lra.
Qed.

(** The estimator agrees with the expectations of the tests. *)
Example test_Filter p :
  cost (estimate p [Filter]) == CostParam.kFilter (cost_param p) ∧
  cost (estimate p [Filter; Filter])
    == CostParam.kFilter (cost_param p)
       + CardParam.kFilter (card_param p) * CostParam.kFilter (cost_param p).
Proof. cbn. split; ring. Qed.

Example test_ScanAll p :
  cost (estimate p [ScanAll 100])
    == count 100 * CostParam.kScanAll (cost_param p).
Proof. cbn. ring. Qed.

Example test_Expand p :
  cost (estimate p [Expand])
    == CardParam.kExpand (card_param p) * CostParam.kExpand (cost_param p).
Proof. cbn. ring. Qed.

Example test_UnwindLiteral p :
  cost (estimate p [Unwind (Some 7%N); Unwind (Some 7%N)])
    == CostParam.kUnwind (cost_param p)
       + count 7 * CostParam.kUnwind (cost_param p).
Proof. cbn. ring. Qed.

Lemma sample_params_admissible : admissible sample_params.
Proof. unfold admissible. cbn. repeat split; reflexivity. Qed.

(** C8 as the spec words it fails for a plan that emits no rows: a
    filter above an [Unwind] of the empty list leaves both the
    cardinality and the cost where they were. *)
Lemma Filter_above_empty_Unwind :
  admissible sample_params ∧
  ¬ (cardinality (estimate sample_params ([Unwind (Some 0%N)] ++ [Filter]))
     < cardinality (estimate sample_params [Unwind (Some 0%N)])) ∧
  ¬ (cost (estimate sample_params [Unwind (Some 0%N)])
     < cost (estimate sample_params ([Unwind (Some 0%N)] ++ [Filter]))).
Proof.
  split; [apply sample_params_admissible|].
  split; vm_compute; intros H; discriminate H.
Qed.

(** C8, as the model has it.  The cost of a pipeline is the cost of its
    lower part plus the cardinality of the lower part times the cost of
    its upper part.  With constants that meet the spec's conditions the
    cardinality of a plan is never negative, and a [Filter] above a plan
    that emits rows strictly lowers the cardinality and strictly raises
    the cost. *)
Theorem Filter_on_plan_with_rows p plan1 plan2 plan :
  admissible p →
  cost (estimate p (plan1 ++ plan2))
    == cost (estimate p plan1)
       + cardinality (estimate p plan1) * cost (estimate p plan2) ∧
  0 <= cardinality (estimate p plan) ∧
  (0 < cardinality (estimate p plan) →
   cardinality (estimate p (plan ++ [Filter]))
     < cardinality (estimate p plan) ∧
   cost (estimate p plan) < cost (estimate p (plan ++ [Filter]))).
Proof.
  intros Hp. split; [|split].
  - unfold estimate at 1. rewrite visit_app.
    apply (visit_linear p plan2 (visit p plan1 Once)).
  - by apply cardinality_nonneg.
  - intros Hrows. unfold estimate at 1 4. rewrite visit_app.
    fold (estimate p plan). cbn.
    destruct Hp as (_ & _ & _ & _ & _ & Hcost & _ & _ & _ & _ & _
                    & Hcard & Hbelow & _).
    set (k := cardinality (estimate p plan)) in *.
    set (c := CostParam.kFilter (cost_param p)) in *.
    set (m := CardParam.kFilter (card_param p)) in *.
    split; nra.
Qed.

Lemma Filter_on_plan_with_rows_witness :
  admissible sample_params ∧
  cardinality (estimate sample_params ([ScanAll 100] ++ [Filter]))
    < cardinality (estimate sample_params [ScanAll 100]).
Proof.
  split; [apply sample_params_admissible|].
  destruct (Filter_on_plan_with_rows sample_params [] [] [ScanAll 100]
              sample_params_admissible) as (_ & _ & Hrows).
  apply Hrows. reflexivity.
Defined.

End CostEstimatorFacts.

Section CoordinatorInvariantFacts.
Context {Db RecordAccessor : Type} `{!GraphDbAccessor Db RecordAccessor}.
Implicit Types (u : @TransactionUpdates RecordAccessor).
Implicit Types (s : @UpdatesRpcServer Db RecordAccessor).
Implicit Types
  (updates : gmap tx.transaction_id_t (@TransactionUpdates RecordAccessor)).

#[local] Arguments Emplace : simpl never.
#[local] Arguments emplace_in : simpl never.
#[local] Arguments emplace_with : simpl never.

Lemma queue_of_fresh (t : tx.transaction_id_t) g :
  queue_of (@mkTransactionUpdates RecordAccessor t ∅) g = [].
Proof. unfold queue_of. cbn. by rewrite lookup_empty. Qed.

Lemma orderly_GetUpdates kind updates t g delta :
  orderly kind updates →
  delta ∈ queue_of (GetUpdates updates t) g → in_place kind t g delta.
Proof.
  intros Ho. unfold GetUpdates.
  destruct (updates !! t) as [u|] eqn:Hu; [by apply Ho|].
  rewrite queue_of_fresh. by intros ?%elem_of_nil.
Qed.

Lemma orderly_insert kind updates t u :
  orderly kind updates →
  (∀ g delta, delta ∈ queue_of u g → in_place kind t g delta) →
  orderly kind (<[t := u]> updates).
Proof.
  intros Ho Hu t' u' g delta. destruct (decide (t = t')) as [<-|Hne].
  - rewrite lookup_insert_eq. intros [= <-]. apply Hu.
  - rewrite lookup_insert_ne by done. apply Ho.
Qed.

Lemma orderly_delete kind updates t :
  orderly kind updates → orderly kind (delete t updates).
Proof.
  intros Ho t' u' g delta Hl. apply lookup_delete_Some in Hl as [_ Hl].
  by apply Ho.
Qed.

Lemma orderly_clear_older kind oldest_active updates :
  orderly kind updates → orderly kind (clear_older oldest_active updates).
Proof.
  intros Ho t u g delta. rewrite clear_older_lookup.
  destruct (t <? oldest_active)%N; [done|]. apply Ho.
Qed.

Lemma tidy_emplace_in kind tx_id delta s :
  in_place kind tx_id (record_of kind delta) delta →
  tidy s → tidy (emplace_in kind tx_id delta s).2.
Proof.
  intros Hd [Hv He]. rewrite emplace_in_eq. cbn [snd].
  assert (∀ g d,
    d ∈ queue_of (Emplace kind delta
                    (GetUpdates (updates_of kind s) tx_id) (db_ s)).2 g →
    orderly kind (updates_of kind s) → in_place kind tx_id g d) as Hq.
  { intros g d. rewrite queue_of_Emplace. intros Hin Ho.
    apply elem_of_app in Hin as [Hin|Hin].
    - by eapply orderly_GetUpdates.
    - case_bool_decide as Hg; [|by apply elem_of_nil in Hin].
      apply list_elem_of_singleton in Hin. by subst. }
  destruct kind; split;
    cbn [set_updates updates_of vertex_updates_ edge_updates_] in *;
    try done; apply orderly_insert; try done; intros g d Hin; by apply Hq.
Qed.

Lemma tidy_after_emplace_in kind tx_id delta s r s' :
  in_place kind tx_id (record_of kind delta) delta →
  tidy s → emplace_in kind tx_id delta s = (r, s') → tidy s'.
Proof.
  intros Hd Hk Heq. change s' with (r, s').2. rewrite <-Heq.
  by apply tidy_emplace_in.
Qed.

Lemma orderly_register kind updates t (acc : RecordAccessor) g :
  orderly kind updates →
  orderly kind
    (<[t := mkTransactionUpdates (db_accessor_ (GetUpdates updates t))
              (map_emplace g (acc, [])
                 (deltas_ (GetUpdates updates t)))]> updates).
Proof.
  intros Ho. apply orderly_insert; [done|]. intros g' d.
  change (queue_of ?u g')
    with (from_option snd [] (deltas_ u !! g')).
  cbn [deltas_]. rewrite map_emplace_queue.
  apply (orderly_GetUpdates kind updates t g' d Ho).
Qed.

Lemma tidy_CreateEdge req s : tidy s → tidy (CreateEdge req s).2.
Proof.
  intros [Hv He]. unfold CreateEdge, CreateEdge_with, TxCreateEdge.
  destruct (InsertOnlyEdge _ _ _ _ _) as [edge db1].
  change (emplace_with Emplace) with emplace_in.
  destruct (emplace_in _ _ _ _) as [r s2] eqn:Hs2. cbn [snd].
  eapply tidy_after_emplace_in; [| |exact Hs2]; [done|].
  split; [done|]. cbn [set_updates set_db edge_updates_].
  by apply orderly_register.
Qed.

Lemma tidy_Apply_in vertex_order edge_order tx_id s r s' :
  tidy s → Apply_in vertex_order edge_order tx_id s = Returns (r, s') →
  tidy s'.
Proof.
  intros [Hv He] [Hv' He']%Apply_in_updates. unfold tidy.
  rewrite Hv', He'. split; by apply orderly_delete.
Qed.

Lemma tidy_handle req s s' : tidy s → handle req s = Returns s' → tidy s'.
Proof.
  intros Hk. destruct req as [delta|tx_id|req|req|req|req|req|req|oldest];
    cbn [handle].
  - unfold UpdateRpc.
    destruct (StateDelta.type delta) eqn:Hty; try done; cbn [obind];
      destruct (emplace_in _ _ _ _) as [r s1] eqn:Hs1; intros [= <-];
      (eapply tidy_after_emplace_in; [| |exact Hs1]; [|done]);
      unfold in_place; by rewrite Hty.
  - destruct (Apply tx_id s) as [[r s1]| |] eqn:Happly; cbn [obind];
      [|done..].
    intros [= <-]. by eapply tidy_Apply_in.
  - unfold CreateVertexRpc.
    destruct (CreateVertex _ _ _ _) as [[[g u'] db']| |] eqn:Hc; [|done..].
    cbn [obind]. intros [= <-]. destruct Hk as [Hv He]. split; [|done].
    cbn [set_updates set_db vertex_updates_].
    unfold CreateVertex in Hc.
    destruct (InsertVertex _ _) as [vertex db1].
    destruct (add_labels _ _ _) as [[] db2|]; [|done].
    destruct (set_properties _ _ _) as [[] db3|]; [|done].
    injection Hc as <- <- <-. by apply orderly_register.
  - intros Heq. assert (s' = (CreateEdgeRpc req s).2) as -> by congruence.
    clear Heq. apply (tidy_CreateEdge req) in Hk.
    unfold CreateEdgeRpc, CreateEdgeRpc_with.
    unfold CreateEdge in Hk.
    destruct (CreateEdge_with Emplace req s) as [cr s1]. cbn [snd] in *.
    destruct (_ && _); [|done].
    change (emplace_with Emplace) with emplace_in.
    destruct (emplace_in _ _ _ s1) as [r s2] eqn:Hs2. cbn [snd].
    by eapply tidy_after_emplace_in; [| |exact Hs2].
  - intros Heq. assert (s' = (AddInEdgeRpc req s).2) as -> by congruence.
    by apply tidy_emplace_in.
  - intros Heq. assert (s' = (RemoveVertexRpc req s).2) as -> by congruence.
    by apply tidy_emplace_in.
  - intros Heq. assert (s' = (RemoveEdgeRpc req s).2) as -> by congruence.
    clear Heq. unfold RemoveEdgeRpc, RemoveEdge, RemoveEdge_with.
    change (emplace_with Emplace) with emplace_in.
    destruct (emplace_in OfEdge _ _ s) as [r1 s1] eqn:Hs1.
    assert (tidy s1) as Hk1.
    { by eapply tidy_after_emplace_in; [| |exact Hs1]. }
    destruct (bool_decide (r1 = DONE)).
    + destruct (emplace_in OfVertex _ _ s1) as [r2 s2] eqn:Hs2.
      assert (tidy s2) as Hk2.
      { by eapply tidy_after_emplace_in; [| |exact Hs2]. }
      destruct (_ && _); [|done]. by apply tidy_emplace_in.
    + destruct (_ && _); [|done]. by apply tidy_emplace_in.
  - intros Heq. assert (s' = (RemoveInEdgeRpc req s).2) as -> by congruence.
    by apply tidy_emplace_in.
  - intros [= <-]. destruct Hk. split; by apply orderly_clear_older.
Qed.

Lemma reachable_tidy s : reachable s → tidy s.
Proof.
  induction 1 as [db wal|req s s' _ IH Hstep
                  |vertex_order edge_order tx_id s r s' _ IH _ _ Hstep].
  - split; intros t u g d; cbn; by rewrite lookup_empty.
  - by eapply tidy_handle.
  - by eapply tidy_Apply_in.
Qed.

(** X1.  In every state the server can reach, a buffered delta sits in
    the updates of its own transaction and in the queue of its own
    record: the vertex it names in the vertex updates, the edge it names
    in the edge updates.  The precondition of per-record FIFO thus holds
    for every buffer the server builds. *)
Theorem reachable_deltas_in_place s t u g delta :
  reachable s →
  (vertex_updates_ s !! t = Some u → delta ∈ queue_of u g →
   StateDelta.transaction_id delta = t ∧ StateDelta.vertex_id delta = g) ∧
  (edge_updates_ s !! t = Some u → delta ∈ queue_of u g →
   StateDelta.transaction_id delta = t ∧ StateDelta.edge_id delta = g) ∧
  (vertex_updates_ s !! t = Some u → filed_by_record OfVertex u = true) ∧
  (edge_updates_ s !! t = Some u → filed_by_record OfEdge u = true).
Proof.
  intros [Hv He]%reachable_tidy. split_and!.
  - intros Hu Hd. by destruct (Hv t u g delta Hu Hd) as (? & ? & _).
  - intros Hu Hd. by destruct (He t u g delta Hu Hd) as (? & ? & _).
  - intros Hu. apply filed_by_record_spec. intros g'.
    apply Forall_forall. intros d Hd.
    by destruct (Hv t u g' d Hu Hd) as (_ & ? & _).
  - intros Hu. apply filed_by_record_spec. intros g'.
    apply Forall_forall. intros d Hd.
    by destruct (He t u g' d Hu Hd) as (_ & ? & _).
Qed.

(** X2.  In every state the server can reach, the edge updates hold only
    [SET_PROPERTY_EDGE] and [REMOVE_EDGE] deltas and the vertex updates
    hold neither of the two nor a type that [Apply] answers with
    [LOG(FATAL)]: the casts of [Apply] to a vertex or an edge accessor
    are applied to a record of the right kind. *)
Theorem reachable_delta_types s t u g delta :
  reachable s →
  (edge_updates_ s !! t = Some u → delta ∈ queue_of u g →
   StateDelta.type delta = StateDelta.SET_PROPERTY_EDGE ∨
   StateDelta.type delta = StateDelta.REMOVE_EDGE) ∧
  (vertex_updates_ s !! t = Some u → delta ∈ queue_of u g →
   StateDelta.applicable delta = true ∧
   StateDelta.type delta ≠ StateDelta.SET_PROPERTY_EDGE ∧
   StateDelta.type delta ≠ StateDelta.REMOVE_EDGE).
Proof.
  intros [Hv He]%reachable_tidy. split.
  - intros Hu Hd. destruct (He t u g delta Hu Hd) as (_ & _ & Hty).
    destruct (StateDelta.type delta); try done; auto.
  - intros Hu Hd. destruct (Hv t u g delta Hu Hd) as (_ & _ & Hty).
    unfold StateDelta.applicable.
    destruct (StateDelta.type delta); done.
Qed.

(** X3.  From a reachable state the only request that ends the process
    is an [Update] with a delta type the handler does not accept; in
    particular [UpdateApply] always returns. *)
Theorem handle_Fatal_only_on_foreign_Update req s :
  reachable s →
  (handle req s = Fatal ↔
   ∃ delta, req = OnUpdate delta ∧
            routed_to (StateDelta.type delta) = None).
Proof.
  intros Hr. destruct req as [delta|tx_id|req|req|req|req|req|req|oldest];
    cbn [handle].
  - unfold UpdateRpc, routed_to. split.
    + intros Hf. exists delta. split; [done|].
      destruct (StateDelta.type delta); try done;
        cbn [obind] in Hf; by destruct (emplace_in _ _ _ _).
    + intros (d & [= <-] & Hty).
      by destruct (StateDelta.type delta).
  - destruct (reachable_conditions s tx_id Hr) as (Hok & _).
    apply Apply_phases in Hok as (vr & er & st1 & st2 & _ & _ & ->).
    cbn [obind]. split; [done|]. by intros (? & ? & _).
  - unfold CreateVertexRpc, CreateVertex.
    destruct (InsertVertex _ _) as [vertex db1].
    destruct (add_labels _ _ _) as [[] db2|];
      [destruct (set_properties _ _ _) as [[] db3|]|];
      cbn [obind]; (split; [done|]); by intros (? & ? & _).
  - split; [done|]. by intros (? & ? & _).
  - split; [done|]. by intros (? & ? & _).
  - split; [done|]. by intros (? & ? & _).
  - split; [done|]. by intros (? & ? & _).
  - split; [done|]. by intros (? & ? & _).
  - split; [done|]. by intros (? & ? & _).
Qed.

Lemma apply_collection_in_log kvs tx_id updates st r updates' st' :
  apply_collection_in kvs tx_id updates st = Returns (r, (updates', st')) →
  ∃ added, st'.2 = st.2 ++ added ∧
           Forall (λ d, StateDelta.structural d = true) added.
Proof.
  unfold apply_collection_in. destruct (updates !! tx_id) as [u|].
  - destruct (TxApply_in kvs u st) as [[r0 st0]| |] eqn:Hrun; cbn [obind];
      [|done..].
    intros [= <- <- <-].
    apply TxApply_in_Returns in Hrun as (applied & _ & _ & ->).
    eexists. split; [done|]. apply Forall_forall.
    intros d [_ ?]%list_elem_of_In%filter_In. done.
  - intros [= <- <- <-]. exists []. by rewrite app_nil_r.
Qed.

Lemma emplace_in_frame kind tx_id delta s :
  db_ (emplace_in kind tx_id delta s).2 = db_ s ∧
  wal_ (emplace_in kind tx_id delta s).2 = wal_ s.
Proof. rewrite emplace_in_eq. by destruct kind. Qed.

Lemma CreateEdgeRpc_log req s : wal_ (CreateEdgeRpc req s).2 = wal_ s.
Proof.
  unfold CreateEdgeRpc, CreateEdgeRpc_with, CreateEdge_with, TxCreateEdge.
  destruct (InsertOnlyEdge _ _ _ _ _) as [edge db1].
  change (emplace_with Emplace) with emplace_in.
  match goal with
  | |- context [emplace_in OfVertex ?t ?d ?s0] =>
    pose proof (emplace_in_frame OfVertex t d s0) as [_ Hw];
    destruct (emplace_in OfVertex t d s0) as [r1 s1]
  end.
  cbn [snd fst result created_gid] in *.
  destruct (_ && _).
  - match goal with
    | |- context [emplace_in OfVertex ?t ?d s1] =>
      pose proof (emplace_in_frame OfVertex t d s1) as [_ Hw2];
      destruct (emplace_in OfVertex t d s1) as [r2 s2]
    end.
    cbn [snd] in *. rewrite Hw2, Hw. by destruct s.
  - cbn [snd]. rewrite Hw. by destruct s.
Qed.

(** [RemoveEdge] as the chain of its three buffering steps. *)
Lemma RemoveEdge_steps (data : RemoveEdgeData.t) s :
  let W := WorkerId (db_ s) in
  let edge := storage.mkAddress (RemoveEdgeData.edge_id data) W in
  let step1 :=
    emplace_in OfEdge (RemoveEdgeData.tx_id data)
      (StateDelta.RemoveEdge (RemoveEdgeData.tx_id data)
         (RemoveEdgeData.edge_id data)) s in
  let step2 :=
    emplace_in OfVertex (RemoveEdgeData.tx_id data)
      (StateDelta.RemoveOutEdge (RemoveEdgeData.tx_id data)
         (RemoveEdgeData.vertex_from_id data) edge) step1.2 in
  let step3 :=
    emplace_in OfVertex (RemoveEdgeData.tx_id data)
      (StateDelta.RemoveInEdge (RemoveEdgeData.tx_id data)
         (storage.gid (RemoveEdgeData.vertex_to_address data)) edge)
      step2.2 in
  RemoveEdge data s
  = if (storage.worker_id (RemoveEdgeData.vertex_to_address data) =? W)%Z
    then step3 else step2.
Proof.
  intros W edge step1 step2 step3. unfold RemoveEdge, RemoveEdge_with.
  change (emplace_with Emplace) with emplace_in.
  pose proof (emplace_in_frame OfEdge (RemoveEdgeData.tx_id data)
                (StateDelta.RemoveEdge (RemoveEdgeData.tx_id data)
                   (RemoveEdgeData.edge_id data)) s) as [Hd1 _].
  fold step1 in Hd1 |- *.
  assert (step1.1 = DONE) as Hr1 by done.
  destruct step1 as [r1 s1] eqn:Hs1. cbn [fst snd] in *. subst r1.
  rewrite bool_decide_eq_true_2 by done. rewrite Hd1. fold W edge.
  pose proof (emplace_in_frame OfVertex (RemoveEdgeData.tx_id data)
                (StateDelta.RemoveOutEdge (RemoveEdgeData.tx_id data)
                   (RemoveEdgeData.vertex_from_id data) edge) s1) as [Hd2 _].
  fold step2 in Hd2 |- *.
  assert (step2.1 = DONE) as Hr2 by done.
  destruct step2 as [r2 s2] eqn:Hs2. cbn [fst snd] in *. subst r2.
  rewrite bool_decide_eq_true_2 by done. rewrite Hd2, Hd1. fold W edge.
  cbn [andb]. by destruct (_ =? _)%Z.
Qed.

Lemma RemoveEdge_frame req s :
  db_ (RemoveEdge req s).2 = db_ s ∧ wal_ (RemoveEdge req s).2 = wal_ s.
Proof.
  rewrite RemoveEdge_steps. cbn zeta.
  destruct (_ =? _)%Z;
    repeat match goal with
    | |- context [emplace_in ?k ?t ?d ?s0] =>
      destruct (emplace_in_frame k t d s0) as [-> ->]
    end; done.
Qed.

(** X4.  Of the handlers only [UpdateApply] calls [wal().Emplace]
    itself, and only with [ADD_OUT_EDGE] and [ADD_IN_EDGE] deltas: the
    list of the deltas handed over by the coordinator grows under
    [UpdateApply] by such deltas and stays as it is under every other
    request.  Only the handlers of [UpdateApply], [CreateVertex] and
    [CreateEdge] call a member function that changes the storage: the
    buffering requests and the eviction leave it as it is.  What the
    storage engine writes to its log inside those member functions is
    not part of this. *)
Theorem handle_log_and_storage req s s' :
  handle req s = Returns s' →
  (∃ added, wal_ s' = wal_ s ++ added ∧
            Forall (λ d, StateDelta.structural d = true) added ∧
            (is_apply req = false → added = [])) ∧
  (reaches_storage req = false → db_ s' = db_ s).
Proof.
  assert (∀ s0 : @UpdatesRpcServer Db RecordAccessor,
            wal_ s0 = wal_ s → db_ s0 = db_ s →
            (∃ added, wal_ s0 = wal_ s ++ added ∧
               Forall (λ d, StateDelta.structural d = true) added ∧
               (false = false → added = [])) ∧
            (false = false → db_ s0 = db_ s)) as Hsame.
  { intros s0 Hw Hd. split; [|done]. exists [].
    by rewrite app_nil_r. }
  destruct req as [delta|tx_id|req|req|req|req|req|req|oldest];
    cbn [handle is_apply reaches_storage].
  - unfold UpdateRpc.
    destruct (StateDelta.type delta); try done; cbn [obind];
      match goal with
      | |- context [emplace_in ?k ?t ?d s] =>
        pose proof (emplace_in_frame k t d s) as [Hd Hw];
        destruct (emplace_in k t d s) as [r s1]
      end; intros [= <-]; by apply Hsame.
  - unfold Apply, Apply_in.
    destruct (apply_collection_in _ tx_id (vertex_updates_ s) _)
      as [[vr [vu st1]]| |] eqn:Hv; [|done..].
    apply apply_collection_in_log in Hv as (added1 & Hw1 & Hs1).
    cbn [obind].
    destruct (apply_collection_in _ tx_id (edge_updates_ s) _)
      as [[er [eu st2]]| |] eqn:He; [|done..].
    apply apply_collection_in_log in He as (added2 & Hw2 & Hs2).
    cbn [obind]. intros [= <-]. cbn [wal_ db_] in *. split; [|done].
    exists (added1 ++ added2). rewrite Hw2, Hw1, app_assoc.
    split_and!; [done|by apply Forall_app|done].
  - unfold CreateVertexRpc.
    destruct (CreateVertex _ _ _ _) as [[[g u'] db']| |]; [|done..].
    cbn [obind]. intros [= <-]. split; [|done]. exists [].
    by rewrite app_nil_r.
  - intros Heq. assert (s' = (CreateEdgeRpc req s).2) as -> by congruence.
    split; [|done]. exists []. by rewrite app_nil_r, CreateEdgeRpc_log.
  - intros Heq. assert (s' = (AddInEdgeRpc req s).2) as -> by congruence.
    apply Hsame; apply emplace_in_frame.
  - intros Heq. assert (s' = (RemoveVertexRpc req s).2) as -> by congruence.
    apply Hsame; apply emplace_in_frame.
  - intros Heq. assert (s' = (RemoveEdgeRpc req s).2) as -> by congruence.
    apply Hsame; apply RemoveEdge_frame.
  - intros Heq. assert (s' = (RemoveInEdgeRpc req s).2) as -> by congruence.
    apply Hsame; apply emplace_in_frame.
  - intros [= <-]. by apply Hsame.
Qed.

Lemma emplace_in_buffers_one tx_id delta s :
  buffers_one tx_id (StateDelta.vertex_id delta) delta s
    (emplace_in OfVertex tx_id delta s).
Proof.
  destruct (emplace_in OfVertex tx_id delta s) as [r s'] eqn:Heq.
  apply emplace_in_vertex in Heq as (-> & Hdb & Hwal & Hedge & Hother & Hq).
  unfold buffers_one. cbn [fst snd]. split_and!; try done.
  - by rewrite Hq, bool_decide_eq_true_2.
  - intros g' Hne. by rewrite Hq, bool_decide_eq_false_2, app_nil_r.
Qed.

(** X5.  The handlers of [AddInEdge], [RemoveVertex] and [RemoveInEdge]
    each buffer one delta built from the request for the vertex the
    request names, return [DONE], and touch nothing else: no other
    queue, no other transaction, no edge updates, neither storage nor
    log. *)
Theorem single_delta_handlers s (add : AddInEdgeReqData.t)
    (remove : RemoveVertexReqData.t) (remove_in : RemoveInEdgeData.t) :
  buffers_one (AddInEdgeReqData.tx_id add) (AddInEdgeReqData.to add)
    (StateDelta.AddInEdge (AddInEdgeReqData.tx_id add)
       (AddInEdgeReqData.to add) (AddInEdgeReqData.from add)
       (AddInEdgeReqData.edge_address add) (AddInEdgeReqData.edge_type add))
    s (AddInEdgeRpc add s) ∧
  buffers_one (RemoveVertexReqData.tx_id remove)
    (RemoveVertexReqData.gid remove)
    (StateDelta.RemoveVertex (RemoveVertexReqData.tx_id remove)
       (RemoveVertexReqData.gid remove)
       (RemoveVertexReqData.check_empty remove))
    s (RemoveVertexRpc remove s) ∧
  buffers_one (RemoveInEdgeData.tx_id remove_in)
    (RemoveInEdgeData.vertex remove_in)
    (StateDelta.RemoveInEdge (RemoveInEdgeData.tx_id remove_in)
       (RemoveInEdgeData.vertex remove_in)
       (RemoveInEdgeData.edge_address remove_in))
    s (RemoveInEdgeRpc remove_in s).
Proof.
  split_and!; apply emplace_in_buffers_one.
Qed.

(** X7.  Two evictions in a row are one eviction with the larger bound;
    hence evicting twice with one bound is evicting once, and a bound of
    zero evicts nothing. *)
Theorem ClearTransactionalCache_composes oldest1 oldest2 s :
  ClearTransactionalCache oldest1 (ClearTransactionalCache oldest2 s)
  = ClearTransactionalCache (N.max oldest1 oldest2) s ∧
  ClearTransactionalCache 0%N s = s.
Proof.
  assert (∀ updates,
            clear_older oldest1 (clear_older oldest2 updates)
            = clear_older (N.max oldest1 oldest2) updates) as Hmax.
  { intros updates. apply map_eq. intros t. rewrite !clear_older_lookup.
    destruct (N.ltb_spec t oldest1), (N.ltb_spec t oldest2),
      (N.ltb_spec t (N.max oldest1 oldest2)); try done; lia. }
  assert (∀ updates, clear_older 0%N updates = updates) as Hzero.
  { intros updates. apply map_eq. intros t. rewrite clear_older_lookup.
    by destruct (N.ltb_spec t 0%N); [lia|]. }
  unfold ClearTransactionalCache. cbn. rewrite !Hmax, !Hzero.
  by destruct s.
Qed.

(** X8.  An [Apply] that comes after the eviction of its transaction
    finds nothing: it returns [DONE] and changes nothing, whatever was
    buffered for the transaction before. *)
Theorem Apply_after_eviction tx_id oldest_active s :
  (tx_id < oldest_active)%N →
  Apply tx_id (ClearTransactionalCache oldest_active s)
  = Returns (DONE, ClearTransactionalCache oldest_active s).
Proof.
  intros Hlt. apply Apply_nothing_buffered; cbn;
    rewrite clear_older_lookup; by destruct (N.ltb_spec tx_id oldest_active);
    [|lia].
Qed.

Lemma apply_records_nothing_queued t
    (kvs : list (gid.Gid * (RecordAccessor * list StateDelta.t))) st :
  visit_order kvs = [] → apply_records t kvs st = Continue st.
Proof.
  unfold apply_records, visit_order.
  induction kvs as [|kv kvs IH]; [done|]. cbn [flat_map for_each_record].
  intros [Hq Hrest]%app_eq_nil. rewrite Hq. cbn [for_each_delta].
  by apply IH.
Qed.

(** X9.  Applying the updates of a transaction whose queues are all empty
    (it only created vertices or edges here) returns [DONE] and leaves
    storage and log as they are. *)
Theorem Apply_nothing_queued tx_id s :
  (∀ u, vertex_updates_ s !! tx_id = Some u → application_order u = []) →
  (∀ u, edge_updates_ s !! tx_id = Some u → application_order u = []) →
  Apply tx_id s
  = Returns (DONE,
             mkUpdatesRpcServer (db_ s) (wal_ s)
               (delete tx_id (vertex_updates_ s))
               (delete tx_id (edge_updates_ s))).
Proof.
  intros Hv He. unfold Apply, Apply_in, listed, apply_collection_in.
  unfold TxApply_in.
  destruct (vertex_updates_ s !! tx_id) as [vu|] eqn:Hvu.
  - rewrite apply_records_nothing_queued by by apply Hv. cbn [obind].
    destruct (edge_updates_ s !! tx_id) as [eu|] eqn:Heu.
    + rewrite apply_records_nothing_queued by by apply He. done.
    + cbn [obind]. by rewrite (delete_id _ _ Heu).
  - cbn [obind]. rewrite (delete_id _ _ Hvu).
    destruct (edge_updates_ s !! tx_id) as [eu|] eqn:Heu.
    + rewrite apply_records_nothing_queued by by apply He. done.
    + cbn [obind]. by rewrite (delete_id _ _ Heu).
Qed.

End CoordinatorInvariantFacts.

Module ScenarioInvariantFacts.
Import Reference ReferenceFacts Scenario.

Lemma removal_pending_reachable : reachable removal_pending.
Proof.
  apply (reachable_step (OnRemoveVertex (RemoveVertexReqData.mk 10%N 5%N true))
           (empty_server sample_db)); [apply reachable_start|reflexivity].
Qed.

Lemma reachable_deltas_in_place_witness :
  reachable removal_pending ∧
  ∃ u, vertex_updates_ removal_pending !! 5%N = Some u ∧
       filed_by_record OfVertex u = true.
Proof.
  split; [apply removal_pending_reachable|].
  eexists. split; [vm_compute; reflexivity|].
  refine (proj1 (proj2 (proj2
    (reachable_deltas_in_place removal_pending 5%N _ 10%N
       (StateDelta.RemoveVertex 5%N 10%N true) removal_pending_reachable)))
    _).
  vm_compute; reflexivity.
Defined.

Lemma reachable_delta_types_witness :
  reachable removal_pending ∧
  vertex_updates_ removal_pending !! 5%N
  = Some (GetUpdates (vertex_updates_ removal_pending) 5%N) ∧
  StateDelta.RemoveVertex 5%N 10%N true
  ∈ queue_of (GetUpdates (vertex_updates_ removal_pending) 5%N) 10%N ∧
  StateDelta.applicable (StateDelta.RemoveVertex 5%N 10%N true) = true.
Proof.
  assert (vertex_updates_ removal_pending !! 5%N
          = Some (GetUpdates (vertex_updates_ removal_pending) 5%N)) as Hu
    by (vm_compute; reflexivity).
  assert (StateDelta.RemoveVertex 5%N 10%N true
          ∈ queue_of (GetUpdates (vertex_updates_ removal_pending) 5%N) 10%N)
    as Hin.
  { assert (queue_of (GetUpdates (vertex_updates_ removal_pending) 5%N) 10%N
            = [StateDelta.RemoveVertex 5%N 10%N true]) as ->
      by (vm_compute; reflexivity).
    apply list_elem_of_here. }
  split_and!; [apply removal_pending_reachable|exact Hu|exact Hin|].
  exact (proj1 (proj2
    (reachable_delta_types removal_pending 5%N _ 10%N
       (StateDelta.RemoveVertex 5%N 10%N true) removal_pending_reachable)
    Hu Hin)).
Defined.

Lemma handle_Fatal_only_on_foreign_Update_witness :
  reachable removal_pending ∧
  handle (OnUpdateApply 5%N) removal_pending ≠ Fatal.
Proof.
  split; [apply removal_pending_reachable|].
  intros Hfatal.
  destruct (proj1 (handle_Fatal_only_on_foreign_Update (OnUpdateApply 5%N)
                     removal_pending removal_pending_reachable) Hfatal)
    as (delta & Hreq & _).
  discriminate Hreq.
Defined.

Lemma handle_log_and_storage_witness :
  handle (OnRemoveVertex (RemoveVertexReqData.mk 10%N 5%N true))
    (empty_server sample_db) = Returns removal_pending ∧
  db_ removal_pending = db_ (empty_server sample_db).
Proof.
  assert (handle (OnRemoveVertex (RemoveVertexReqData.mk 10%N 5%N true))
            (empty_server sample_db) = Returns removal_pending) as Hstep
    by reflexivity.
  split; [exact Hstep|].
  apply (handle_log_and_storage _ _ _ Hstep). reflexivity.
Defined.

Lemma Apply_after_eviction_witness :
  (5 < 6)%N ∧
  Apply 5%N (ClearTransactionalCache 6%N removal_pending)
  = Returns (DONE, ClearTransactionalCache 6%N removal_pending).
Proof.
  split; [reflexivity|].
  apply (Apply_after_eviction 5%N 6%N removal_pending). reflexivity.
Defined.

Lemma Apply_nothing_queued_witness :
  ∃ created,
    CreateVertexRpc labelled_vertex (empty_server sample_db)
    = Returns created ∧
    Apply 5%N created.2
    = Returns (DONE,
               mkUpdatesRpcServer (db_ created.2) (wal_ created.2)
                 (delete 5%N (vertex_updates_ created.2))
                 (delete 5%N (edge_updates_ created.2))).
Proof.
  eexists. split; [vm_compute; reflexivity|].
  apply (Apply_nothing_queued 5%N).
  - intros u Hu. vm_compute in Hu. injection Hu as <-. reflexivity.
  - intros u Hu. vm_compute in Hu. discriminate Hu.
Defined.

End ScenarioInvariantFacts.

Module rpcFacts.
Import rpc.

Lemma AddTask_services socket service message_id message sys :
  services_ (AddTask socket service message_id message sys) = services_ sys.
Proof. unfold AddTask. by destruct (services_ sys !! service). Qed.

Lemma AddTask_emplaced socket service message_id message sys server :
  emplaced server (AddTask socket service message_id message sys)
  = emplaced server sys
    ++ (if bool_decide (services_ sys !! service = Some server)
        then [mkTask socket message_id message] else []).
Proof.
  unfold AddTask. destruct (services_ sys !! service) as [it|] eqn:Hit.
  - unfold enqueue, emplaced at 1. cbn [queue_].
    destruct (decide (it = server)) as [->|Hne].
    + by rewrite lookup_insert_eq, bool_decide_eq_true_2.
    + rewrite lookup_insert_ne by done.
      rewrite bool_decide_eq_false_2 by congruence.
      by rewrite app_nil_r.
  - by rewrite bool_decide_eq_false_2, app_nil_r.
Qed.

(** X11.  Over any run of [AddTask] calls the registry stays as it was,
    and the queue of each server is handed exactly the calls whose
    service name is registered to that server, in the order they came
    in; calls for other servers, and calls for names that no server
    registered, add nothing to it.  A run in which no name is
    registered changes nothing at all. *)
Theorem AddTask_routes_by_service_name calls sys :
  services_ (AddTasks calls sys) = services_ sys ∧
  (∀ server,
     emplaced server (AddTasks calls sys)
     = emplaced server sys ++ (task_of <$> addressed_to server sys calls)) ∧
  (Forall (λ call, services_ sys !! call_service call = None) calls →
   AddTasks calls sys = sys).
Proof.
  revert sys. induction calls as [|call calls IH]; intros sys.
  - cbn. split_and!; [done| |done]. intros server. by rewrite app_nil_r.
  - unfold AddTasks. cbn [foldl].
    set (sys1 := AddTask _ _ _ _ sys).
    assert (services_ sys1 = services_ sys) as Hsame
      by apply AddTask_services.
    destruct (IH sys1) as (Hs & He & Hn). fold (AddTasks calls sys1).
    split_and!.
    + by rewrite Hs.
    + intros server. rewrite He. unfold sys1 at 1.
      rewrite AddTask_emplaced, <-app_assoc. f_equal.
      unfold addressed_to. rewrite filter_cons, Hsame.
      destruct (decide (services_ sys !! call_service call = Some server))
        as [Hyes|Hno].
      * by rewrite bool_decide_eq_true_2.
      * by rewrite bool_decide_eq_false_2.
    + intros Hall. apply Forall_cons in Hall as [Hcall Hall].
      assert (sys1 = sys) as Heq.
      { unfold sys1, AddTask. by rewrite Hcall. }
      rewrite Heq in *. by apply Hn.
Qed.

(** X12.  Registration never replaces a server: [Add] ends the process
    exactly when the name is taken, and otherwise the name leads to the
    new server while every other name leads where it did.  [Remove]
    ends the process exactly when the name is not registered.  Removing
    a server right after adding it gives back the registry as it was,
    and neither call touches a queue. *)
Theorem Add_Remove_registry server sys :
  (Add server sys = Fatal ↔ is_Some (services_ sys !! service_name server)) ∧
  (Remove server sys = Fatal ↔ services_ sys !! service_name server = None) ∧
  (∀ sys', Add server sys = Returns sys' →
     services_ sys' !! service_name server = Some (address server) ∧
     (∀ name, name ≠ service_name server →
              services_ sys' !! name = services_ sys !! name) ∧
     queue_ sys' = queue_ sys ∧
     Remove server sys' = Returns sys).
Proof.
  unfold Add, Remove. split_and!.
  - destruct (services_ sys !! service_name server) as [it|]; split;
      try done; try (by eexists); by intros [? ?].
  - by destruct (services_ sys !! service_name server).
  - intros sys'.
    destruct (services_ sys !! service_name server) eqn:Hn; [done|].
    intros [= <-]. cbn. rewrite lookup_insert_eq. split_and!; try done.
    + intros name Hne. by rewrite lookup_insert_ne.
    + rewrite delete_insert_id by done. by destruct sys.
Qed.

End rpcFacts.

Module FakeDbAccessorFacts.
Import FakeDbAccessor.

Lemma is_index_spec label property (index : IndexEntry) :
  is_index label property index = true ↔ index.1 = (label, property).
Proof.
  destruct index as [[l p] c]. unfold is_index. simpl.
  rewrite andb_true_iff, !N.eqb_eq. split; [by intros [-> ->]|].
  by intros [= -> ->].
Qed.

Lemma has_index_elem label property indices :
  has_index label property indices = true ↔
  (label, property) ∈ index_keys indices.
Proof.
  unfold index_keys. induction indices as [|index rest IH].
  - simpl. split; [done|]. by intros ?%elem_of_nil.
  - cbn [has_index]. rewrite fmap_cons, elem_of_cons.
    destruct (is_index label property index) eqn:Hi.
    + apply is_index_spec in Hi. split; [|done]. intros _. by left.
    + rewrite IH. split; [by right|]. intros [Heq|?]; [|done].
      symmetry in Heq. apply is_index_spec in Heq. congruence.
Qed.

Lemma is_index_recount label property (index : IndexEntry) count :
  is_index label property (index.1.1, index.1.2, count)
  = is_index label property index.
Proof. by destruct index as [[l p] c]. Qed.

Lemma is_index_other label property label' property' (index : IndexEntry) :
  (label', property') ≠ (label, property) →
  is_index label property index = true →
  is_index label' property' index = false.
Proof.
  intros Hne Hi%is_index_spec.
  destruct (is_index label' property' index) eqn:Hi'; [|done].
  apply is_index_spec in Hi'. congruence.
Qed.

Lemma set_count_same label property count indices :
  count_of label property (set_count label property count indices) = count ∧
  has_index label property (set_count label property count indices) = true.
Proof.
  induction indices as [|index rest IH]; cbn [set_count].
  - cbn [count_of has_index].
    assert (is_index label property (label, property, count) = true) as ->;
      [by apply is_index_spec|done].
  - destruct (is_index label property index) eqn:Hi.
    + cbn [count_of has_index]. by rewrite is_index_recount, Hi.
    + cbn [count_of has_index]. by rewrite Hi.
Qed.

Lemma set_count_other label property count indices label' property' :
  (label', property') ≠ (label, property) →
  count_of label' property' (set_count label property count indices)
  = count_of label' property' indices ∧
  has_index label' property' (set_count label property count indices)
  = has_index label' property' indices.
Proof.
  intros Hne. induction indices as [|index rest IH]; cbn [set_count].
  - cbn [count_of has_index].
    assert (is_index label' property' (label, property, count) = false)
      as ->; [|done].
    apply (is_index_other label property); [done|]. by apply is_index_spec.
  - destruct (is_index label property index) eqn:Hi.
    + cbn [count_of has_index]. rewrite is_index_recount.
      by rewrite (is_index_other label property label' property' index).
    + cbn [count_of has_index]. destruct IH as [-> ->]. done.
Qed.

(** X13.  After [SetIndexCount(label, property, count)] the pair counts
    [count] vertices and has an index, whether it had one before or
    not; every other pair counts what it counted and has an index
    exactly when it had one. *)
Theorem SetIndexCountProperty_lookup label property count d label' property' :
  VerticesCountProperty label property
    (SetIndexCountProperty label property count d) = count ∧
  LabelPropertyIndexExists label property
    (SetIndexCountProperty label property count d) = true ∧
  ((label', property') ≠ (label, property) →
   VerticesCountProperty label' property'
     (SetIndexCountProperty label property count d)
   = VerticesCountProperty label' property' d ∧
   LabelPropertyIndexExists label' property'
     (SetIndexCountProperty label property count d)
   = LabelPropertyIndexExists label' property' d).
Proof.
  unfold VerticesCountProperty, LabelPropertyIndexExists,
    SetIndexCountProperty. cbn [label_property_index_].
  destruct (set_count_same label property count (label_property_index_ d))
    as [-> ->].
  split_and!; try done. apply set_count_other.
Qed.

Lemma set_count_keys label property count indices :
  index_keys (set_count label property count indices)
  = if has_index label property indices then index_keys indices
    else index_keys indices ++ [(label, property)].
Proof.
  unfold index_keys. induction indices as [|index rest IH];
    cbn [set_count has_index]; [done|].
  destruct (is_index label property index) eqn:Hi.
  - rewrite !fmap_cons. by destruct index as [[l p] c].
  - rewrite !fmap_cons, IH. by destruct (has_index label property rest).
Qed.

(** X14.  [SetIndexCount(label, property, count)] never gives a pair a
    second entry: if no pair has two entries before the call, none has
    after it.  A pair that has an index keeps its place, and the
    entries keep their number and order; a pair without one goes to the
    end. *)
Theorem SetIndexCountProperty_keeps_keys_unique label property count d :
  NoDup (index_keys (label_property_index_ d)) →
  NoDup (index_keys (label_property_index_
           (SetIndexCountProperty label property count d))) ∧
  index_keys (label_property_index_
    (SetIndexCountProperty label property count d))
  = (if LabelPropertyIndexExists label property d
     then index_keys (label_property_index_ d)
     else index_keys (label_property_index_ d) ++ [(label, property)]).
Proof.
  intros Hnd. unfold SetIndexCountProperty, LabelPropertyIndexExists.
  cbn [label_property_index_]. rewrite set_count_keys. split; [|done].
  destruct (has_index label property (label_property_index_ d)) eqn:Hh;
    [done|].
  apply NoDup_app. split_and!; [done| |apply NoDup_singleton].
  intros key Hkey ->%list_elem_of_singleton.
  apply has_index_elem in Hkey. congruence.
Qed.

(** X15.  A pair without a label-property index counts zero vertices:
    [VerticesCount(label, property)] does not tell a missing index
    from an index with no vertices. *)
Theorem VerticesCountProperty_missing label property d :
  LabelPropertyIndexExists label property d = false →
  VerticesCountProperty label property d = 0%Z.
Proof.
  unfold LabelPropertyIndexExists, VerticesCountProperty.
  induction (label_property_index_ d) as [|index rest IH];
    cbn [has_index count_of]; [done|].
  by destruct (is_index label property index).
Qed.

(** *** Interning *)

Lemma interned_empty : interned ∅.
Proof. split; intros *; by rewrite lookup_empty. Qed.

Lemma intern_known name ids id :
  ids !! name = Some id → intern name ids = (id, ids).
Proof. unfold intern. by intros ->. Qed.

Lemma intern_lookup name ids :
  (intern name ids).2 !! name = Some (intern name ids).1.
Proof.
  unfold intern. destruct (ids !! name) as [id|] eqn:Hn; simpl; [done|].
  apply lookup_insert_eq.
Qed.

Lemma intern_keeps name ids name' id :
  ids !! name' = Some id → (intern name ids).2 !! name' = Some id.
Proof.
  unfold intern. intros Hn'.
  destruct (ids !! name) as [id0|] eqn:Hn; simpl; [done|].
  rewrite lookup_insert_ne; [done|]. congruence.
Qed.

Lemma intern_interned name ids : interned ids → interned (intern name ids).2.
Proof.
  intros [Hlt Hinj]. unfold intern.
  destruct (ids !! name) as [id0|] eqn:Hn; simpl; [done|].
  split.
  - intros name' id. rewrite map_size_insert_None by done.
    destruct (decide (name = name')) as [<-|Hne].
    + rewrite lookup_insert_eq. intros [= <-]. lia.
    + rewrite lookup_insert_ne by done. intros ?%Hlt. lia.
  - intros name1 name2 id.
    destruct (decide (name = name1)) as [<-|Hne1];
      destruct (decide (name = name2)) as [<-|Hne2];
      rewrite ?lookup_insert_eq, ?lookup_insert_ne by done; try done.
    + intros [= <-] ?%Hlt. lia.
    + intros ?%Hlt [= <-]. lia.
    + apply Hinj.
Qed.

Lemma name_of_unique property (kvs : list (string * N)) name :
  (name, property) ∈ kvs →
  (∀ kv, kv ∈ kvs → kv.2 = property → kv.1 = name) →
  name_of property kvs = Some name.
Proof.
  induction kvs as [|kv rest IH]; [by intros ?%elem_of_nil|].
  intros Hin Huniq. cbn [name_of].
  destruct (N.eqb_spec kv.2 property) as [Heq|Hne].
  - f_equal. apply Huniq; [by left|done].
  - apply IH.
    + apply elem_of_cons in Hin as [<-|?]; [by simpl in Hne|done].
    + intros kv' ?. apply Huniq. by right.
Qed.

Lemma name_of_None property (kvs : list (string * N)) :
  name_of property kvs = None ↔ ∀ kv, kv ∈ kvs → kv.2 ≠ property.
Proof.
  induction kvs as [|kv rest IH]; cbn [name_of].
  - split; [|done]. by intros _ kv ?%elem_of_nil.
  - destruct (N.eqb_spec kv.2 property) as [Heq|Hne].
    + split; [done|]. intros H. exfalso. by apply (H kv); [left|].
    + rewrite IH. split.
      * intros H kv' [->|?]%elem_of_cons; [done|by apply H].
      * intros H kv' ?. apply H. by right.
Qed.

Lemma PropertyName_of_lookup d name id :
  interned (properties_ d) →
  properties_ d !! name = Some id →
  PropertyName id d = Some name.
Proof.
  intros [_ Hinj] Hn. unfold PropertyName. apply name_of_unique.
  - by apply elem_of_map_to_list.
  - intros [name' id'] Hkv%elem_of_map_to_list. simpl. intros ->.
    by eapply Hinj.
Qed.

Lemma Property_consistent name d : consistent d → consistent (Property name d).2.
Proof.
  intros (Hl & He & Hp). unfold Property, consistent. cbn.
  split_and!; try done. by apply intern_interned.
Qed.

(** X16.  The three interning functions share one body.  On a table they
    built, a name that was seen before gets the id it got then and the
    table stays as it is; a new name gets an id that no other name has;
    earlier names keep their ids; and the table keeps these two
    properties. *)
Theorem intern_assigns_stable_distinct_ids name ids :
  interned ids →
  interned (intern name ids).2 ∧
  intern name (intern name ids).2 = intern name ids ∧
  (∀ name' id, ids !! name' = Some id →
               (intern name' (intern name ids).2).1 = id) ∧
  (∀ name', name' ≠ name →
            (intern name' (intern name ids).2).1 ≠ (intern name ids).1).
Proof.
  intros Hint. pose proof (intern_interned name ids Hint) as Hint'.
  split_and!.
  - done.
  - rewrite (intern_known name _ _ (intern_lookup name ids)).
    by destruct (intern name ids).
  - intros name' id Hn'.
    by rewrite (intern_known name' _ id (intern_keeps name ids name' id Hn')).
  - intros name' Hne Heq.
    pose proof (intern_lookup name ids) as H1.
    pose proof (intern_lookup name' (intern name ids).2) as H2.
    pose proof (intern_interned name' _ Hint') as [_ Hinj].
    apply (intern_keeps name' _ name) in H1.
    rewrite Heq in H2. apply Hne. by eapply Hinj.
Qed.

(** X17.  [PropertyName] undoes [Property]: on an accessor whose tables
    were built by the interning functions, the name of the id that
    [Property] returns for a name is that name; an id that no name has
    ends in [LOG(FATAL)]. *)
Theorem PropertyName_of_Property name d :
  consistent d →
  consistent (Property name d).2 ∧
  PropertyName (Property name d).1 (Property name d).2 = Some name ∧
  (∀ id, (∀ name', properties_ d !! name' ≠ Some id) →
         PropertyName id d = None).
Proof.
  intros Hc. pose proof (Property_consistent name d Hc) as Hc'.
  split_and!; [done| |].
  - apply PropertyName_of_lookup; [apply Hc'|]. apply intern_lookup.
  - intros id Hnone. unfold PropertyName. apply name_of_None.
    intros [name' id'] Hkv%elem_of_map_to_list. simpl. intros ->.
    by apply (Hnone name').
Qed.

Lemma Property_registers : registers properties_ Property.
Proof.
  split.
  - intros name d. apply intern_lookup.
  - intros name d name' id. apply intern_keeps.
Qed.

Lemma Label_registers : registers labels_ Label.
Proof.
  split.
  - intros name d. apply intern_lookup.
  - intros name d name' id. apply intern_keeps.
Qed.

Lemma SetIndexCountProperty_keeps_keys_unique_witness :
  NoDup (index_keys (label_property_index_ fresh)) ∧
  index_keys (label_property_index_
    (SetIndexCountProperty 1%N 2%N 30%Z
       (SetIndexCountProperty 1%N 2%N 10%Z fresh)))
  = [(1%N, 2%N)].
Proof.
  assert (NoDup (index_keys (label_property_index_ fresh))) as Hfresh
    by apply NoDup_nil_2.
  split; [done|].
  destruct (SetIndexCountProperty_keeps_keys_unique 1%N 2%N 10%Z fresh Hfresh)
    as [Hone _].
  destruct (SetIndexCountProperty_keeps_keys_unique 1%N 2%N 30%Z _ Hone)
    as [_ ->].
  vm_compute. reflexivity.
Defined.

Lemma VerticesCountProperty_missing_witness :
  LabelPropertyIndexExists 1%N 3%N (SetIndexCountProperty 1%N 2%N 10%Z fresh)
  = false ∧
  VerticesCountProperty 1%N 3%N (SetIndexCountProperty 1%N 2%N 10%Z fresh)
  = 0%Z.
Proof.
  split; [vm_compute; reflexivity|].
  apply (VerticesCountProperty_missing 1%N 3%N
           (SetIndexCountProperty 1%N 2%N 10%Z fresh)).
  vm_compute; reflexivity.
Defined.

Lemma intern_assigns_stable_distinct_ids_witness :
  interned ∅ ∧ interned (intern "age" ∅).2.
Proof.
  split; [apply interned_empty|].
  apply (intern_assigns_stable_distinct_ids "age" ∅ interned_empty).
Defined.

Lemma PropertyName_of_Property_witness :
  consistent fresh ∧
  PropertyName (Property "age" fresh).1 (Property "age" fresh).2
  = Some "age".
Proof.
  assert (consistent fresh) as Hfresh
    by (split_and!; apply interned_empty).
  split; [done|].
  apply (PropertyName_of_Property "age" fresh Hfresh).
Defined.

End FakeDbAccessorFacts.

Section NamesToIdsFacts.
Context {Dba : Type}.
Variable Property : string → Dba → storage.Property * Dba.
Variable Label : string → Dba → storage.Label * Dba.
Variable properties labels : Dba → gmap string N.

Lemma NamesToProperties_registered names dba :
  registers properties Property →
  let result := NamesToProperties Property names dba in
  length result.1 = length names ∧
  (λ name, properties result.2 !! name) <$> names = Some <$> result.1 ∧
  (∀ name id, properties dba !! name = Some id →
              properties result.2 !! name = Some id).
Proof.
  intros [Hlookup Hkeeps]. cbn zeta. revert dba.
  induction names as [|n names IH]; intros dba; [done|].
  cbn [NamesToProperties].
  pose proof (Hlookup n dba) as Hn. pose proof (Hkeeps n dba) as Hk.
  destruct (Property n dba) as [p dba1].
  destruct (IH dba1) as (Hlen & Hall & Hkeep).
  destruct (NamesToProperties Property names dba1) as [ps dba2].
  cbn [fst snd length] in *. split_and!.
  - by rewrite Hlen.
  - rewrite !fmap_cons, Hall. f_equal. by apply Hkeep.
  - intros name id Hname. by apply Hkeep, Hk.
Qed.

Lemma NamesToLabels_registered names dba :
  registers labels Label →
  let result := NamesToLabels Label names dba in
  length result.1 = length names ∧
  (λ name, labels result.2 !! name) <$> names = Some <$> result.1 ∧
  (∀ name id, labels dba !! name = Some id →
              labels result.2 !! name = Some id).
Proof.
  intros [Hlookup Hkeeps]. cbn zeta. revert dba.
  induction names as [|n names IH]; intros dba; [done|].
  cbn [NamesToLabels].
  pose proof (Hlookup n dba) as Hn. pose proof (Hkeeps n dba) as Hk.
  destruct (Label n dba) as [l dba1].
  destruct (IH dba1) as (Hlen & Hall & Hkeep).
  destruct (NamesToLabels Label names dba1) as [ls dba2].
  cbn [fst snd length] in *. split_and!.
  - by rewrite Hlen.
  - rewrite !fmap_cons, Hall. f_equal. by apply Hkeep.
  - intros name id Hname. by apply Hkeep, Hk.
Qed.

(** X18.  Over an accessor whose [Property] and [Label] register names,
    [NamesToProperties] and [NamesToLabels] return one id per name in
    the order of the names, and when they return the accessor's table
    gives every name of the list the id at its place in the result; so
    a name that occurs twice gets one id.  Names that were in the table
    before keep their ids. *)
Theorem NamesToIds_registered names dba :
  registers properties Property → registers labels Label →
  let known := NamesToProperties Property names dba in
  let marked := NamesToLabels Label names dba in
  (length known.1 = length names ∧
   (λ name, properties known.2 !! name) <$> names = Some <$> known.1 ∧
   (∀ name id, properties dba !! name = Some id →
               properties known.2 !! name = Some id)) ∧
  (length marked.1 = length names ∧
   (λ name, labels marked.2 !! name) <$> names = Some <$> marked.1 ∧
   (∀ name id, labels dba !! name = Some id →
               labels marked.2 !! name = Some id)).
Proof.
  intros Hp Hl. split.
  - by apply NamesToProperties_registered.
  - by apply NamesToLabels_registered.
Qed.

End NamesToIdsFacts.

Lemma NamesToIds_registered_witness :
  registers FakeDbAccessor.properties_ FakeDbAccessor.Property ∧
  registers FakeDbAccessor.labels_ FakeDbAccessor.Label ∧
  length (NamesToProperties FakeDbAccessor.Property ["age"; "name"; "age"]
            FakeDbAccessor.fresh).1 = 3.
Proof.
  split_and!;
    [apply FakeDbAccessorFacts.Property_registers
    |apply FakeDbAccessorFacts.Label_registers|].
  exact (proj1 (proj1 (NamesToIds_registered
                         FakeDbAccessor.Property FakeDbAccessor.Label
                         FakeDbAccessor.properties_ FakeDbAccessor.labels_
                         ["age"; "name"; "age"] FakeDbAccessor.fresh
                         FakeDbAccessorFacts.Property_registers
                         FakeDbAccessorFacts.Label_registers))).
Defined.

Module Xorshift128plusFacts.
Import Xorshift128plus.
Local Open Scope Z_scope.

Lemma wrap_uint64 x : is_uint64 (wrap x).
Proof. unfold is_uint64, wrap. apply Z.mod_pos_bound. lia. Qed.

Lemma wrap_id x : is_uint64 x → wrap x = x.
Proof. intros. by apply Z.mod_small. Qed.

Lemma uint64_bits x :
  is_uint64 x ↔ 0 ≤ x ∧ ∀ i, 64 ≤ i → Z.testbit x i = false.
Proof.
  unfold is_uint64. split.
  - intros [H0 H1]. split; [done|]. intros i Hi.
    rewrite <-(Z.mod_small x (2 ^ 64)) by lia.
    apply Z.mod_pow2_bits_high. lia.
  - intros [H0 H]. split; [done|].
    assert (x mod 2 ^ 64 = x) as <-.
    { apply Z.bits_inj'. intros i Hi. rewrite Z.testbit_mod_pow2 by lia.
      destruct (Z.ltb_spec i 64); simpl; [done|]. symmetry. by apply H. }
    apply Z.mod_pos_bound. lia.
Qed.

Lemma lxor_uint64 x y : is_uint64 x → is_uint64 y → is_uint64 (Z.lxor x y).
Proof.
  rewrite !uint64_bits. intros [Hx Hx'] [Hy Hy']. split.
  - by apply Z.lxor_nonneg.
  - intros i Hi. by rewrite Z.lxor_spec, Hx', Hy'.
Qed.

Lemma shiftr_uint64 x n : 0 ≤ n → is_uint64 x → is_uint64 (Z.shiftr x n).
Proof.
  rewrite !uint64_bits. intros Hn [Hx Hx']. split.
  - by apply Z.shiftr_nonneg.
  - intros i Hi. rewrite Z.shiftr_spec by lia. apply Hx'. lia.
Qed.

(** [x ^ (x >> n)] loses nothing. *)
Lemma xorshift_right_inj n x y :
  0 < n → 0 ≤ x → 0 ≤ y →
  Z.lxor x (Z.shiftr x n) = Z.lxor y (Z.shiftr y n) → x = y.
Proof.
  intros Hn Hx Hy Heq. apply Z.lxor_eq.
  assert (0 ≤ Z.lxor x y) as Hw by by apply Z.lxor_nonneg.
  assert (Z.lxor (Z.lxor x y) (Z.shiftr (Z.lxor x y) n) = 0) as H0.
  { rewrite Z.shiftr_lxor.
    rewrite Z.lxor_assoc, <-(Z.lxor_assoc y), (Z.lxor_comm y (Z.shiftr x n)).
    rewrite Z.lxor_assoc, <-Z.lxor_assoc, Heq. apply Z.lxor_nilpotent. }
  apply Z.lxor_eq in H0. rewrite Z.shiftr_div_pow2 in H0 by lia.
  destruct (Z.eq_dec (Z.lxor x y) 0) as [|Hne]; [done|].
  assert (Z.lxor x y / 2 ^ n < Z.lxor x y); [|lia].
  apply Z.div_lt; [lia|].
  apply (Z.lt_le_trans _ (2 ^ 1)); [lia|]. apply Z.pow_le_mono_r; lia.
Qed.

(** Multiplication by an odd constant loses nothing either. *)
Lemma wrap_mul_inj c x y :
  Z.gcd (2 ^ 64) c = 1 → is_uint64 x → is_uint64 y →
  wrap (x * c) = wrap (y * c) → x = y.
Proof.
  unfold wrap, is_uint64. intros Hc Hx Hy Heq.
  assert ((2 ^ 64 | c * (x - y))) as Hdiv.
  { apply Z.mod_divide; [lia|].
    replace (c * (x - y)) with (x * c - y * c) by ring.
    rewrite Zminus_mod, Heq, Z.sub_diag. done. }
  apply Z.gauss in Hdiv; [|done].
  destruct Hdiv as [k Hk]. nia.
Qed.

Lemma xorshift_left_inj x y :
  Z.lxor x (wrap (Z.shiftl x 23)) = Z.lxor y (wrap (Z.shiftl y 23)) → x = y.
Proof.
  intros Heq. apply Z.bits_inj'.
  assert (∀ n : nat, ∀ i, 0 ≤ i < Z.of_nat n →
            Z.testbit x i = Z.testbit y i) as Hbits.
  { induction n as [|n IH]; intros i Hi; [lia|].
    apply (f_equal (λ z, Z.testbit z i)) in Heq.
    unfold wrap in Heq.
    rewrite !Z.lxor_spec, !Z.testbit_mod_pow2, !Z.shiftl_spec in Heq by lia.
    assert (Z.testbit x (i - 23) = Z.testbit y (i - 23)) as Hlow.
    { destruct (Z.lt_ge_cases (i - 23) 0).
      - by rewrite !Z.testbit_neg_r.
      - apply IH. lia. }
    rewrite Hlow in Heq.
    destruct (Z.testbit x i), (Z.testbit y i),
      ((i <? 64) && Z.testbit y (i - 23)); done. }
  intros i Hi. apply (Hbits (S (Z.to_nat i))). lia.
Qed.

Lemma avalance_uint64 s : is_uint64 s → is_uint64 (avalance s).
Proof.
  intros Hs. unfold avalance.
  apply lxor_uint64; [apply wrap_uint64|].
  apply shiftr_uint64; [lia|apply wrap_uint64].
Qed.

Lemma avalance_inj x y :
  is_uint64 x → is_uint64 y → avalance x = avalance y → x = y.
Proof.
  intros Hx Hy Heq. unfold avalance in Heq.
  apply xorshift_right_inj in Heq;
    [|lia|apply wrap_uint64|apply wrap_uint64].
  apply wrap_mul_inj in Heq;
    [|by vm_compute
     |apply lxor_uint64; [apply wrap_uint64|
                          apply shiftr_uint64; [lia|apply wrap_uint64]]..].
  apply xorshift_right_inj in Heq;
    [|lia|apply wrap_uint64|apply wrap_uint64].
  apply wrap_mul_inj in Heq;
    [|by vm_compute
     |apply lxor_uint64; [done|apply shiftr_uint64; [lia|done]]..].
  apply xorshift_right_inj in Heq; [done|lia|apply Hx|apply Hy].
Qed.

(** X19.  [avalance] maps 64-bit words to 64-bit words one-to-one, and
    zero to zero: of the numbers drawn from the Mersenne twister only
    zero seeds a zero word. *)
Theorem avalance_one_to_one x y :
  is_uint64 x → is_uint64 y →
  is_uint64 (avalance x) ∧
  (avalance x = avalance y → x = y) ∧
  (avalance x = 0 ↔ x = 0).
Proof.
  intros Hx Hy. split_and!.
  - by apply avalance_uint64.
  - by apply avalance_inj.
  - split; [|by intros ->].
    intros H0. apply (avalance_inj x 0); [done|unfold is_uint64; lia|].
    by rewrite H0.
Qed.

Lemma next_well_formed g :
  well_formed g → well_formed (next g).2 ∧ is_uint64 (next g).1.
Proof.
  intros [H0 H1]. unfold next, well_formed. cbn [fst snd s_0 s_1].
  split; [|apply wrap_uint64]. split; [done|].
  assert (is_uint64 (Z.lxor (s_0 g) (wrap (Z.shiftl (s_0 g) 23)))) as Hs1.
  { apply lxor_uint64; [done|apply wrap_uint64]. }
  apply lxor_uint64; [apply lxor_uint64; [by apply lxor_uint64|]|];
    apply shiftr_uint64; (lia || done).
Qed.

Lemma next_inj g g' :
  well_formed g → well_formed g' → (next g).2 = (next g').2 → g = g'.
Proof.
  destruct g as [a b], g' as [a' b']. unfold next, well_formed.
  cbn [fst snd s_0 s_1]. intros [Ha Hb] [Ha' Hb'] [= <- Heq].
  f_equal.
  set (u := Z.lxor a (wrap (Z.shiftl a 23))) in *.
  set (u' := Z.lxor a' (wrap (Z.shiftl a' 23))) in *.
  assert (Z.lxor u (Z.shiftr u 17) = Z.lxor u' (Z.shiftr u' 17)) as Hu.
  { apply (f_equal (λ z, Z.lxor (Z.lxor z (Z.shiftr b 26)) b)) in Heq.
    assert (∀ v, Z.lxor (Z.lxor (Z.lxor (Z.lxor (Z.lxor v b) (Z.shiftr v 17))
                                 (Z.shiftr b 26)) (Z.shiftr b 26)) b
                 = Z.lxor v (Z.shiftr v 17)) as Hcancel.
    { intros v. apply Z.bits_inj'. intros i Hi. rewrite !Z.lxor_spec.
      destruct (Z.testbit v i), (Z.testbit b i), (Z.testbit (Z.shiftr v 17) i),
        (Z.testbit (Z.shiftr b 26) i); done. }
    by rewrite !Hcancel in Heq. }
  apply xorshift_right_inj in Hu; [|lia|..].
  - by apply xorshift_left_inj.
  - apply Z.lxor_nonneg. split; intros _; [apply wrap_uint64|apply Ha].
  - apply Z.lxor_nonneg. split; intros _; [apply wrap_uint64|apply Ha'].
Qed.

Lemma advance_well_formed n g : well_formed g → well_formed (advance n g).
Proof.
  revert g. induction n as [|n IH]; intros g Hg; [done|].
  cbn [advance]. apply IH. by apply next_well_formed.
Qed.

Lemma draw_uint64 n g : well_formed g → Forall is_uint64 (draw n g).
Proof.
  revert g. induction n as [|n IH]; intros g Hg; [done|].
  destruct (next_well_formed g Hg) as [Hn Ho].
  cbn [draw]. constructor; [done|by apply IH].
Qed.

Lemma advance_inj n g g' :
  well_formed g → well_formed g' → advance n g = advance n g' → g = g'.
Proof.
  revert g g'. induction n as [|n IH]; intros g g' Hg Hg'; [done|].
  cbn [advance]. intros Heq.
  apply next_inj; [done..|].
  apply IH; [by apply next_well_formed..|done].
Qed.

(** X20.  [operator()] takes a pair of 64-bit words to a pair of 64-bit
    words and returns a 64-bit number, and it never takes two different
    states to the same state, however often it is called. *)
Theorem next_one_to_one n g g' :
  well_formed g → well_formed g' →
  well_formed (advance n g) ∧
  Forall is_uint64 (draw n g) ∧
  (advance n g = advance n g' → g = g').
Proof.
  intros Hg Hg'. split_and!.
  - by apply advance_well_formed.
  - by apply draw_uint64.
  - by apply advance_inj.
Qed.

(** X21.  The state of two zero words is a trap, and the only way into
    it is to start there: from it every call returns 0 and leaves the
    state as it is, and from any other state it is never reached.  A
    generator is seeded into it exactly when both numbers drawn for the
    seed are zero. *)
Theorem zero_state_is_the_only_trap n g draw0 draw1 :
  well_formed g → is_uint64 draw0 → is_uint64 draw1 →
  advance n stuck = stuck ∧
  draw n stuck = replicate n 0 ∧
  (advance n g = stuck ↔ g = stuck) ∧
  (seeded draw0 draw1 = stuck ↔ draw0 = 0 ∧ draw1 = 0).
Proof.
  intros Hg H0 H1.
  assert (∀ m, advance m stuck = stuck ∧ draw m stuck = replicate m 0)
    as Hstuck.
  { induction m as [|m [IHa IHd]]; [done|].
    cbn [advance draw replicate].
    change (next stuck) with (0, stuck). cbn [fst snd]. by rewrite IHa, IHd. }
  assert (well_formed stuck) as Hws by (split; unfold is_uint64; cbn; lia).
  split_and!; try apply Hstuck.
  - split.
    + intros Heq. rewrite <-(proj1 (Hstuck n)) in Heq.
      by apply (advance_inj n).
    + intros ->. apply Hstuck.
  - unfold seeded, stuck. split.
    + intros [= Ha Hb].
      assert (is_uint64 0) as Hz by (unfold is_uint64; lia).
      split.
      * apply avalance_inj; [done..|]. by rewrite Ha.
      * apply avalance_inj; [done..|]. by rewrite Hb.
    + by intros [-> ->].
Qed.

Lemma avalance_one_to_one_witness :
  is_uint64 5 ∧ is_uint64 0 ∧ (avalance 5 = 0 ↔ 5 = 0).
Proof.
  assert (is_uint64 5) as H5 by (unfold is_uint64; lia).
  assert (is_uint64 0) as H0 by (unfold is_uint64; lia).
  split_and!; [done..|].
  exact (proj2 (proj2 (avalance_one_to_one 5 0 H5 H0))).
Defined.

Lemma next_one_to_one_witness :
  well_formed (mk 1 2) ∧ well_formed (mk 3 4) ∧
  Forall is_uint64 (draw 3 (mk 1 2)).
Proof.
  assert (well_formed (mk 1 2)) as H1
    by (split; unfold is_uint64; cbn; lia).
  assert (well_formed (mk 3 4)) as H2
    by (split; unfold is_uint64; cbn; lia).
  split_and!; [done..|].
  exact (proj1 (proj2 (next_one_to_one 3 (mk 1 2) (mk 3 4) H1 H2))).
Defined.

Lemma zero_state_is_the_only_trap_witness :
  well_formed (mk 1 2) ∧ is_uint64 0 ∧ is_uint64 7 ∧
  (advance 4 (mk 1 2) = stuck ↔ mk 1 2 = stuck).
Proof.
  assert (well_formed (mk 1 2)) as H1
    by (split; unfold is_uint64; cbn; lia).
  assert (is_uint64 0) as H0 by (unfold is_uint64; lia).
  assert (is_uint64 7) as H7 by (unfold is_uint64; lia).
  split_and!; [done..|].
  destruct (zero_state_is_the_only_trap 4 (mk 1 2) 0 7 H1 H0 H7)
    as (_ & _ & Htrap & _).
  exact Htrap.
Defined.

End Xorshift128plusFacts.
